(** * Selection: the set of selected volumes of the 3D scene

    A shallow embedding of [src/slic3r/GUI/Selection.cpp] and the properties
    proved about it.

    Conventions of the embedding.
    - [double] is IEEE binary64, the kernel's primitive [float].
    - [int] fields are [Z]; an [int] compared with an [unsigned int] is first
      converted to unsigned, written [u32].  Counters of type [unsigned int]
      wrap with [u32] as well.
    - [unsigned int] indices into the volume list are [nat] (the list is far
      shorter than 2^32).
    - [std::set<unsigned int>] is a [gset nat]; a range-for over it visits
      the members in ascending order, see [indices].
    - The selection does not own the volume list nor the model, it holds
      pointers to them.  The embedding keeps the pointed-to data inside the
      state: [m_volumes] and [m_model] are [None] for a null pointer.
    - Reading a vector outside its bounds is undefined in C++.  The embedding
      makes such a read return a default-constructed element and makes such a
      write do nothing.  The guards of the source are all kept, so those
      reads only happen where the source has no guard.
    - Assertions are those of a release build: they are compiled out. *)

From Stdlib Require Import ZArith Floats Bool Lia.
From stdpp Require Import base option list gmap sets sorting.

(** ** Vectors and transformations *)

Record Vec3d := mkVec3d { vx : float; vy : float; vz : float }.

Definition Vec3d_Zero : Vec3d := mkVec3d 0 0 0.
Definition Vec3d_Ones : Vec3d := mkVec3d 1 1 1.

Definition vadd (a b : Vec3d) : Vec3d :=
  mkVec3d (vx a + vx b) (vy a + vy b) (vz a + vz b).
Definition vsub (a b : Vec3d) : Vec3d :=
  mkVec3d (vx a - vx b) (vy a - vy b) (vz a - vz b).

(** The enum [Axis] of libslic3r ([X], [Y], [Z]); the constructors carry a
    prefix because [Z] is the type of integers here. *)
Inductive Axis := AxisX | AxisY | AxisZ.

Definition coeff (v : Vec3d) (a : Axis) : float :=
  match a with AxisX => vx v | AxisY => vy v | AxisZ => vz v end.

Definition set_coeff (v : Vec3d) (a : Axis) (d : float) : Vec3d :=
  match a with
  | AxisX => mkVec3d d (vy v) (vz v)
  | AxisY => mkVec3d (vx v) d (vz v)
  | AxisZ => mkVec3d (vx v) (vy v) d
  end.

(** [Eigen::Transform<double, 3, Affine>]: the three rows of the linear part
    and the translation. *)
Record Transform3d := mkTransform3d {
  row0 : Vec3d; row1 : Vec3d; row2 : Vec3d; translation : Vec3d
}.

Definition Transform3d_Identity : Transform3d :=
  mkTransform3d (mkVec3d 1 0 0) (mkVec3d 0 1 0) (mkVec3d 0 0 1) Vec3d_Zero.

(** [Geometry::Transformation]: the four components a volume or an instance
    is placed with.  Modelled from the spec: the class is declared outside
    src/, and section 1 of the spec has the transform storage as a black box
    the selection reads from and writes to; it is taken to hold what was
    last stored in each component. *)
Record Transformation := mkTransformation {
  get_offset : Vec3d;
  get_rotation : Vec3d;
  get_scaling_factor : Vec3d;
  get_mirror : Vec3d
}.

Definition set_offset (o : Vec3d) (t : Transformation) : Transformation :=
  mkTransformation o (get_rotation t) (get_scaling_factor t) (get_mirror t).
Definition set_rotation (r : Vec3d) (t : Transformation) : Transformation :=
  mkTransformation (get_offset t) r (get_scaling_factor t) (get_mirror t).
Definition set_scaling_factor (f : Vec3d) (t : Transformation) : Transformation :=
  mkTransformation (get_offset t) (get_rotation t) f (get_mirror t).
Definition set_mirror (m : Vec3d) (t : Transformation) : Transformation :=
  mkTransformation (get_offset t) (get_rotation t) (get_scaling_factor t) m.

Definition Transformation_default : Transformation :=
  mkTransformation Vec3d_Zero Vec3d_Zero Vec3d_Ones Vec3d_Ones.

(** [BoundingBoxf3] of libslic3r. *)
Record BoundingBoxf3 := mkBoundingBoxf3 {
  bb_defined : bool; bb_min : Vec3d; bb_max : Vec3d
}.

Definition BoundingBoxf3_empty : BoundingBoxf3 :=
  mkBoundingBoxf3 false Vec3d_Zero Vec3d_Zero.

(** ** The volume list and the model *)

(** The fields of [GLVolume] the selection reads and writes.  [object_idx],
    [volume_idx] and [instance_idx] are the three parts of the composite id;
    a negative [volume_idx] marks an auxiliary mesh (SLA supports, pad). *)
Record GLVolume := mkGLVolume {
  object_idx : Z;
  volume_idx : Z;
  instance_idx : Z;
  is_modifier : bool;
  is_wipe_tower : bool;
  selected : bool;
  disabled : bool;
  get_volume_transformation : Transformation;
  get_instance_transformation : Transformation
}.

Definition set_selected (b : bool) (v : GLVolume) : GLVolume :=
  mkGLVolume (object_idx v) (volume_idx v) (instance_idx v) (is_modifier v)
    (is_wipe_tower v) b (disabled v)
    (get_volume_transformation v) (get_instance_transformation v).

Definition set_disabled (b : bool) (v : GLVolume) : GLVolume :=
  mkGLVolume (object_idx v) (volume_idx v) (instance_idx v) (is_modifier v)
    (is_wipe_tower v) (selected v) b
    (get_volume_transformation v) (get_instance_transformation v).

Definition set_volume_transformation (t : Transformation) (v : GLVolume) : GLVolume :=
  mkGLVolume (object_idx v) (volume_idx v) (instance_idx v) (is_modifier v)
    (is_wipe_tower v) (selected v) (disabled v)
    t (get_instance_transformation v).

Definition set_instance_transformation (t : Transformation) (v : GLVolume) : GLVolume :=
  mkGLVolume (object_idx v) (volume_idx v) (instance_idx v) (is_modifier v)
    (is_wipe_tower v) (selected v) (disabled v)
    (get_volume_transformation v) t.

Definition get_volume_offset v := get_offset (get_volume_transformation v).
Definition get_volume_rotation v := get_rotation (get_volume_transformation v).
Definition get_volume_scaling_factor v := get_scaling_factor (get_volume_transformation v).
Definition get_volume_mirror v := get_mirror (get_volume_transformation v).
Definition get_instance_offset v := get_offset (get_instance_transformation v).
Definition get_instance_rotation v := get_rotation (get_instance_transformation v).
Definition get_instance_scaling_factor v := get_scaling_factor (get_instance_transformation v).
Definition get_instance_mirror v := get_mirror (get_instance_transformation v).

Definition set_volume_offset o v :=
  set_volume_transformation (set_offset o (get_volume_transformation v)) v.
Definition set_volume_rotation r v :=
  set_volume_transformation (set_rotation r (get_volume_transformation v)) v.
Definition set_volume_scaling_factor f v :=
  set_volume_transformation (set_scaling_factor f (get_volume_transformation v)) v.
Definition set_volume_mirror m v :=
  set_volume_transformation (set_mirror m (get_volume_transformation v)) v.
Definition set_instance_offset o v :=
  set_instance_transformation (set_offset o (get_instance_transformation v)) v.
Definition set_instance_rotation r v :=
  set_instance_transformation (set_rotation r (get_instance_transformation v)) v.
Definition set_instance_scaling_factor f v :=
  set_instance_transformation (set_scaling_factor f (get_instance_transformation v)) v.
Definition set_instance_mirror m v :=
  set_instance_transformation (set_mirror m (get_instance_transformation v)) v.

(** [set_volume_mirror(axis, value)] and [set_instance_mirror(axis, value)]. *)
Definition set_volume_mirror_axis (a : Axis) (d : float) v :=
  set_volume_mirror (set_coeff (get_volume_mirror v) a d) v.
Definition set_instance_mirror_axis (a : Axis) (d : float) v :=
  set_instance_mirror (set_coeff (get_instance_mirror v) a d) v.
(** [set_instance_offset(axis, value)]. *)
Definition set_instance_offset_axis (a : Axis) (d : float) v :=
  set_instance_offset (set_coeff (get_instance_offset v) a d) v.

#[export] Instance GLVolume_inhabited : Inhabited GLVolume :=
  populate (mkGLVolume 0 0 0 false false false false
              Transformation_default Transformation_default).

(** Of a [ModelObject] the selection reads [volumes.size()] and
    [instances.size()] only. *)
Record ModelObject := mkModelObject {
  volumes_size : nat;
  instances_size : nat
}.

#[export] Instance ModelObject_inhabited : Inhabited ModelObject :=
  populate (mkModelObject 0 0).

Record Model := mkModel { objects : list ModelObject }.

(** [m_model->objects[idx]] for an [int] index. *)
Definition model_object (m : Model) (idx : Z) : ModelObject :=
  if (idx <? 0)%Z then inhabitant else objects m !!! Z.to_nat idx.

(** ** Integer conversions *)

Definition u32 (z : Z) : Z := (z mod 2 ^ 32)%Z.

(** [(unsigned int)v.size()] *)
Definition usize {A} (l : list A) : Z := u32 (Z.of_nat (length l)).

(** ** Vector helpers of Eigen that Selection.cpp calls *)

Definition squaredNorm (v : Vec3d) : float := vx v * vx v + vy v * vy v + vz v * vz v.

(** [numext::mini(a, b)] *)
Definition fmini (a b : float) : float := if (b <? a)%float then b else a.

(** [NumTraits<double>::dummy_precision()], the binary64 nearest to 1e-12. *)
Definition dummy_precision : float := 0x1.19799812dea11p-40.

(** [a.isApprox(b)] with Eigen's default precision. *)
Definition isApprox (a b : Vec3d) : bool :=
  (squaredNorm (vsub a b) <=? dummy_precision * dummy_precision * fmini (squaredNorm a) (squaredNorm b))%float.

(** [v.cwiseAbs().maxCoeff(&index)]: the index of the first largest
    coefficient. *)
Definition cwiseAbs_maxCoeff_index (v : Vec3d) : nat :=
  let a0 := PrimFloat.abs (vx v) in
  let a1 := PrimFloat.abs (vy v) in
  let a2 := PrimFloat.abs (vz v) in
  let '(i, m) := if (a0 <? a1)%float then (1, a1) else (0, a0) in
  if (m <? a2)%float then 2 else i.

Definition cross (a b : Vec3d) : Vec3d :=
  mkVec3d (vy a * vz b - vz a * vy b)
          (vz a * vx b - vx a * vz b)
          (vx a * vy b - vy a * vx b).

(** [v.normalize()] *)
Definition normalize (v : Vec3d) : Vec3d :=
  let z := squaredNorm v in
  if (0 <? z)%float then
    let n := PrimFloat.sqrt z in mkVec3d (vx v / n) (vy v / n) (vz v / n)
  else v.

Definition vnorm (v : Vec3d) : float := PrimFloat.sqrt (squaredNorm v).

(** Column [k] of the linear part of a transform. *)
Definition col (m : Transform3d) (k : Axis) : Vec3d :=
  mkVec3d (coeff (row0 m) k) (coeff (row1 m) k) (coeff (row2 m) k).

(** [Eigen::Quaterniond] *)
Record Quaterniond := mkQuaterniond { qw : float; qx : float; qy : float; qz : float }.

(** The numeric routines Selection.cpp calls and that live outside it:
    [Geometry::assemble_transform], [Geometry::extract_euler_angles] and
    [Transformation::get_matrix] of libslic3r, the matrix and quaternion
    algebra of Eigen, [acos] of libm, the convex hull box of a [GLVolume] and
    the box operations of [BoundingBoxf3].  They are parameters of the
    development. *)
Class Geometry := {
  assemble_transform : Vec3d → Vec3d → Vec3d → Vec3d → Transform3d;
  transformation_get_matrix : Transformation → Transform3d;
  extract_euler_angles : Transform3d → Vec3d;
  transform_mul : Transform3d → Transform3d → Transform3d;
  transform_inverse : Transform3d → Transform3d;
  transform_apply : Transform3d → Vec3d → Vec3d;
  (** [Transform3d::rotate(Eigen::AngleAxisd(angle, axis))] *)
  transform_rotate : Transform3d → float → Vec3d → Transform3d;
  (** [Eigen::AngleAxisd(angle, axis)] as a rotation *)
  AngleAxisd : float → Vec3d → Quaterniond;
  quaternion_mul : Quaterniond → Quaterniond → Quaterniond;
  (** [Eigen::AngleAxisd(q)]: the axis and the angle of a quaternion *)
  angle_axis_of : Quaterniond → Vec3d * float;
  acos : float → float;
  transformed_convex_hull_bounding_box : GLVolume → BoundingBoxf3;
  bb_merge : BoundingBoxf3 → BoundingBoxf3 → BoundingBoxf3;
  bb_center : BoundingBoxf3 → Vec3d
}.

(** ** The selection *)

Inductive EMode := Volume | Instance.

Inductive EType :=
  | Invalid | Empty | WipeTower | SingleModifier | MultipleModifier
  | SingleVolume | MultipleVolume | SingleFullObject | MultipleFullObject
  | SingleFullInstance | MultipleFullInstance | Mixed.

#[export] Instance EMode_eq_dec : EqDecision EMode.
Proof. solve_decision. Defined.
#[export] Instance EType_eq_dec : EqDecision EType.
Proof. solve_decision. Defined.

Inductive SyncRotationType :=
  | SYNC_ROTATION_NONE | SYNC_ROTATION_FULL | SYNC_ROTATION_GENERAL.

(** [TransformationType] of Selection.hpp, a set of three flags; [world],
    [absolute] and [joint] are the flags not being set. *)
Record TransformationType := mkTransformationType {
  tt_local : bool; tt_relative : bool; tt_independent : bool
}.
Definition tt_world (t : TransformationType) := negb (tt_local t).
Definition tt_absolute (t : TransformationType) := negb (tt_relative t).
Definition tt_joint (t : TransformationType) := negb (tt_independent t).

(** [VolumeCache::TransformCache] *)
Record TransformCache := mkTransformCache {
  tc_position : Vec3d;
  tc_rotation : Vec3d;
  tc_scaling_factor : Vec3d;
  tc_mirror : Vec3d;
  tc_rotation_matrix : Transform3d;
  tc_scale_matrix : Transform3d;
  tc_mirror_matrix : Transform3d;
  tc_full_matrix : Transform3d
}.

(** [TransformCache::TransformCache()] *)
Definition TransformCache_default : TransformCache :=
  mkTransformCache Vec3d_Zero Vec3d_Zero Vec3d_Ones Vec3d_Ones
    Transform3d_Identity Transform3d_Identity Transform3d_Identity Transform3d_Identity.

(** [TransformCache::TransformCache(const Geometry::Transformation&)] *)
Definition TransformCache_of `{Geometry} (t : Transformation) : TransformCache :=
  mkTransformCache (get_offset t) (get_rotation t) (get_scaling_factor t) (get_mirror t)
    (assemble_transform Vec3d_Zero (get_rotation t) Vec3d_Ones Vec3d_Ones)
    (assemble_transform Vec3d_Zero Vec3d_Zero (get_scaling_factor t) Vec3d_Ones)
    (assemble_transform Vec3d_Zero Vec3d_Zero Vec3d_Ones (get_mirror t))
    (transformation_get_matrix t).

Record VolumeCache := mkVolumeCache {
  vc_volume : TransformCache;
  vc_instance : TransformCache
}.

#[export] Instance VolumeCache_inhabited : Inhabited VolumeCache :=
  populate (mkVolumeCache TransformCache_default TransformCache_default).

Definition get_volume_position c := tc_position (vc_volume c).
Definition get_volume_rotation_c c := tc_rotation (vc_volume c).
Definition get_volume_rotation_matrix c := tc_rotation_matrix (vc_volume c).
Definition get_volume_scale_matrix c := tc_scale_matrix (vc_volume c).
Definition get_instance_position c := tc_position (vc_instance c).
Definition get_instance_rotation_c c := tc_rotation (vc_instance c).
Definition get_instance_rotation_matrix c := tc_rotation_matrix (vc_instance c).
Definition get_instance_scale_matrix c := tc_scale_matrix (vc_instance c).
Definition get_instance_mirror_matrix c := tc_mirror_matrix (vc_instance c).
Definition get_instance_full_matrix c := tc_full_matrix (vc_instance c).

(** [Selection::Cache].  [volumes_data] is a [std::map] read with
    [operator[]], which yields a default-constructed [VolumeCache] for a
    missing key: [volume_data] below.  In the code such a read also adds the
    default entry to the map; [volume_data] is a read only and the map of the
    model keeps the entries [_set_caches] stored.  The code reads the map with
    [operator[]] and nowhere else, and [_set_caches] clears it before it
    stores, so the entry that is added changes no value that is read later: a
    statement about [volume_data] holds of the code, a statement about the
    keys of [volumes_data] need not. *)
Record Cache := mkCache {
  volumes_data : gmap nat VolumeCache;
  content : gmap Z (gset Z);
  dragging_center : Vec3d
}.

Definition volume_data (c : Cache) (i : nat) : VolumeCache :=
  default inhabitant (volumes_data c !! i).

(** The deletion requests sent to the object list. *)
Inductive ItemType := itObject | itVolume | itInstance.

#[export] Instance ItemType_eq_dec : EqDecision ItemType.
Proof. solve_decision. Defined.

Record ItemForDelete := mkItemForDelete {
  item_type : ItemType; obj_idx : Z; sub_obj_idx : Z
}.

#[export] Instance ItemForDelete_eq_dec : EqDecision ItemForDelete.
Proof. solve_decision. Defined.

(** The calls the selection makes on the application's other components:
    [wxGetApp().obj_manipul()->reset_cache()] and the two overloads of
    [wxGetApp().obj_list()->delete_from_model_and_list]. *)
Inductive AppCall :=
  | reset_cache
  | delete_from_model_and_list_item (type : ItemType) (obj_idx sub_obj_idx : Z)
  | delete_from_model_and_list (items : list ItemForDelete).

(** The state of a [Selection], with the volume list and the model it points
    to, and the calls it has made so far (most recent last).  The members
    used for rendering only ([m_arrow], [m_curved_arrow], [m_scale_factor],
    [m_quadric]) are left out. *)
Record Selection := mkSelection {
  m_volumes : option (list GLVolume);
  m_model : option Model;
  m_mode : EMode;
  m_type : EType;
  m_valid : bool;
  m_list : gset nat;
  m_cache : Cache;
  m_bounding_box : BoundingBoxf3;
  m_bounding_box_dirty : bool;
  app_calls : list AppCall
}.

Definition with_m_volumes (f : option (list GLVolume) → option (list GLVolume))
    (s : Selection) : Selection :=
  mkSelection (f (m_volumes s)) (m_model s) (m_mode s) (m_type s) (m_valid s)
    (m_list s) (m_cache s) (m_bounding_box s) (m_bounding_box_dirty s) (app_calls s).
Definition with_m_model m (s : Selection) : Selection :=
  mkSelection (m_volumes s) m (m_mode s) (m_type s) (m_valid s)
    (m_list s) (m_cache s) (m_bounding_box s) (m_bounding_box_dirty s) (app_calls s).
Definition with_m_mode m (s : Selection) : Selection :=
  mkSelection (m_volumes s) (m_model s) m (m_type s) (m_valid s)
    (m_list s) (m_cache s) (m_bounding_box s) (m_bounding_box_dirty s) (app_calls s).
Definition with_m_type t (s : Selection) : Selection :=
  mkSelection (m_volumes s) (m_model s) (m_mode s) t (m_valid s)
    (m_list s) (m_cache s) (m_bounding_box s) (m_bounding_box_dirty s) (app_calls s).
Definition with_m_valid b (s : Selection) : Selection :=
  mkSelection (m_volumes s) (m_model s) (m_mode s) (m_type s) b
    (m_list s) (m_cache s) (m_bounding_box s) (m_bounding_box_dirty s) (app_calls s).
Definition with_m_list l (s : Selection) : Selection :=
  mkSelection (m_volumes s) (m_model s) (m_mode s) (m_type s) (m_valid s)
    l (m_cache s) (m_bounding_box s) (m_bounding_box_dirty s) (app_calls s).
Definition with_m_cache c (s : Selection) : Selection :=
  mkSelection (m_volumes s) (m_model s) (m_mode s) (m_type s) (m_valid s)
    (m_list s) c (m_bounding_box s) (m_bounding_box_dirty s) (app_calls s).
Definition with_m_bounding_box b (s : Selection) : Selection :=
  mkSelection (m_volumes s) (m_model s) (m_mode s) (m_type s) (m_valid s)
    (m_list s) (m_cache s) b (m_bounding_box_dirty s) (app_calls s).
Definition with_m_bounding_box_dirty b (s : Selection) : Selection :=
  mkSelection (m_volumes s) (m_model s) (m_mode s) (m_type s) (m_valid s)
    (m_list s) (m_cache s) (m_bounding_box s) b (app_calls s).
Definition call (c : AppCall) (s : Selection) : Selection :=
  mkSelection (m_volumes s) (m_model s) (m_mode s) (m_type s) (m_valid s)
    (m_list s) (m_cache s) (m_bounding_box s) (m_bounding_box_dirty s) (app_calls s ++ [c]).

(** The volume list and the model behind the two pointers.  A null pointer
    is read as the empty list and as the empty model; the code dereferences
    the pointers without a test, so what is stated of a selection carries
    over to the code where the pointers are set. *)
Definition volumes (s : Selection) : list GLVolume := default [] (m_volumes s).
Definition model (s : Selection) : Model := default (mkModel []) (m_model s).

(** The volume at index [i] of the list, and an update of it in place. *)
Definition volume (s : Selection) (i : nat) : GLVolume := volumes s !!! i.
Definition update_volumes (f : list GLVolume → list GLVolume) (s : Selection) : Selection :=
  with_m_volumes (λ o : option (list GLVolume), f <$> o) s.
Definition update_volume (i : nat) (f : GLVolume → GLVolume) (s : Selection) : Selection :=
  update_volumes (alter f i) s.

(** The members of an index set in the order a range-for visits them. *)
Definition indices (l : gset nat) : list nat := merge_sort (≤) (elements l).

(** [Selection::Selection()] *)
Definition Selection_new : Selection :=
  mkSelection None None Instance Empty false ∅
    (mkCache ∅ ∅ Vec3d_Zero) BoundingBoxf3_empty true [].

Definition _update_valid (s : Selection) : Selection :=
  with_m_valid (bool_decide (is_Some (m_volumes s)) && bool_decide (is_Some (m_model s))) s.

(** [set_volumes] and [set_model]; [None] is the null pointer. *)
Definition set_volumes (vs : option (list GLVolume)) (s : Selection) : Selection :=
  _update_valid (with_m_volumes (λ _, vs) s).
Definition set_model (m : option Model) (s : Selection) : Selection :=
  _update_valid (with_m_model m s).

(** ** Queries *)

(** Modelled from the spec: the classification predicates of Selection.hpp
    (the header is not under src/); each one tests the derived selection
    type [m_type], and a modifier selection is a single or a multiple one. *)
Definition is_empty (s : Selection) : bool := bool_decide (m_type s = Empty).
Definition is_wipe_tower_sel (s : Selection) : bool := bool_decide (m_type s = WipeTower).
Definition is_single_modifier (s : Selection) : bool := bool_decide (m_type s = SingleModifier).
Definition is_multiple_modifier (s : Selection) : bool := bool_decide (m_type s = MultipleModifier).
Definition is_modifier_sel (s : Selection) : bool :=
  is_single_modifier s || is_multiple_modifier s.
Definition is_single_volume (s : Selection) : bool := bool_decide (m_type s = SingleVolume).
Definition is_multiple_volume (s : Selection) : bool := bool_decide (m_type s = MultipleVolume).
Definition is_single_full_object (s : Selection) : bool := bool_decide (m_type s = SingleFullObject).
Definition is_multiple_full_object (s : Selection) : bool := bool_decide (m_type s = MultipleFullObject).
Definition is_multiple_full_instance (s : Selection) : bool := bool_decide (m_type s = MultipleFullInstance).
Definition is_mixed (s : Selection) : bool := bool_decide (m_type s = Mixed).

(** Modelled from the spec: [contains_volume] of Selection.hpp, membership of
    an index in the selected-index set. *)
Definition contains_volume (volume_idx : nat) (s : Selection) : bool :=
  bool_decide (volume_idx ∈ m_list s).

Definition get_object_idx (s : Selection) : Z :=
  match map_to_list (content (m_cache s)) with
  | [(o, _)] => o
  | _ => (-1)%Z
  end.

Definition get_instance_idx (s : Selection) : Z :=
  match map_to_list (content (m_cache s)) with
  | [(_, idxs)] => match elements idxs with [i] => i | _ => (-1)%Z end
  | _ => (-1)%Z
  end.

(** Modelled from the spec: [is_from_single_instance] of Selection.hpp. *)
Definition is_from_single_instance (s : Selection) : bool :=
  negb (get_instance_idx s =? -1)%Z.

Definition is_single_full_instance (s : Selection) : bool :=
  if bool_decide (m_type s = SingleFullInstance) then true
  else if bool_decide (m_type s = SingleFullObject) then negb (get_instance_idx s =? -1)%Z
  else if bool_decide (m_list s = ∅) || bool_decide (volumes s = []) then false
  else
    let object_idx_ := if m_valid s then get_object_idx s else (-1)%Z in
    if (object_idx_ <? 0)%Z || (Z.of_nat (length (objects (model s))) <=? object_idx_)%Z
    then false
    else
      let instance_idx_ := instance_idx (volume s (hd 0 (indices (m_list s)))) in
      if forallb (λ i, (object_idx (volume s i) =? object_idx_)%Z
                       && (instance_idx (volume s i) =? instance_idx_)%Z)
                 (indices (m_list s))
      then
        let volumes_idxs : gset Z :=
          list_to_set (filter (λ z, (0 ≤ z)%Z)
                         (map (λ i, volume_idx (volume s i)) (indices (m_list s)))) in
        bool_decide (volumes_size (model_object (model s) object_idx_) = size volumes_idxs)
      else false.

Definition is_from_single_object (s : Selection) : bool :=
  (0 <=? get_object_idx s)%Z && (get_object_idx s <? 1000)%Z.

Definition requires_uniform_scale (s : Selection) : bool :=
  negb (is_single_full_instance s || is_single_modifier s || is_single_volume s).

Definition requires_local_axes (s : Selection) : bool :=
  bool_decide (m_mode s = Volume) && is_from_single_instance s.

(** [get_volume]: [None] is the null pointer. *)
Definition get_volume (s : Selection) (volume_idx : nat) : option GLVolume :=
  if m_valid s && bool_decide (volume_idx < length (volumes s))
  then volumes s !! volume_idx
  else None.

(** ** Classification *)

Definition with_content (c : gmap Z (gset Z)) (s : Selection) : Selection :=
  with_m_cache (mkCache (volumes_data (m_cache s)) c (dragging_center (m_cache s))) s.

(** The first loop of [_update_type]: the instances of each object that the
    selected volumes touch. *)
Definition build_content (s : Selection) : gmap Z (gset Z) :=
  foldl (λ c i,
           let v := volume s i in
           <[object_idx v := default ∅ (c !! object_idx v) ∪ {[instance_idx v]}]> c)
        ∅ (indices (m_list s)).

(** [(unsigned int)m_list.size()] *)
Definition list_size (s : Selection) : Z := u32 (Z.of_nat (size (m_list s))).

(** The number of members of the selection that satisfy [p], as an
    [unsigned int] counter. *)
Definition count_selected (p : GLVolume → bool) (s : Selection) : Z :=
  u32 (Z.of_nat (length (filter (λ i, p (volume s i) = true) (indices (m_list s))))).

(** The middle of [_update_type]: the type, whether the mode is forced to
    [Instance], and [requires_disable]. *)
Definition classify (s : Selection) : EType * bool * bool :=
  if negb (m_valid s) then (Invalid, false, false)
  else if bool_decide (m_list s = ∅) then (Empty, false, false)
  else if bool_decide (size (m_list s) = 1) then
    let first := volume s (hd 0 (indices (m_list s))) in
    if is_wipe_tower first then (WipeTower, false, false)
    else if is_modifier first then (SingleModifier, false, true)
    else
      let model_object_ := model_object (model s) (object_idx first) in
      let volumes_count := u32 (Z.of_nat (volumes_size model_object_)) in
      let instances_count := u32 (Z.of_nat (instances_size model_object_)) in
      if (u32 (volumes_count * instances_count) =? 1)%Z then (SingleFullObject, true, false)
      else if (volumes_count =? 1)%Z then (SingleFullInstance, true, false)
      else (SingleVolume, false, true)
  else
    match map_to_list (content (m_cache s)) with
    | [(o, idxs)] =>
        let model_object_ := model_object (model s) o in
        let model_volumes_count := u32 (Z.of_nat (volumes_size model_object_)) in
        let sla_volumes_count := count_selected (λ v, (volume_idx v <? 0)%Z) s in
        let volumes_count := u32 (model_volumes_count + sla_volumes_count) in
        let instances_count := u32 (Z.of_nat (instances_size model_object_)) in
        let selected_instances_count := u32 (Z.of_nat (size idxs)) in
        if (u32 (volumes_count * instances_count) =? list_size s)%Z
        then (SingleFullObject, true, false)
        else if (selected_instances_count =? 1)%Z then
          if (volumes_count =? list_size s)%Z then (SingleFullInstance, true, false)
          else
            let modifiers_count := count_selected is_modifier s in
            if (modifiers_count =? 0)%Z then (MultipleVolume, false, true)
            else if (modifiers_count =? list_size s)%Z then (MultipleModifier, false, true)
            else (Mixed, false, false)
        else if (1 <? selected_instances_count)%Z
                && (u32 (selected_instances_count * volumes_count) =? list_size s)%Z
        then (MultipleFullInstance, true, false)
        else (Mixed, false, false)
    | l =>
        let sels_cntr :=
          foldl (λ acc '(o, _),
                   let model_object_ := model_object (model s) o in
                   let volumes_count := u32 (Z.of_nat (volumes_size model_object_)) in
                   let instances_count := u32 (Z.of_nat (instances_size model_object_)) in
                   u32 (acc + u32 (volumes_count * instances_count))) 0%Z l in
        if (sels_cntr =? list_size s)%Z then (MultipleFullObject, true, false)
        else (Mixed, false, false)
    end.

Definition _update_type (s : Selection) : Selection :=
  let s := with_m_type Mixed (with_content (build_content s) s) in
  let '(type, force_instance, requires_disable) := classify s in
  let s := with_m_type type s in
  let s := if force_instance then with_m_mode Instance s else s in
  let object_idx_ := get_object_idx s in
  let instance_idx_ := get_instance_idx s in
  update_volumes
    (fmap (λ v,
       set_disabled
         (if requires_disable
          then negb (object_idx v =? object_idx_)%Z || negb (instance_idx v =? instance_idx_)%Z
          else false) v)) s.

(** ** Mutators *)

(** A loop [for (unsigned int i = 0; i < m_volumes->size(); ++i)] whose body
    reads the volume [i] and updates the selection. *)
Definition for_each_volume (body : nat → GLVolume → Selection → Selection)
    (s : Selection) : Selection :=
  foldl (λ st i, body i (volume st i) st) s (seq 0 (length (volumes s))).

(** A range-for over [m_list]; the bodies below never change [m_list]
    while they iterate over it. *)
Definition for_each_selected (body : nat → Selection → Selection)
    (s : Selection) : Selection :=
  foldl (λ st i, body i st) s (indices (m_list s)).

Definition _add_volume (volume_idx : nat) (s : Selection) : Selection :=
  update_volume volume_idx (set_selected true)
    (with_m_list (m_list s ∪ {[volume_idx]}) s).

Definition _add_instance (object_idx_ instance_idx_ : Z) (s : Selection) : Selection :=
  for_each_volume (λ i v st,
    if (u32 (object_idx v) =? object_idx_)%Z && (u32 (instance_idx v) =? instance_idx_)%Z
    then _add_volume i st else st) s.

Definition _add_object (object_idx_ : Z) (s : Selection) : Selection :=
  for_each_volume (λ i v st,
    if (u32 (object_idx v) =? object_idx_)%Z then _add_volume i st else st) s.

Definition _remove_volume (volume_idx : nat) (s : Selection) : Selection :=
  if bool_decide (volume_idx ∈ m_list s)
  then update_volume volume_idx (set_selected false)
         (with_m_list (m_list s ∖ {[volume_idx]}) s)
  else s.

Definition _remove_instance (object_idx_ instance_idx_ : Z) (s : Selection) : Selection :=
  for_each_volume (λ i v st,
    if (u32 (object_idx v) =? object_idx_)%Z && (u32 (instance_idx v) =? instance_idx_)%Z
    then _remove_volume i st else st) s.

Definition _remove_object (object_idx_ : Z) (s : Selection) : Selection :=
  for_each_volume (λ i v st,
    if (u32 (object_idx v) =? object_idx_)%Z then _remove_volume i st else st) s.

Definition clear (s : Selection) : Selection :=
  if negb (m_valid s) then s
  else
    let s := for_each_selected (λ i st, update_volume i (set_selected false) st) s in
    let s := with_m_list ∅ s in
    let s := _update_type s in
    let s := with_m_bounding_box_dirty true s in
    call reset_cache s.

(** The first part of [add]: whether the current list is reset. *)
Definition add_needs_reset (v : GLVolume) (as_single_selection : bool) (s : Selection) : bool :=
  as_single_selection
  || is_wipe_tower v
  || (is_wipe_tower_sel s && negb (is_wipe_tower v))
  || (negb (is_modifier_sel s) && is_modifier v)
  || (is_modifier_sel s && negb (is_modifier v)).

(** The second part of [add]: the mode the volume is added in. *)
Definition add_resolve_mode (volume_idx : nat) (s : Selection) : Selection :=
  if is_modifier (volume s volume_idx) then with_m_mode Volume s
  else if negb (contains_volume volume_idx s) then with_m_mode Instance s
  else s.

Definition add (volume_idx_ : nat) (as_single_selection : bool) (s : Selection) : Selection :=
  if negb (m_valid s) || bool_decide (length (volumes s) ≤ volume_idx_) then s
  else if is_wipe_tower_sel s && is_wipe_tower (volume s volume_idx_) then s
  else
    let needs_reset := add_needs_reset (volume s volume_idx_) as_single_selection s in
    let s := if needs_reset then clear s else s in
    let s := add_resolve_mode volume_idx_ s in
    let v := volume s volume_idx_ in
    let s :=
      match m_mode s with
      | Volume =>
          if (0 <=? volume_idx v)%Z
             && (is_empty s || (instance_idx v =? get_instance_idx s)%Z)
          then _add_volume volume_idx_ s else s
      | Instance => _add_instance (u32 (object_idx v)) (u32 (instance_idx v)) s
      end in
    with_m_bounding_box_dirty true (_update_type s).

Definition remove (volume_idx : nat) (s : Selection) : Selection :=
  if negb (m_valid s) || bool_decide (length (volumes s) ≤ volume_idx) then s
  else
    let v := volume s volume_idx in
    let s :=
      match m_mode s with
      | Volume => _remove_volume volume_idx s
      | Instance => _remove_instance (u32 (object_idx v)) (u32 (instance_idx v)) s
      end in
    with_m_bounding_box_dirty true (_update_type s).

(** The [unsigned int] arguments of the functions below are given as
    integers in the range of the type. *)
Definition add_object (object_idx_ : Z) (as_single_selection : bool) (s : Selection) : Selection :=
  if negb (m_valid s) then s
  else
    let s := if as_single_selection then clear s else s in
    let s := with_m_mode Instance s in
    let s := _add_object object_idx_ s in
    with_m_bounding_box_dirty true (_update_type s).

Definition remove_object (object_idx_ : Z) (s : Selection) : Selection :=
  if negb (m_valid s) then s
  else with_m_bounding_box_dirty true (_update_type (_remove_object object_idx_ s)).

Definition add_instance (object_idx_ instance_idx_ : Z) (as_single_selection : bool)
    (s : Selection) : Selection :=
  if negb (m_valid s) then s
  else
    let s := if as_single_selection then clear s else s in
    let s := with_m_mode Instance s in
    let s := _add_instance object_idx_ instance_idx_ s in
    with_m_bounding_box_dirty true (_update_type s).

Definition remove_instance (object_idx_ instance_idx_ : Z) (s : Selection) : Selection :=
  if negb (m_valid s) then s
  else with_m_bounding_box_dirty true
         (_update_type (_remove_instance object_idx_ instance_idx_ s)).

(** [instance_idx_] is an [int] here, the other two are unsigned. *)
Definition add_volume (object_idx_ volume_idx_ instance_idx_ : Z)
    (as_single_selection : bool) (s : Selection) : Selection :=
  if negb (m_valid s) then s
  else
    let s := if as_single_selection then clear s else s in
    let s := with_m_mode Volume s in
    let s :=
      for_each_volume (λ i v st,
        if (u32 (object_idx v) =? object_idx_)%Z && (u32 (volume_idx v) =? volume_idx_)%Z
        then
          if negb (instance_idx_ =? -1)%Z && (instance_idx v =? instance_idx_)%Z
          then _add_volume i st else st
        else st) s in
    with_m_bounding_box_dirty true (_update_type s).

Definition remove_volume (object_idx_ volume_idx_ : Z) (s : Selection) : Selection :=
  if negb (m_valid s) then s
  else
    let s :=
      for_each_volume (λ i v st,
        if (u32 (object_idx v) =? object_idx_)%Z && (u32 (volume_idx v) =? volume_idx_)%Z
        then _remove_volume i st else st) s in
    with_m_bounding_box_dirty true (_update_type s).

Definition add_all (s : Selection) : Selection :=
  if negb (m_valid s) then s
  else
    let s := with_m_mode Instance s in
    let s := clear s in
    let s := for_each_volume (λ i v st,
               if negb (is_wipe_tower v) then _add_volume i st else st) s in
    with_m_bounding_box_dirty true (_update_type s).

(** [size_t(-1)], the mark of a removed volume in the index map. *)
Definition size_t_max : Z := (2 ^ 64 - 1)%Z.

(** The conversion of an unsigned 32 bit value to [int]. *)
Definition s32 (z : Z) : Z := ((z + 2 ^ 31) mod 2 ^ 32 - 2 ^ 31)%Z.

Definition pair_le (a b : Z * Z) : Prop :=
  (a.1 < b.1)%Z ∨ (a.1 = b.1 ∧ (a.2 ≤ b.2)%Z).
#[export] Instance pair_le_dec a b : Decision (pair_le a b).
Proof. unfold pair_le. apply _. Defined.

(** [sort_remove_duplicates] of libslic3r (not under src/): [std::sort]
    followed by the removal of repeated elements. *)
Definition sort_remove_duplicates (l : list (Z * Z)) : list (Z * Z) :=
  remove_dups (merge_sort pair_le l).

(** [volumes_changed]: the index map is a vector of [size_t]. *)
Definition volumes_changed (map_volume_old_to_new : list Z) (s : Selection) : Selection :=
  let '(list_new, model_instances) :=
    foldl (λ '(list_new, model_instances) idx,
             let m : Z := map_volume_old_to_new !!! idx in
             if negb (m =? size_t_max)%Z then
               let new_idx := Z.to_nat (u32 m) in
               let list_new : gset nat := list_new ∪ {[new_idx]} in
               if bool_decide (m_mode s = Instance) then
                 let v := volume s new_idx in
                 (list_new, model_instances ++ [(u32 (object_idx v), u32 (instance_idx v))])
               else (list_new, model_instances)
             else (list_new, model_instances))
          (∅, []) (indices (m_list s)) in
  let s := with_m_list list_new s in
  let s :=
    if negb (bool_decide (model_instances = [])) then
      let model_instances := sort_remove_duplicates model_instances in
      for_each_volume (λ i _ st,
        foldl (λ st' '(first, second),
                 let v := volume st' i in
                 if (object_idx v =? s32 first)%Z && (instance_idx v =? s32 second)%Z
                 then _add_volume i st' else st')
              st model_instances) s
    else s in
  with_m_bounding_box_dirty true (_update_type s).

(** ** Bounding box and drag-start snapshot *)

Definition _calc_bounding_box `{Geometry} (s : Selection) : Selection :=
  let box :=
    if m_valid s
    then foldl (λ b i, bb_merge b (transformed_convex_hull_bounding_box (volume s i)))
               BoundingBoxf3_empty (indices (m_list s))
    else BoundingBoxf3_empty in
  with_m_bounding_box_dirty false (with_m_bounding_box box s).

(** [get_bounding_box] is [const] but refreshes the [mutable] cached box: it
    returns the box and the selection with the refreshed cache. *)
Definition get_bounding_box `{Geometry} (s : Selection) : BoundingBoxf3 * Selection :=
  let s := if m_bounding_box_dirty s then _calc_bounding_box s else s in
  (m_bounding_box s, s).

Definition _set_caches `{Geometry} (s : Selection) : Selection :=
  let data : gmap nat VolumeCache :=
    foldl (λ d i,
             let v := volume s i in
             <[i := mkVolumeCache (TransformCache_of (get_volume_transformation v))
                                  (TransformCache_of (get_instance_transformation v))]> d)
          ∅ (seq 0 (length (volumes s))) in
  let s := with_m_cache (mkCache data (content (m_cache s)) (dragging_center (m_cache s))) s in
  let '(box, s) := get_bounding_box s in
  with_m_cache (mkCache (volumes_data (m_cache s)) (content (m_cache s)) (bb_center box)) s.

Definition start_dragging `{Geometry} (s : Selection) : Selection :=
  if negb (m_valid s) then s else _set_caches s.

(** ** Synchronisation of the volumes that are not selected *)

(** Modelled from the spec: the macro [DISABLE_INSTANCES_SYNCH] is defined
    outside src/; section 4.4 of the spec has every transform followed by the
    synchronisation, so the macro is 0. *)
Definition DISABLE_INSTANCES_SYNCH : bool := false.

Definition rotation_xyz_diff `{Geometry} (rot_xyz_from rot_xyz_to : Vec3d) : Quaterniond :=
  let UnitX := mkVec3d 1 0 0 in
  let UnitY := mkVec3d 0 1 0 in
  let UnitZ := mkVec3d 0 0 1 in
  quaternion_mul
    (quaternion_mul
       (quaternion_mul
          (quaternion_mul
             (quaternion_mul (AngleAxisd (vz rot_xyz_to) UnitZ) (AngleAxisd (vy rot_xyz_to) UnitY))
             (AngleAxisd (vx rot_xyz_to) UnitX))
          (AngleAxisd (- vx rot_xyz_from) UnitX))
       (AngleAxisd (- vy rot_xyz_from) UnitY))
    (AngleAxisd (- vz rot_xyz_from) UnitZ).

Definition rotation_diff_z `{Geometry} (rot_xyz_from rot_xyz_to : Vec3d) : float :=
  let '(axis, angle) := angle_axis_of (rotation_xyz_diff rot_xyz_from rot_xyz_to) in
  if (vz axis <? 0)%float then (- angle)%float else angle.

(** The two [break]s of the loops below test a condition that stays true
    once it holds (the set [done] only grows, the list keeps its length), so
    leaving the loop is the same as skipping every remaining round. *)
Definition _synchronize_unselected_instances `{Geometry}
    (sync_rotation_type : SyncRotationType) (s : Selection) : Selection :=
  let cache := m_cache s in
  fst (foldl (λ '(st, done) i,
    if bool_decide (size done = length (volumes st)) then (st, done)
    else
      let volume_ := volume st i in
      let object_idx_ := object_idx volume_ in
      if (1000 <=? object_idx_)%Z then (st, done)
      else
        let instance_idx_ := instance_idx volume_ in
        let rotation := get_instance_rotation volume_ in
        let scaling_factor := get_instance_scaling_factor volume_ in
        let mirror := get_instance_mirror volume_ in
        foldl (λ '(st, done) j,
          if bool_decide (size done = length (volumes st)) then (st, done)
          else if bool_decide (j ∈ done) then (st, done)
          else
            let v := volume st j in
            if negb (object_idx v =? object_idx_)%Z || (instance_idx v =? instance_idx_)%Z
            then (st, done)
            else
              let st :=
                match sync_rotation_type with
                | SYNC_ROTATION_NONE => st
                | SYNC_ROTATION_FULL =>
                    update_volume j
                      (set_instance_rotation (mkVec3d (vx rotation) (vy rotation) (vz rotation))) st
                | SYNC_ROTATION_GENERAL =>
                    let z_diff :=
                      rotation_diff_z (get_instance_rotation_c (volume_data cache i))
                                      (get_instance_rotation_c (volume_data cache j)) in
                    update_volume j
                      (set_instance_rotation
                         (mkVec3d (vx rotation) (vy rotation) (vz rotation + z_diff))) st
                end in
              let st := update_volume j (set_instance_scaling_factor scaling_factor) st in
              let st := update_volume j (set_instance_mirror mirror) st in
              (st, done ∪ {[j]}))
          (st, done) (seq 0 (length (volumes st))))
    (s, m_list s) (indices (m_list s))).

Definition _synchronize_unselected_volumes (s : Selection) : Selection :=
  for_each_selected (λ i st,
    let volume_ := volume st i in
    let object_idx_ := object_idx volume_ in
    if (1000 <=? object_idx_)%Z then st
    else
      let volume_idx_ := volume_idx volume_ in
      let offset := get_volume_offset volume_ in
      let rotation := get_volume_rotation volume_ in
      let scaling_factor := get_volume_scaling_factor volume_ in
      let mirror := get_volume_mirror volume_ in
      for_each_volume (λ j v st,
        if bool_decide (j = i) then st
        else if negb (object_idx v =? object_idx_)%Z || negb (volume_idx v =? volume_idx_)%Z
        then st
        else
          let st := update_volume j (set_volume_offset offset) st in
          let st := update_volume j (set_volume_rotation rotation) st in
          let st := update_volume j (set_volume_scaling_factor scaling_factor) st in
          update_volume j (set_volume_mirror mirror) st) st) s.

(** The block [#if !DISABLE_INSTANCES_SYNCH ... #endif] that ends the
    transform operations. *)
Definition synchronize `{Geometry} (sync_rotation_type : SyncRotationType)
    (s : Selection) : Selection :=
  if DISABLE_INSTANCES_SYNCH then s
  else
    match m_mode s with
    | Instance => _synchronize_unselected_instances sync_rotation_type s
    | Volume => _synchronize_unselected_volumes s
    end.

(** [DBL_MAX] *)
Definition DBL_MAX : float := 0x1.fffffffffffffp+1023.

(** [std::min(a, b)] *)
Definition std_min (a b : float) : float := if (b <? a)%float then b else a.

Definition _ensure_on_bed `{Geometry} (s : Selection) : Selection :=
  let instances_min_z : gmap (Z * Z) float :=
    foldl (λ m v,
             if negb (is_wipe_tower v) && negb (is_modifier v) then
               let min_z := vz (bb_min (transformed_convex_hull_bounding_box v)) in
               let instance := (object_idx v, instance_idx v) in
               <[instance := std_min (default DBL_MAX (m !! instance)) min_z]> m
             else m)
          ∅ (volumes s) in
  for_each_volume (λ j v st,
    match instances_min_z !! (object_idx v, instance_idx v) with
    | Some min_z =>
        update_volume j
          (set_instance_offset_axis AxisZ (coeff (get_instance_offset v) AxisZ - min_z)) st
    | None => st
    end) s.

(** ** Transform operations *)

Definition translate `{Geometry} (displacement : Vec3d) (local : bool) (s : Selection) : Selection :=
  if negb (m_valid s) then s
  else
    let cache := m_cache s in
    let s :=
      for_each_selected (λ i st,
        if bool_decide (m_mode st = Volume) || is_wipe_tower (volume st i) then
          if local then
            update_volume i
              (set_volume_offset (vadd (get_volume_position (volume_data cache i)) displacement)) st
          else
            let local_displacement :=
              transform_apply
                (transform_inverse
                   (transform_mul
                      (transform_mul (get_instance_rotation_matrix (volume_data cache i))
                                     (get_instance_scale_matrix (volume_data cache i)))
                      (get_instance_mirror_matrix (volume_data cache i))))
                displacement in
            update_volume i
              (set_volume_offset
                 (vadd (get_volume_position (volume_data cache i)) local_displacement)) st
        else if bool_decide (m_mode st = Instance) then
          update_volume i
            (set_instance_offset (vadd (get_instance_position (volume_data cache i)) displacement)) st
        else st) s in
    let s := synchronize SYNC_ROTATION_NONE s in
    with_m_bounding_box_dirty true s.

(** [std::vector<int>] read and written at an [int] position. *)
Definition vector_get (l : list Z) (i : Z) : Z :=
  if (i <? 0)%Z then inhabitant else l !!! Z.to_nat i.
Definition vector_set (l : list Z) (i : Z) (x : Z) : list Z :=
  if (i <? 0)%Z then l else <[Z.to_nat i := x]> l.

(** The lambda [rotate_instance] of [rotate]; it carries the table
    [object_instance_first] along. *)
Definition rotate_instance `{Geometry} (rotation : Vec3d) (rot_axis_max : nat)
    (transformation_type : TransformationType) (i : nat)
    (st : Selection * list Z) : Selection * list Z :=
  let '(s, object_instance_first) := st in
  let cache := m_cache s in
  let v := volume s i in
  let first_volume_idx := vector_get object_instance_first (object_idx v) in
  if negb (rot_axis_max =? 2) && negb (first_volume_idx =? -1)%Z then
    let first_volume := volume s (Z.to_nat first_volume_idx) in
    let rotation := get_instance_rotation first_volume in
    let z_diff :=
      rotation_diff_z
        (get_instance_rotation_c (volume_data cache (Z.to_nat (u32 first_volume_idx))))
        (get_instance_rotation_c (volume_data cache i)) in
    (update_volume i
       (set_instance_rotation (mkVec3d (vx rotation) (vy rotation) (vz rotation + z_diff))) s,
     object_instance_first)
  else
    let new_rotation :=
      if tt_world transformation_type then
        extract_euler_angles
          (transform_mul (assemble_transform Vec3d_Zero rotation Vec3d_Ones Vec3d_Ones)
                         (get_instance_rotation_matrix (volume_data cache i)))
      else if tt_absolute transformation_type then rotation
      else vadd rotation (get_instance_rotation_c (volume_data cache i)) in
    let s :=
      if (rot_axis_max =? 2) && tt_joint transformation_type then
        let offset :=
          transform_apply
            (assemble_transform Vec3d_Zero
               (mkVec3d 0 0
                  (vz new_rotation - vz (get_instance_rotation_c (volume_data cache i))))
               Vec3d_Ones Vec3d_Ones)
            (vsub (get_instance_position (volume_data cache i)) (dragging_center cache)) in
        update_volume i (set_instance_offset (vadd (dragging_center cache) offset)) s
      else s in
    (update_volume i (set_instance_rotation new_rotation) s,
     vector_set object_instance_first (object_idx v) (Z.of_nat i)).

Definition rotate `{Geometry} (rotation : Vec3d) (transformation_type : TransformationType)
    (s : Selection) : Selection :=
  if negb (m_valid s) then s
  else
    let cache := m_cache s in
    let '(s, rot_axis_max) :=
      if isApprox rotation Vec3d_Zero then
        (for_each_selected (λ i st,
           match m_mode st with
           | Instance =>
               let st := update_volume i
                           (set_instance_rotation (get_instance_rotation_c (volume_data cache i))) st in
               update_volume i (set_instance_offset (get_instance_position (volume_data cache i))) st
           | Volume =>
               let st := update_volume i
                           (set_volume_rotation (get_volume_rotation_c (volume_data cache i))) st in
               update_volume i (set_volume_offset (get_volume_position (volume_data cache i))) st
           end) s, 0)
      else
        let rot_axis_max := cwiseAbs_maxCoeff_index rotation in
        let object_instance_first := replicate (length (objects (model s))) (-1)%Z in
        (fst (foldl (λ '(st, oif) i,
           if is_single_full_instance st then
             rotate_instance rotation rot_axis_max transformation_type i (st, oif)
           else if is_single_volume st || is_single_modifier st then
             if tt_independent transformation_type then
               (update_volume i
                  (set_volume_rotation (vadd (get_volume_rotation (volume st i)) rotation)) st, oif)
             else
               let m := assemble_transform Vec3d_Zero rotation Vec3d_Ones Vec3d_Ones in
               let new_rotation :=
                 extract_euler_angles
                   (transform_mul m (get_volume_rotation_matrix (volume_data cache i))) in
               (update_volume i (set_volume_rotation new_rotation) st, oif)
           else
             match m_mode st with
             | Instance => rotate_instance rotation rot_axis_max transformation_type i (st, oif)
             | Volume =>
                 let m := assemble_transform Vec3d_Zero rotation Vec3d_Ones Vec3d_Ones in
                 let new_rotation :=
                   extract_euler_angles
                     (transform_mul m (get_volume_rotation_matrix (volume_data cache i))) in
                 let st :=
                   if tt_joint transformation_type then
                     let local_pivot :=
                       transform_apply
                         (transform_inverse (get_instance_full_matrix (volume_data cache i)))
                         (dragging_center cache) in
                     let offset :=
                       transform_apply m
                         (vsub (get_volume_position (volume_data cache i)) local_pivot) in
                     update_volume i (set_volume_offset (vadd local_pivot offset)) st
                   else st in
                 (update_volume i (set_volume_rotation new_rotation) st, oif)
             end)
           (s, object_instance_first) (indices (m_list s))), rot_axis_max) in
    let s := synchronize (if rot_axis_max =? 2 then SYNC_ROTATION_NONE
                          else SYNC_ROTATION_GENERAL) s in
    with_m_bounding_box_dirty true s.

(** [0.999f] converted to [double]. *)
Definition float_0_999 : float := 0x1.ff7ceep-1.

Definition flattening_rotate `{Geometry} (normal : Vec3d) (s : Selection) : Selection :=
  if negb (m_valid s) then s
  else
    let cache := m_cache s in
    let s :=
      for_each_selected (λ i st,
        let wst := get_instance_scale_matrix (volume_data cache i) in
        let scaling_factor :=
          mkVec3d (1 / vx (row0 wst)) (1 / vy (row1 wst)) (1 / vz (row2 wst)) in
        let wmt := get_instance_mirror_matrix (volume_data cache i) in
        let mirror := mkVec3d (vx (row0 wmt)) (vy (row1 wmt)) (vz (row2 wmt)) in
        let rotation :=
          extract_euler_angles (get_instance_rotation_matrix (volume_data cache i)) in
        let transformed_normal :=
          normalize
            (transform_apply (assemble_transform Vec3d_Zero rotation scaling_factor mirror)
                             normal) in
        let axis :=
          normalize
            (if (float_0_999 <? vz transformed_normal)%float then mkVec3d 1 0 0
             else cross transformed_normal (mkVec3d 0 0 (-1))) in
        let extra_rotation :=
          transform_rotate Transform3d_Identity (acos (- vz transformed_normal)) axis in
        let new_rotation :=
          extract_euler_angles
            (transform_mul extra_rotation (get_instance_rotation_matrix (volume_data cache i))) in
        update_volume i (set_instance_rotation new_rotation) st) s in
    let s :=
      if DISABLE_INSTANCES_SYNCH then s
      else if bool_decide (m_mode s = Instance)
           then _synchronize_unselected_instances SYNC_ROTATION_FULL s else s in
    with_m_bounding_box_dirty true s.

Definition scale `{Geometry} (scale : Vec3d) (local : bool) (s : Selection) : Selection :=
  if negb (m_valid s) then s
  else
    let cache := m_cache s in
    let s :=
      for_each_selected (λ i st,
        if is_single_full_instance st then
          update_volume i (set_instance_scaling_factor scale) st
        else if is_single_volume st || is_single_modifier st then
          update_volume i (set_volume_scaling_factor scale) st
        else
          let m := assemble_transform Vec3d_Zero Vec3d_Zero scale Vec3d_Ones in
          match m_mode st with
          | Instance =>
              let new_matrix :=
                transform_mul m (get_instance_scale_matrix (volume_data cache i)) in
              let new_scale :=
                mkVec3d (vnorm (col new_matrix AxisX)) (vnorm (col new_matrix AxisY))
                        (vnorm (col new_matrix AxisZ)) in
              let st :=
                if negb local then
                  update_volume i
                    (set_instance_offset
                       (vadd (dragging_center cache)
                          (transform_apply m
                             (vsub (get_instance_position (volume_data cache i))
                                   (dragging_center cache))))) st
                else st in
              update_volume i (set_instance_scaling_factor new_scale) st
          | Volume =>
              let new_matrix :=
                transform_mul m (get_volume_scale_matrix (volume_data cache i)) in
              let new_scale :=
                mkVec3d (vnorm (col new_matrix AxisX)) (vnorm (col new_matrix AxisY))
                        (vnorm (col new_matrix AxisZ)) in
              let st :=
                if negb local then
                  let offset :=
                    transform_apply m
                      (vsub (vadd (get_volume_position (volume_data cache i))
                                  (get_instance_position (volume_data cache i)))
                            (dragging_center cache)) in
                  update_volume i
                    (set_volume_offset
                       (vadd (vsub (dragging_center cache)
                                   (get_instance_position (volume_data cache i))) offset)) st
                else st in
              update_volume i (set_volume_scaling_factor new_scale) st
          end) s in
    let s := synchronize SYNC_ROTATION_NONE s in
    let s := _ensure_on_bed s in
    with_m_bounding_box_dirty true s.

Definition mirror `{Geometry} (axis : Axis) (s : Selection) : Selection :=
  if negb (m_valid s) then s
  else
    let single_full_instance := is_single_full_instance s in
    let s :=
      for_each_selected (λ i st,
        if single_full_instance then
          update_volume i
            (λ v, set_instance_mirror_axis axis (- coeff (get_instance_mirror v) axis) v) st
        else if bool_decide (m_mode st = Volume) then
          update_volume i
            (λ v, set_volume_mirror_axis axis (- coeff (get_volume_mirror v) axis) v) st
        else st) s in
    let s := synchronize SYNC_ROTATION_NONE s in
    with_m_bounding_box_dirty true s.

(** [translate(unsigned int object_idx, const Vec3d&)].  The second loop
    declares a local [object_idx] that hides the parameter. *)
Definition translate_object (object_idx_ : Z) (displacement : Vec3d) (s : Selection) : Selection :=
  if negb (m_valid s) then s
  else
    let s :=
      for_each_selected (λ i st,
        let v := volume st i in
        if (u32 (object_idx v) =? object_idx_)%Z
        then update_volume i (set_instance_offset (vadd (get_instance_offset v) displacement)) st
        else st) s in
    let s :=
      fst (foldl (λ '(st, done) i,
        if bool_decide (size done = length (volumes st)) then (st, done)
        else
          let object_idx_ := object_idx (volume st i) in
          if (1000 <=? object_idx_)%Z then (st, done)
          else
            foldl (λ '(st, done) j,
              if bool_decide (size done = length (volumes st)) then (st, done)
              else if bool_decide (j ∈ done) then (st, done)
              else
                let v := volume st j in
                if negb (object_idx v =? object_idx_)%Z then (st, done)
                else
                  (update_volume j
                     (set_instance_offset (vadd (get_instance_offset v) displacement)) st,
                   done ∪ {[j]}))
              (st, done) (seq 0 (length (volumes st))))
        (s, m_list s) (indices (m_list s))) in
    with_m_bounding_box_dirty true s.

(** [translate(unsigned int object_idx, unsigned int instance_idx, const Vec3d&)] *)
Definition translate_instance (object_idx_ instance_idx_ : Z) (displacement : Vec3d)
    (s : Selection) : Selection :=
  if negb (m_valid s) then s
  else
    let s :=
      for_each_selected (λ i st,
        let v := volume st i in
        if (u32 (object_idx v) =? object_idx_)%Z && (u32 (instance_idx v) =? instance_idx_)%Z
        then update_volume i (set_instance_offset (vadd (get_instance_offset v) displacement)) st
        else st) s in
    let s :=
      fst (foldl (λ '(st, done) i,
        if bool_decide (size done = length (volumes st)) then (st, done)
        else
          let object_idx_ := object_idx (volume st i) in
          if (1000 <=? object_idx_)%Z then (st, done)
          else
            foldl (λ '(st, done) j,
              if bool_decide (size done = length (volumes st)) then (st, done)
              else if bool_decide (j ∈ done) then (st, done)
              else
                let v := volume st j in
                if negb (object_idx v =? object_idx_)%Z
                   || negb (u32 (instance_idx v) =? instance_idx_)%Z
                then (st, done)
                else
                  (update_volume j
                     (set_instance_offset (vadd (get_instance_offset v) displacement)) st,
                   done ∪ {[j]}))
              (st, done) (seq 0 (length (volumes st))))
        (s, m_list s) (indices (m_list s))) in
    with_m_bounding_box_dirty true s.

(** ** Deletion *)

Definition ItemType_rank (t : ItemType) : nat :=
  match t with itObject => 0 | itVolume => 1 | itInstance => 2 end.

Definition ItemForDelete_encode (i : ItemForDelete) : nat * Z * Z :=
  (ItemType_rank (item_type i), obj_idx i, sub_obj_idx i).

Definition ItemForDelete_decode (x : nat * Z * Z) : ItemForDelete :=
  let '(t, o, k) := x in
  mkItemForDelete (match t with 0 => itObject | 1 => itVolume | _ => itInstance end) o k.

#[export] Instance ItemForDelete_countable : Countable ItemForDelete.
Proof.
  apply (inj_countable' ItemForDelete_encode ItemForDelete_decode).
  by intros [[] ? ?].
Defined.

(** Modelled from the spec: [std::set<ItemForDelete>] de-duplicates the
    requests; the order [operator<] of [ItemForDelete] is declared outside
    src/ and is taken to be by object index, then sub-object index, then
    type.  Within one object the requests built by [erase] all have the same
    type. *)
Definition ItemForDelete_le (a b : ItemForDelete) : Prop :=
  (obj_idx a < obj_idx b)%Z
  ∨ (obj_idx a = obj_idx b
     ∧ ((sub_obj_idx a < sub_obj_idx b)%Z
        ∨ (sub_obj_idx a = sub_obj_idx b
           ∧ ItemType_rank (item_type a) ≤ ItemType_rank (item_type b)))).
#[export] Instance ItemForDelete_le_dec a b : Decision (ItemForDelete_le a b).
Proof. unfold ItemForDelete_le. apply _. Defined.

Definition items_in_order (items_set : gset ItemForDelete) : list ItemForDelete :=
  merge_sort ItemForDelete_le (elements items_set).

(** A [std::map] with [int] keys visited in key order. *)
Definition key_le {A} (a b : Z * A) : Prop := (a.1 ≤ b.1)%Z.
#[export] Instance key_le_dec {A} (a b : Z * A) : Decision (key_le a b).
Proof. unfold key_le. apply _. Defined.
Definition map_in_order {A} (m : gmap Z A) : list (Z * A) :=
  merge_sort key_le (map_to_list m).

(** [std::set<std::pair<int, int>>] visited in order. *)
Definition pairs_in_order (ps : gset (Z * Z)) : list (Z * Z) :=
  merge_sort pair_le (elements ps).

(** The first loop of the [is_mixed()] branch of [erase]: the set of
    requests and the number of volumes requested per object. *)
Definition erase_mixed_collect (s : Selection) : gset ItemForDelete * gmap Z Z :=
  foldl (λ '(items_set, volumes_in_obj) i,
    let gl_vol := volume s i in
    let glv_obj_idx := object_idx gl_vol in
    let model_object_ := model_object (model s) glv_obj_idx in
    if bool_decide (instances_size model_object_ = 1) then
      if bool_decide (volumes_size model_object_ = 1) then
        (items_set ∪ {[mkItemForDelete itObject glv_obj_idx (-1)]}, volumes_in_obj)
      else
        let idx := default 0%Z (volumes_in_obj !! glv_obj_idx) in
        (items_set ∪ {[mkItemForDelete itVolume glv_obj_idx (volume_idx gl_vol)]},
         <[glv_obj_idx := (idx + 1)%Z]> volumes_in_obj)
    else
      let glv_ins_idx := instance_idx gl_vol in
      match content (m_cache s) !! glv_obj_idx with
      | Some idxs =>
          if bool_decide (glv_ins_idx ∈ idxs) then
            if bool_decide (size idxs = instances_size model_object_)
            then (items_set ∪ {[mkItemForDelete itVolume glv_obj_idx (volume_idx gl_vol)]},
                  volumes_in_obj)
            else (items_set ∪ {[mkItemForDelete itInstance glv_obj_idx glv_ins_idx]},
                  volumes_in_obj)
          else (items_set, volumes_in_obj)
      | None => (items_set, volumes_in_obj)
      end)
    (∅, ∅) (indices (m_list s)).

(** The second loop of the [is_mixed()] branch: the requests that are sent. *)
Definition erase_mixed_items (s : Selection) : list ItemForDelete :=
  let '(items_set, volumes_in_obj) := erase_mixed_collect s in
  foldl (λ items i,
    let pass := items ++ [mkItemForDelete (item_type i) (obj_idx i) (sub_obj_idx i)] in
    if bool_decide (item_type i = itVolume) then
      let vol_in_obj_cnt := default 0%Z (volumes_in_obj !! obj_idx i) in
      if (vol_in_obj_cnt =? Z.of_nat (volumes_size (model_object (model s) (obj_idx i))))%Z
      then
        if (sub_obj_idx i =? vol_in_obj_cnt - 1)%Z
        then items ++ [mkItemForDelete itObject (obj_idx i) 0]
        else items
      else pass
    else pass)
    [] (items_in_order items_set).

Definition erase (s : Selection) : Selection :=
  if negb (m_valid s) then s
  else if is_single_full_object s then
    call (delete_from_model_and_list_item itObject (get_object_idx s) 0) s
  else if is_multiple_full_object s then
    call (delete_from_model_and_list
            (map (λ '(o, _), mkItemForDelete itObject o 0)
                 (map_in_order (content (m_cache s))))) s
  else if is_multiple_full_instance s then
    let instances_idxs : gset (Z * Z) :=
      foldl (λ acc '(o, idxs), acc ∪ set_map (λ i : Z, (o, i)) idxs)
            ∅ (map_in_order (content (m_cache s))) in
    call (delete_from_model_and_list
            (map (λ '(o, i), mkItemForDelete itInstance o i)
                 (pairs_in_order instances_idxs))) s
  else if is_single_full_instance s then
    call (delete_from_model_and_list_item itInstance (get_object_idx s) (get_instance_idx s)) s
  else if is_mixed s then
    call (delete_from_model_and_list (erase_mixed_items s)) s
  else
    let volumes_idxs : gset (Z * Z) :=
      foldl (λ acc i,
               let v := volume s i in
               if (0 <=? volume_idx v)%Z then acc ∪ {[(object_idx v, volume_idx v)]} else acc)
            ∅ (indices (m_list s)) in
    call (delete_from_model_and_list
            (map (λ '(o, k), mkItemForDelete itVolume o k)
                 (pairs_in_order volumes_idxs))) s.

(** * Properties of the selection *)

(** ** Predicates on states *)

(** The flag of every volume tells whether its index is selected: a selected
    index is the index of a volume whose flag is set, and a volume whose
    index is not selected has the flag clear. *)
Definition flags_match (s : Selection) : Prop :=
  ∀ i, (i ∈ m_list s → ∃ v, volumes s !! i = Some v ∧ selected v = true)
       ∧ (∀ v, volumes s !! i = Some v → i ∉ m_list s → selected v = false).

(** What the selection never changes in a volume. *)
Definition identity_of (v : GLVolume) : Z * Z * Z * bool * bool :=
  (object_idx v, volume_idx v, instance_idx v, is_modifier v, is_wipe_tower v).

(** Two states over the same scene: the same binding and the same volumes up
    to the fields the selection writes. *)
Definition same_scene (s s' : Selection) : Prop :=
  m_valid s' = m_valid s ∧ m_model s' = m_model s
  ∧ identity_of <$> volumes s' = identity_of <$> volumes s.

(** A selection bound to a volume list and to a model. *)
Definition bound (s : Selection) : Prop :=
  m_valid s = true ∧ is_Some (m_volumes s) ∧ is_Some (m_model s).

(** ** A stand-in for the numeric routines

    The examples below run operations whose outcome does not depend on the
    numeric routines; they are run with this instance. *)
Definition plain_geometry : Geometry := {|
  assemble_transform _ _ _ _ := Transform3d_Identity;
  transformation_get_matrix _ := Transform3d_Identity;
  extract_euler_angles _ := Vec3d_Zero;
  transform_mul a _ := a;
  transform_inverse a := a;
  transform_apply _ v := v;
  transform_rotate a _ _ := a;
  AngleAxisd _ _ := mkQuaterniond 1 0 0 0;
  quaternion_mul a _ := a;
  angle_axis_of _ := (mkVec3d 0 0 1, 0%float);
  acos x := x;
  transformed_convex_hull_bounding_box _ := BoundingBoxf3_empty;
  bb_merge a _ := a;
  bb_center _ := Vec3d_Zero
|}.

(** ** Scenes used in the examples *)

Definition GLVolume_of (object_idx_ volume_idx_ instance_idx_ : Z)
    (is_modifier_ is_wipe_tower_ : bool) : GLVolume :=
  mkGLVolume object_idx_ volume_idx_ instance_idx_ is_modifier_ is_wipe_tower_
    false false Transformation_default Transformation_default.

(** A fresh selection bound to a volume list and a model. *)
Definition bind (vs : list GLVolume) (m : Model) : Selection :=
  set_model (Some m) (set_volumes (Some vs) Selection_new).

(** ** Statements about [volumes_changed]

    The index a selected volume has in the new list, [None] when the volume
    was removed. *)
Definition new_index (map_volume_old_to_new : list Z) (idx : nat) : option nat :=
  let m : Z := map_volume_old_to_new !!! idx in
  if (m =? size_t_max)%Z then None else Some (Z.to_nat (u32 m)).

(** The volume list is owned by the canvas; the selection holds a pointer to
    it.  The canvas rebuilds the list in place and then calls
    [volumes_changed] with the map from old to new indices (the comment at the
    head of [volumes_changed]). *)
Definition rebuild (vs : list GLVolume) (s : Selection) : Selection :=
  update_volumes (λ _, vs) s.

(** What the map tells of the rebuilt list.  Modelled from the comment at the
    head of [volumes_changed] and from section 4.1 of the spec; the code that
    rebuilds the list belongs to the canvas and is outside [Selection.cpp].
    The map has an entry for every volume of the old list; a volume that
    survives is the same volume object at its new index, so it has the flag
    it had; and a volume of the new list that did not survive from the old
    one is new, and a new volume is not flagged. *)
Definition rebuilt (old new : list GLVolume) (map_volume_old_to_new : list Z) : Prop :=
  length map_volume_old_to_new = length old
  ∧ (∀ i k, i < length old → new_index map_volume_old_to_new i = Some k →
            k < length new ∧ selected (new !!! k) = selected (old !!! i))
  ∧ (∀ k v, new !! k = Some v → selected v = true →
            ∃ i, i < length old ∧ new_index map_volume_old_to_new i = Some k).

(** A test for [rebuilt]. *)
Definition rebuilt_test (old new : list GLVolume) (map_volume_old_to_new : list Z) : bool :=
  bool_decide (length map_volume_old_to_new = length old)
  && forallb (λ i, match new_index map_volume_old_to_new i with
                   | Some k => (k <? length new)
                               && bool_decide (selected (new !!! k) = selected (old !!! i))
                   | None => true
                   end) (seq 0 (length old))
  && forallb (λ k, negb (selected (new !!! k))
                   || existsb (λ i, bool_decide (new_index map_volume_old_to_new i = Some k))
                              (seq 0 (length old)))
             (seq 0 (length new)).

(** What the second loop of [volumes_changed] and the classification need of
    the flags they find: the volumes whose flag is set are the selected
    volumes at their new places, and these places are in the list. *)
Definition flags_carried_over (map_volume_old_to_new : list Z) (s : Selection) : Prop :=
  (∀ idx k, idx ∈ m_list s → new_index map_volume_old_to_new idx = Some k →
            k < length (volumes s))
  ∧ (∀ k v, volumes s !! k = Some v →
            (selected v = true ↔
             ∃ idx, idx ∈ m_list s ∧ new_index map_volume_old_to_new idx = Some k)).

(** The index map fits the selection and the rebuilt list: it has an entry
    for every selected index, and the new place of a selected volume is an
    index of the list. *)
Definition index_map_fits (map_volume_old_to_new : list Z) (s : Selection) : Prop :=
  (∀ idx, idx ∈ m_list s → idx < length map_volume_old_to_new)
  ∧ (∀ idx k, idx ∈ m_list s → new_index map_volume_old_to_new idx = Some k →
              k < length (volumes s)).

(** Two parts of one object with one instance, and a second object. *)
Definition scene_before_reload : list GLVolume :=
  [GLVolume_of 0 0 0 false false; GLVolume_of 0 1 0 false false;
   GLVolume_of 1 0 0 false false].
Definition model_reloaded : Model := mkModel [mkModelObject 2 1; mkModelObject 1 1].

(** The first object selected by a click on its first part, in [Instance]
    mode. *)
Definition object_selected_before_reload : Selection :=
  add 0 false (bind scene_before_reload model_reloaded).

(** The list after the second part of the first object was replaced by a new
    part: the second object comes first, then the new part, then the first
    part of the first object, which is still flagged. *)
Definition scene_reloaded : list GLVolume :=
  [GLVolume_of 1 0 0 false false; GLVolume_of 0 1 0 false false;
   set_selected true (GLVolume_of 0 0 0 false false)].
Definition map_reloaded : list Z := [2; size_t_max; 0]%Z.

(** Three parts of one object with one instance. *)
Definition scene_three_parts : list GLVolume :=
  [GLVolume_of 0 0 0 false false; GLVolume_of 0 1 0 false false;
   GLVolume_of 0 2 0 false false].
Definition model_three_parts : Model := mkModel [mkModelObject 3 1].

(** The second part selected on its own, in [Volume] mode. *)
Definition second_part_selected : Selection :=
  add_volume 0 1 0 true (bind scene_three_parts model_three_parts).

(** Two parts of one object and the wipe tower. *)
Definition scene_with_wipe_tower : list GLVolume :=
  [GLVolume_of 0 0 0 false false; GLVolume_of 0 1 0 false false;
   GLVolume_of 1000 0 0 false true].
Definition model_two_parts : Model := mkModel [mkModelObject 2 1].

(** The object selected by a click on its first part. *)
Definition object_selected : Selection :=
  add 0 false (bind scene_with_wipe_tower model_two_parts).

(** ** Statements about unbound selections *)

(** Every operation but [volumes_changed] leaves the state [s] as it is. *)
Definition no_operation_changes `{Geometry} (s : Selection) : Prop :=
  (∀ i e, add i e s = s)
  ∧ (∀ i, remove i s = s)
  ∧ (∀ o e, add_object o e s = s)
  ∧ (∀ o, remove_object o s = s)
  ∧ (∀ o k e, add_instance o k e s = s)
  ∧ (∀ o k, remove_instance o k s = s)
  ∧ (∀ o v k e, add_volume o v k e s = s)
  ∧ (∀ o v, remove_volume o v s = s)
  ∧ add_all s = s
  ∧ clear s = s
  ∧ start_dragging s = s
  ∧ (∀ d l, translate d l s = s)
  ∧ (∀ r t, rotate r t s = s)
  ∧ (∀ n, flattening_rotate n s = s)
  ∧ (∀ f l, scale f l s = s)
  ∧ (∀ a, mirror a s = s)
  ∧ (∀ o d, translate_object o d s = s)
  ∧ (∀ o k d, translate_instance o k d s = s)
  ∧ erase s = s.

(** Claim C4 as it is stated: on a selection that is not valid every
    operation, [volumes_changed] included, changes nothing. *)
Definition C4_as_stated : Prop :=
  ∀ (G : Geometry) (s : Selection),
    m_valid s = false →
    no_operation_changes s
    ∧ ∀ map_volume_old_to_new, volumes_changed map_volume_old_to_new s = s.

(** A selection with a volume list and no model; the one volume of the list
    is drawn disabled. *)
Definition selection_without_model : Selection :=
  set_volumes
    (Some [mkGLVolume 0 0 0 false false false true
             Transformation_default Transformation_default])
    Selection_new.

(** ** Statements about auxiliary volumes *)

(** Claim C10 as it is stated: in [Volume] mode, [add] of a volume with a
    negative volume index leaves the index set as it is. *)
Definition C10_as_stated : Prop :=
  ∀ s volume_idx_ as_single_selection,
    m_valid s = true →
    volume_idx_ < length (volumes s) →
    m_mode s = Volume →
    (volume_idx (volume s volume_idx_) < 0)%Z →
    m_list (add volume_idx_ as_single_selection s) = m_list s.

(** Two parts of one object and the mesh of its supports. *)
Definition scene_with_supports : list GLVolume :=
  [GLVolume_of 0 0 0 false false; GLVolume_of 0 1 0 false false;
   GLVolume_of 0 (-1) 0 false false].

(** The first part selected on its own, in [Volume] mode. *)
Definition first_part_selected : Selection :=
  add_volume 0 0 0 true (bind scene_with_supports model_two_parts).

(** The mesh of the supports selected on its own, in [Volume] mode:
    [add_volume] takes the volume index as an [unsigned int], and -1 is
    compared as 4294967295. *)
Definition supports_selected : Selection :=
  add_volume 0 4294967295 0 true (bind scene_with_supports model_two_parts).

(** ** Scenes for the deletion *)

(** Object 0 has one instance and two parts; object 1 has one part and
    three instances. *)
Definition model_two_objects : Model := mkModel [mkModelObject 2 1; mkModelObject 1 3].

Definition scene_two_objects : list GLVolume :=
  [GLVolume_of 0 0 0 false false; GLVolume_of 0 1 0 false false;
   GLVolume_of 1 0 0 false false; GLVolume_of 1 0 1 false false;
   GLVolume_of 1 0 2 false false].

(** The same scene with the support mesh of object 0 (volume index -1). *)
Definition scene_two_objects_with_supports : list GLVolume :=
  [GLVolume_of 0 0 0 false false; GLVolume_of 0 1 0 false false;
   GLVolume_of 0 (-1) 0 false false;
   GLVolume_of 1 0 0 false false; GLVolume_of 1 0 1 false false;
   GLVolume_of 1 0 2 false false].

(** The instance of object 0 and the first instance of object 1, selected by
    two clicks. *)
Definition two_instances_selected : Selection :=
  add 2 false (add 0 true (bind scene_two_objects model_two_objects)).
Definition two_instances_selected_with_supports : Selection :=
  add 3 false (add 0 true (bind scene_two_objects_with_supports model_two_objects)).

(** ** Statements about the wipe tower *)

(** Two volumes of the same instance, as [_add_instance] compares them. *)
Definition shares_instance (v w : GLVolume) : Prop :=
  u32 (object_idx v) = u32 (object_idx w) ∧ u32 (instance_idx v) = u32 (instance_idx w).

(** No other volume of the list has the object and instance index of a wipe
    tower volume. *)
Definition wipe_tower_alone (vs : list GLVolume) : Prop :=
  ∀ i j v w, vs !! i = Some v → vs !! j = Some w →
             is_wipe_tower v = true → shares_instance w v → j = i.

(** A selection that holds a wipe tower volume holds nothing else. *)
Definition exclusive (s : Selection) : Prop :=
  ∀ i v, i ∈ m_list s → volumes s !! i = Some v → is_wipe_tower v = true →
         m_list s = {[i]}.

(** The selections reached from a fresh bound selection by [add], [remove],
    [clear] and [add_all]. *)
Inductive reachable_by_clicks (vs : list GLVolume) (m : Model) : Selection → Prop :=
  | reachable_bind : reachable_by_clicks vs m (bind vs m)
  | reachable_add s i e :
      reachable_by_clicks vs m s → reachable_by_clicks vs m (add i e s)
  | reachable_remove s i :
      reachable_by_clicks vs m s → reachable_by_clicks vs m (remove i s)
  | reachable_clear s :
      reachable_by_clicks vs m s → reachable_by_clicks vs m (clear s)
  | reachable_add_all s :
      reachable_by_clicks vs m s → reachable_by_clicks vs m (add_all s).


(** ** What the transform operations leave alone *)

(** The members of a state other than the volume list. *)
Definition rest_of (s : Selection) : Selection := with_m_volumes (λ _, None) s.

(** The state [st] is the state [s] up to the volume list, and the volumes
    of the two lists agree under the view [π]. *)
Definition framed {A} (π : GLVolume → A) (s st : Selection) : Prop :=
  rest_of st = rest_of s ∧ π <$> volumes st = π <$> volumes s.

(** What no transform operation writes in a volume. *)
Definition marks (v : GLVolume) : Z * Z * Z * bool * bool * bool * bool :=
  (object_idx v, volume_idx v, instance_idx v, is_modifier v, is_wipe_tower v,
   selected v, disabled v).

(** What the synchronisation of instances leaves in a volume: the marks,
    the placement of the volume in its instance, and the offset of the
    instance. *)
Definition outside_instance_shape (v : GLVolume)
    : Z * Z * Z * bool * bool * bool * bool * Transformation * Vec3d :=
  (marks v, get_volume_transformation v, get_instance_offset v).

(** What the synchronisation of volumes leaves in a volume: the marks and
    the placement of the instance. *)
Definition outside_volume_placement (v : GLVolume)
    : Z * Z * Z * bool * bool * bool * bool * Transformation :=
  (marks v, get_instance_transformation v).

(** Two volumes for the same part of an object. *)
Definition same_part (v w : GLVolume) : Prop :=
  object_idx v = object_idx w ∧ volume_idx v = volume_idx w.

(** Every selected index is an index of the volume list. *)
Definition indices_in_range (s : Selection) : Prop :=
  ∀ i, i ∈ m_list s → i < length (volumes s).

(** The snapshots of two selected volumes for the same part of an object
    (of the model, not the wipe tower) hold the same rotation and position
    of the part. *)
Definition snapshots_agree (s : Selection) : Prop :=
  ∀ i j, i ∈ m_list s → j ∈ m_list s → i ≠ j →
         same_part (volume s i) (volume s j) → (object_idx (volume s i) < 1000)%Z →
         get_volume_rotation_c (volume_data (m_cache s) i)
         = get_volume_rotation_c (volume_data (m_cache s) j)
         ∧ get_volume_position (volume_data (m_cache s) i)
           = get_volume_position (volume_data (m_cache s) j).

(** Two selected volumes for the same part of an object are placed alike in
    their instances. *)
Definition parts_in_step (s : Selection) : Prop :=
  ∀ i j, i ∈ m_list s → j ∈ m_list s → i ≠ j →
         same_part (volume s i) (volume s j) → (object_idx (volume s i) < 1000)%Z →
         get_volume_transformation (volume s i) = get_volume_transformation (volume s j).

(** A scene with two instances of an object of two parts; the parts are
    placed differently in the two instances. *)
Definition part_at (object_idx_ volume_idx_ instance_idx_ : Z) (x : float) : GLVolume :=
  mkGLVolume object_idx_ volume_idx_ instance_idx_ false false false false
    (mkTransformation (mkVec3d x 0 0) (mkVec3d 0 0 x) Vec3d_Ones Vec3d_Ones)
    Transformation_default.

Definition scene_two_instances : list GLVolume :=
  [part_at 0 0 0 1; part_at 0 1 0 2; part_at 0 0 1 3; part_at 0 1 1 4].
Definition model_two_instances : Model := mkModel [mkModelObject 2 2].

(** A mirror vector with the component along [axis] negated. *)
Definition flip (axis : Axis) (m : Vec3d) : Vec3d := set_coeff m axis (- coeff m axis).

(** No two selected volumes are volumes for the same part of an object of
    the model. *)
Definition parts_distinct (s : Selection) : Prop :=
  ∀ i j, i ∈ m_list s → j ∈ m_list s → i ≠ j →
         same_part (volume s i) (volume s j) → (object_idx (volume s i) < 1000)%Z → False.

(** The displacement of [translate] in the frame of an instance, from the
    snapshot of a volume. *)
Definition local_displacement `{Geometry} (c : VolumeCache) (displacement : Vec3d) : Vec3d :=
  transform_apply
    (transform_inverse
       (transform_mul
          (transform_mul (get_instance_rotation_matrix c) (get_instance_scale_matrix c))
          (get_instance_mirror_matrix c)))
    displacement.

(** Two caches that read alike: a read of the drag-start snapshot at an
    index returns the same entry from both, and the content and the dragging
    centre are the same.  It is stated on what is read because a read of a
    missing key with [operator[]] adds a default entry to the map of the
    code. *)
Definition reads_alike (c c' : Cache) : Prop :=
  (∀ i, volume_data c' i = volume_data c i)
  ∧ content c' = content c
  ∧ dragging_center c' = dragging_center c.

(** An operation that writes nothing but placements: on a valid selection
    its result has the index set, the mode, the type, the validity, the
    model, the cached bounding box and the requests sent to the application
    of the state it starts from, its cache reads like the cache before, the
    bounding box is marked as out of date, and the volumes keep their
    indices and flags.  On a selection that is not valid it does nothing. *)
Definition writes_placements_only (op : Selection → Selection) : Prop :=
  ∀ s, if m_valid s
       then m_list (op s) = m_list s
            ∧ m_mode (op s) = m_mode s
            ∧ m_type (op s) = m_type s
            ∧ m_valid (op s) = true
            ∧ m_model (op s) = m_model s
            ∧ reads_alike (m_cache s) (m_cache (op s))
            ∧ m_bounding_box (op s) = m_bounding_box s
            ∧ m_bounding_box_dirty (op s) = true
            ∧ app_calls (op s) = app_calls s
            ∧ marks <$> volumes (op s) = marks <$> volumes s
       else op s = s.

(** A test for [parts_distinct]. *)
Definition parts_distinct_test (s : Selection) : bool :=
  forallb (λ i,
    forallb (λ j,
      (i =? j)
      || negb ((object_idx (volume s i) =? object_idx (volume s j))%Z
               && (volume_idx (volume s i) =? volume_idx (volume s j))%Z
               && (object_idx (volume s i) <? 1000)%Z))
      (indices (m_list s)))
    (indices (m_list s)).

(** The second part of the first instance selected on its own, in [Volume]
    mode, and the same selection with the snapshot taken. *)
Definition part_selected : Selection :=
  add_volume 0 1 0 true (bind scene_two_instances model_two_instances).
Definition part_dragged : Selection := @start_dragging plain_geometry part_selected.

(** The first instance selected, with the snapshot taken. *)
Definition instance_dragged : Selection :=
  @start_dragging plain_geometry (add 0 false (bind scene_two_instances model_two_instances)).

(** ** Auxiliary predicates of the proofs *)

(** A write to a volume that keeps what the selection never changes. *)
Definition KeepsIdentity (g : GLVolume → GLVolume) : Prop :=
  ∀ v, identity_of (g v) = identity_of v.

(** [flags_match] over a list of [n] volumes. *)
Definition flags_match_on (n : nat) (s : Selection) : Prop :=
  flags_match s ∧ length (volumes s) = n.

(** A test on volumes that only looks at what the selection never changes. *)
Definition on_identity (p : GLVolume → bool) : Prop :=
  ∀ v w, identity_of v = identity_of w → p v = p w.

(** The invariant of the selections reached by clicks: the list holds
    indices of the volume list; the type is [WipeTower] exactly for a list
    of one wipe tower volume; and the list holds no wipe tower volume or it
    is a list of one wipe tower volume. *)
Definition wipe_tower_invariant (vs : list GLVolume) (m : Model) (s : Selection) : Prop :=
  same_scene (bind vs m) s
  ∧ (∀ i, i ∈ m_list s → i < length vs)
  ∧ (m_type s = WipeTower ↔ ∃ i, m_list s = {[i]} ∧ is_wipe_tower (vs !!! i) = true)
  ∧ ((∀ i, i ∈ m_list s → is_wipe_tower (vs !!! i) = false)
     ∨ ∃ i, m_list s = {[i]} ∧ is_wipe_tower (vs !!! i) = true).


(** The wipe tower clicked after the object. *)
Definition wipe_tower_clicked : Selection :=
  add 2 false (add 0 false (bind scene_with_wipe_tower model_two_parts)).

(** ** Statements about the classification *)

(** The types of a full object, of full objects, of a full instance and of
    full instances. *)
Definition is_full_type (t : EType) : bool :=
  match t with
  | SingleFullObject | MultipleFullObject | SingleFullInstance | MultipleFullInstance => true
  | _ => false
  end.

(** The types of parts and of modifiers of one instance. *)
Definition is_parts_type (t : EType) : bool :=
  match t with
  | SingleModifier | MultipleModifier | SingleVolume | MultipleVolume => true
  | _ => false
  end.

(** A test for [same_part]. *)
Definition same_part_test (v w : GLVolume) : bool :=
  (object_idx v =? object_idx w)%Z && (volume_idx v =? volume_idx w)%Z.

(** The first index of [pre] whose volume is a volume of an object of the
    model for the part of the volume [j]; [j] itself when there is none. *)
Definition part_leader (s : Selection) (pre : list nat) (j : nat) : nat :=
  default j
    (find (λ i, same_part_test (volume s i) (volume s j)
                && (object_idx (volume s i) <? 1000)%Z) pre).

(** ** Statements about the translations of an object and of an instance *)

(** A volume with the offset of its instance moved by [displacement]. *)
Definition moved_by (displacement : Vec3d) (v : GLVolume) : GLVolume :=
  set_instance_offset (vadd (get_instance_offset v) displacement) v.

(** The volumes [translate(object_idx, displacement)] writes: the selected
    volumes of the object, and the volumes that are not selected of every
    object of the model that has a selected volume. *)
Definition translate_object_reaches (object_idx_ : Z) (s : Selection) (j : nat) : Prop :=
  (j ∈ m_list s ∧ u32 (object_idx (volume s j)) = object_idx_)
  ∨ ((j ∉ m_list s) ∧ j < length (volumes s)
     ∧ ∃ i, i ∈ m_list s ∧ (object_idx (volume s i) < 1000)%Z
            ∧ object_idx (volume s j) = object_idx (volume s i)).

(** The volumes [translate(object_idx, instance_idx, displacement)] writes:
    the selected volumes of the instance, and the volumes that are not
    selected, have the instance index given, and are volumes of an object of
    the model that has a selected volume. *)
Definition translate_instance_reaches (object_idx_ instance_idx_ : Z) (s : Selection)
    (j : nat) : Prop :=
  (j ∈ m_list s ∧ u32 (object_idx (volume s j)) = object_idx_
   ∧ u32 (instance_idx (volume s j)) = instance_idx_)
  ∨ ((j ∉ m_list s) ∧ j < length (volumes s)
     ∧ ∃ i, i ∈ m_list s ∧ (object_idx (volume s i) < 1000)%Z
            ∧ object_idx (volume s j) = object_idx (volume s i)
            ∧ u32 (instance_idx (volume s j)) = instance_idx_).

(** ** Statements about the synchronisation of instances *)

(** The volume [v] at index [j] after it was synchronised with the selected
    volume [vi] at index [i]: the scaling factor and the mirror of the
    instance of [vi], and a rotation by the kind of synchronisation. *)
Definition synchronized_from `{Geometry} (t : SyncRotationType) (c : Cache)
    (i : nat) (vi : GLVolume) (j : nat) (v : GLVolume) : GLVolume :=
  let rotation := get_instance_rotation vi in
  set_instance_mirror (get_instance_mirror vi)
    (set_instance_scaling_factor (get_instance_scaling_factor vi)
       match t with
       | SYNC_ROTATION_NONE => v
       | SYNC_ROTATION_FULL =>
           set_instance_rotation (mkVec3d (vx rotation) (vy rotation) (vz rotation)) v
       | SYNC_ROTATION_GENERAL =>
           set_instance_rotation
             (mkVec3d (vx rotation) (vy rotation)
                (vz rotation
                 + rotation_diff_z (get_instance_rotation_c (volume_data c i))
                                   (get_instance_rotation_c (volume_data c j)))) v
       end).

(** The volume at index [i] is a volume of an object of the model, and the
    volume at index [j] is a volume of another instance of that object. *)
Definition other_instance_of (s : Selection) (j i : nat) : bool :=
  (object_idx (volume s i) <? 1000)%Z
  && (object_idx (volume s j) =? object_idx (volume s i))%Z
  && negb (instance_idx (volume s j) =? instance_idx (volume s i))%Z.

(** The first selected volume, in the order of the indices, of which the
    volume at index [j] is another instance. *)
Definition instance_leader (s : Selection) (j : nat) : option nat :=
  find (other_instance_of s j) (indices (m_list s)).

(** ** Statements about [_ensure_on_bed] *)

(** The volumes of the instance [(o, k)] that are neither the wipe tower nor
    modifiers. *)
Definition solid_volumes_of (o k : Z) (vs : list GLVolume) : list GLVolume :=
  List.filter (λ v, negb (is_wipe_tower v) && negb (is_modifier v)
                    && (object_idx v =? o)%Z && (instance_idx v =? k)%Z) vs.

(** The lowest point of the instance [(o, k)]: the minimum, taken with
    [std::min] from [DBL_MAX] in the order of the volume list, of the lowest
    points of the bounding boxes of its solid volumes; [None] when it has
    none. *)
Definition instance_min_z `{Geometry} (o k : Z) (vs : list GLVolume) : option float :=
  match solid_volumes_of o k vs with
  | [] => None
  | l => Some (foldl (λ a v, std_min a (vz (bb_min (transformed_convex_hull_bounding_box v))))
                     DBL_MAX l)
  end.

(** ** Statements about rotations in [Instance] mode *)

(** The volume at index [j] is selected or is another instance of the object
    of a selected volume: the volumes a transform in [Instance] mode and the
    synchronisation that follows it write. *)
Definition reached_in_instance_mode (s : Selection) (j : nat) : Prop :=
  j ∈ m_list s ∨ is_Some (instance_leader s j).

(** The selected volumes are volumes of objects of the model. *)
Definition objects_in_model (s : Selection) : Prop :=
  ∀ i, i ∈ m_list s →
       (0 ≤ object_idx (volume s i) < Z.of_nat (length (objects (model s))))%Z.

(** A test for [objects_in_model]. *)
Definition objects_in_model_test (s : Selection) : bool :=
  forallb (λ i, (0 <=? object_idx (volume s i))%Z
                && (object_idx (volume s i) <? Z.of_nat (length (objects (model s))))%Z)
          (indices (m_list s)).

(** * Proofs *)

(** ** The state accessors *)

Lemma volumes_update_volumes f s :
  f [] = [] → volumes (update_volumes f s) = f (volumes s).
Proof.
  intros Hf. unfold volumes, update_volumes, with_m_volumes. simpl.
  destruct (m_volumes s); simpl; congruence.
Qed.

Create Rewrite HintDb sel.

(** The volume list behind a state does not depend on the other members. *)
Lemma volumes_with_m_model m s : m_volumes (with_m_model m s) = m_volumes s.
Proof. done. Qed.

Lemma volumes_frame s s' : m_volumes s' = m_volumes s → volumes s' = volumes s.
Proof. unfold volumes. by intros ->. Qed.

Lemma volumes_with_m_mode m s : volumes (with_m_mode m s) = volumes s.
Proof. done. Qed.
Lemma volumes_with_m_type t s : volumes (with_m_type t s) = volumes s.
Proof. done. Qed.
Lemma volumes_with_m_list l s : volumes (with_m_list l s) = volumes s.
Proof. done. Qed.
Lemma volumes_with_m_cache c s : volumes (with_m_cache c s) = volumes s.
Proof. done. Qed.
Lemma volumes_with_content c s : volumes (with_content c s) = volumes s.
Proof. done. Qed.
Lemma volumes_with_m_bounding_box b s : volumes (with_m_bounding_box b s) = volumes s.
Proof. done. Qed.
Lemma volumes_with_m_bounding_box_dirty b s :
  volumes (with_m_bounding_box_dirty b s) = volumes s.
Proof. done. Qed.
Lemma volumes_call c s : volumes (call c s) = volumes s.
Proof. done. Qed.

Lemma volume_frame s s' i : volumes s' = volumes s → volume s' i = volume s i.
Proof. unfold volume. by intros ->. Qed.

#[export] Hint Rewrite volumes_with_m_mode volumes_with_m_type volumes_with_m_list
  volumes_with_m_cache volumes_with_content volumes_with_m_bounding_box
  volumes_with_m_bounding_box_dirty volumes_call : sel.

Lemma volumes_update_volume i g s :
  volumes (update_volume i g s) = alter g i (volumes s).
Proof. unfold update_volume. by apply volumes_update_volumes. Qed.

Lemma volume_update_volume_eq i g s :
  i < length (volumes s) → volume (update_volume i g s) i = g (volume s i).
Proof.
  intros Hi. unfold volume. rewrite volumes_update_volume.
  rewrite list_lookup_total_alter_eq; done.
Qed.

Lemma volume_update_volume_ne i j g s :
  i ≠ j → volume (update_volume i g s) j = volume s j.
Proof.
  intros Hij. unfold volume. rewrite volumes_update_volume.
  by rewrite list_lookup_total_alter_ne.
Qed.

Lemma length_volumes_update_volume i g s :
  length (volumes (update_volume i g s)) = length (volumes s).
Proof. by rewrite volumes_update_volume, length_alter. Qed.

#[export] Hint Rewrite volumes_update_volume length_volumes_update_volume : sel.

Arguments volumes : simpl never.
Arguments volume : simpl never.
Arguments model : simpl never.

(** Projections of updated states. *)
Ltac simpl_sel := simpl; autorewrite with sel; simpl.

Lemma volume_lookup s i v : volumes s !! i = Some v → volume s i = v.
Proof. intros H. unfold volume. by apply list_lookup_total_correct. Qed.

Lemma lookup_volume s i : i < length (volumes s) → volumes s !! i = Some (volume s i).
Proof. intros H. unfold volume. by apply list_lookup_lookup_total_lt. Qed.

(** ** The order of iteration *)

Lemma elem_of_indices l i : i ∈ indices l ↔ i ∈ l.
Proof. unfold indices. rewrite merge_sort_Permutation. apply elem_of_elements. Qed.

Lemma NoDup_indices l : NoDup (indices l).
Proof. unfold indices. rewrite merge_sort_Permutation. apply NoDup_elements. Qed.


Lemma indices_singleton i : indices {[i]} = [i].
Proof. unfold indices. by rewrite elements_singleton. Qed.

Lemma length_indices l : length (indices l) = size l.
Proof. unfold indices. by rewrite merge_sort_Permutation. Qed.

(** ** Loops *)

Lemma foldl_invariant {A B} (P : B → Prop) (f : B → A → B) l b :
  P b → (∀ b x, x ∈ l → P b → P (f b x)) → P (foldl f b l).
Proof.
  revert b. induction l as [|x l IH]; intros b Hb Hstep; simpl; [done|].
  apply IH.
  - apply Hstep; [left | done].
  - intros b' y Hy. apply Hstep. by right.
Qed.

Lemma foldl_prefix_invariant {A B} (Q : list A → B → Prop) (f : B → A → B) l b :
  Q [] b →
  (∀ pre x b, (∃ post, l = pre ++ x :: post) → Q pre b → Q (pre ++ [x]) (f b x)) →
  Q l (foldl f b l).
Proof.
  intros H0 Hstep.
  cut (∀ post pre b, l = pre ++ post → Q pre b → Q (pre ++ post) (foldl f b post)).
  { intros H. by apply (H l [] b). }
  induction post as [|x post IH]; intros pre b' Hl HQ; simpl.
  - by rewrite app_nil_r.
  - replace (pre ++ x :: post) with ((pre ++ [x]) ++ post) by by rewrite <-app_assoc.
    apply IH.
    + by rewrite <-app_assoc.
    + apply Hstep; [by exists post|done].
Qed.

(** In a list without repetition the element of a round is not among the
    elements of the rounds before. *)
Lemma NoDup_prefix_fresh {A} (l pre post : list A) x :
  NoDup l → l = pre ++ x :: post → x ∉ pre.
Proof.
  intros Hl ->. apply NoDup_app in Hl as (_ & Hfresh & _).
  intros Hx. apply (Hfresh x Hx). by left.
Qed.

Lemma for_each_volume_invariant (P : Selection → Prop) body s :
  P s →
  (∀ i st, i < length (volumes s) → P st → P (body i (volume st i) st)) →
  P (for_each_volume body s).
Proof.
  intros Hs Hstep. unfold for_each_volume.
  apply foldl_invariant; [done|].
  intros st i Hi. apply Hstep. apply elem_of_seq in Hi. lia.
Qed.

Lemma for_each_selected_invariant (P : Selection → Prop) body s :
  P s →
  (∀ i st, i ∈ m_list s → P st → P (body i st)) →
  P (for_each_selected body s).
Proof.
  intros Hs Hstep. unfold for_each_selected.
  apply foldl_invariant; [done|].
  intros st i Hi. apply Hstep. by apply elem_of_indices.
Qed.

(** ** The scene is never changed *)

Lemma same_scene_refl s : same_scene s s.
Proof. by repeat split. Qed.

Lemma same_scene_trans s1 s2 s3 : same_scene s1 s2 → same_scene s2 s3 → same_scene s1 s3.
Proof. intros (?&?&?) (?&?&?). repeat split; congruence. Qed.

Lemma same_scene_length s s' : same_scene s s' → length (volumes s') = length (volumes s).
Proof.
  intros (_&_&H). apply (f_equal length) in H. by rewrite !length_fmap in H.
Qed.

Lemma same_scene_identity s s' i :
  same_scene s s' → identity_of (volume s' i) = identity_of (volume s i).
Proof.
  intros (_&_&H). unfold volume.
  apply (f_equal (λ l, l !! i)) in H. rewrite !list_lookup_fmap in H.
  rewrite !list_lookup_total_alt.
  destruct (volumes s' !! i), (volumes s !! i); simpl in *; congruence.
Qed.

Lemma identity_of_inv v w :
  identity_of v = identity_of w →
  object_idx v = object_idx w ∧ volume_idx v = volume_idx w
  ∧ instance_idx v = instance_idx w ∧ is_modifier v = is_modifier w
  ∧ is_wipe_tower v = is_wipe_tower w.
Proof. unfold identity_of. intros [= -> -> -> -> ->]. done. Qed.

Lemma same_scene_model s s' : same_scene s s' → model s' = model s.
Proof. intros (_&H&_). unfold model. by rewrite H. Qed.

Lemma identity_of_fmap_alter g i (l : list GLVolume) :
  (∀ v, identity_of (g v) = identity_of v) →
  identity_of <$> alter g i l = identity_of <$> l.
Proof.
  intros Hg. apply list_eq. intros j. rewrite !list_lookup_fmap.
  destruct (decide (i = j)) as [->|Hij].
  - rewrite list_lookup_alter_eq. destruct (l !! j); simpl; [by rewrite Hg|done].
  - by rewrite list_lookup_alter_ne.
Qed.

(** The lemmas below all have the shape "if [x] is over the scene of [s],
    so is [x] after the step"; they are chained by [auto with scene]. *)
Create HintDb scene discriminated.

#[export] Hint Extern 1 (KeepsIdentity _) => (by intros ?) : scene.

Lemma scene_update_volume s x i g :
  KeepsIdentity g → same_scene s x → same_scene s (update_volume i g x).
Proof.
  intros Hg (?&?&Hx). repeat split; [done..|].
  rewrite volumes_update_volume, <-Hx. by apply identity_of_fmap_alter.
Qed.

Lemma scene_update_volumes_fmap s x g :
  KeepsIdentity g → same_scene s x → same_scene s (update_volumes (fmap g) x).
Proof.
  intros Hg (?&?&Hx). repeat split; [done..|].
  rewrite volumes_update_volumes, <-Hx by done.
  rewrite <-list_fmap_compose. apply list_fmap_ext. intros _ v _. apply Hg.
Qed.

Lemma scene_with_m_list s x l : same_scene s x → same_scene s (with_m_list l x).
Proof. by intros (?&?&?). Qed.
Lemma scene_with_m_mode s x m : same_scene s x → same_scene s (with_m_mode m x).
Proof. by intros (?&?&?). Qed.
Lemma scene_with_m_type s x t : same_scene s x → same_scene s (with_m_type t x).
Proof. by intros (?&?&?). Qed.
Lemma scene_with_m_cache s x c : same_scene s x → same_scene s (with_m_cache c x).
Proof. by intros (?&?&?). Qed.
Lemma scene_with_content s x c : same_scene s x → same_scene s (with_content c x).
Proof. by intros (?&?&?). Qed.
Lemma scene_with_m_bounding_box s x b : same_scene s x → same_scene s (with_m_bounding_box b x).
Proof. by intros (?&?&?). Qed.
Lemma scene_with_m_bounding_box_dirty s x b :
  same_scene s x → same_scene s (with_m_bounding_box_dirty b x).
Proof. by intros (?&?&?). Qed.
Lemma scene_call s x c : same_scene s x → same_scene s (call c x).
Proof. by intros (?&?&?). Qed.

Lemma scene_if s (b : bool) x y :
  same_scene s x → same_scene s y → same_scene s (if b then x else y).
Proof. by destruct b. Qed.
Lemma scene_match_mode s (m : EMode) x y :
  same_scene s x → same_scene s y →
  same_scene s (match m with Volume => x | Instance => y end).
Proof. by destruct m. Qed.

#[export] Hint Resolve same_scene_refl scene_if scene_match_mode scene_update_volume scene_update_volumes_fmap
  scene_with_m_list scene_with_m_mode scene_with_m_type scene_with_m_cache
  scene_with_content scene_with_m_bounding_box scene_with_m_bounding_box_dirty
  scene_call : scene.

Lemma scene_for_each_volume s x body :
  same_scene s x →
  (∀ i v st, same_scene s st → same_scene s (body i v st)) →
  same_scene s (for_each_volume body x).
Proof.
  intros Hx Hbody. apply (for_each_volume_invariant (same_scene s)); [done|].
  intros i st _ H. by apply Hbody.
Qed.

Lemma scene_for_each_selected s x body :
  same_scene s x →
  (∀ i st, same_scene s st → same_scene s (body i st)) →
  same_scene s (for_each_selected body x).
Proof.
  intros Hx Hbody. apply (for_each_selected_invariant (same_scene s)); [done|].
  intros i st _ H. by apply Hbody.
Qed.

(** Splits the tests of a loop body and chains the steps. *)
Ltac scene :=
  intros;
  repeat match goal with
         | |- same_scene _ (if ?b then _ else _) => destruct b
         | |- same_scene _ (match ?m with Volume => _ | Instance => _ end) => destruct m
         end;
  auto 20 with scene.

Lemma scene__update_type s x : same_scene s x → same_scene s (_update_type x).
Proof.
  intros Hx. unfold _update_type.
  destruct (classify _) as [[ty force] dis]. scene.
Qed.
#[export] Hint Resolve scene__update_type : scene.

Lemma scene__add_volume s x i : same_scene s x → same_scene s (_add_volume i x).
Proof. unfold _add_volume. scene. Qed.

Lemma scene__remove_volume s x i : same_scene s x → same_scene s (_remove_volume i x).
Proof. unfold _remove_volume. scene. Qed.
#[export] Hint Resolve scene__add_volume scene__remove_volume : scene.

Lemma scene__add_instance s x o k : same_scene s x → same_scene s (_add_instance o k x).
Proof. intros. apply scene_for_each_volume; [done|]. scene. Qed.

Lemma scene__add_object s x o : same_scene s x → same_scene s (_add_object o x).
Proof. intros. apply scene_for_each_volume; [done|]. scene. Qed.

Lemma scene__remove_instance s x o k : same_scene s x → same_scene s (_remove_instance o k x).
Proof. intros. apply scene_for_each_volume; [done|]. scene. Qed.

Lemma scene__remove_object s x o : same_scene s x → same_scene s (_remove_object o x).
Proof. intros. apply scene_for_each_volume; [done|]. scene. Qed.
#[export] Hint Resolve scene__add_instance scene__add_object scene__remove_instance
  scene__remove_object : scene.

Lemma scene_clear s x : same_scene s x → same_scene s (clear x).
Proof.
  intros. unfold clear. destruct (negb _); [done|].
  apply scene_call, scene_with_m_bounding_box_dirty, scene__update_type, scene_with_m_list.
  apply scene_for_each_selected; [done|]. scene.
Qed.
#[export] Hint Resolve scene_clear : scene.

(** ** Flags and index set *)

(** [flags_match_on] looks at the index set and at the flags only. *)
Lemma flags_match_on_view n s s' :
  m_list s' = m_list s →
  selected <$> volumes s' = selected <$> volumes s →
  flags_match_on n s → flags_match_on n s'.
Proof.
  intros Hl Hv [Hs Hn]. split.
  - intros i. destruct (Hs i) as [H1 H2]. rewrite Hl. split.
    + intros Hi. destruct (H1 Hi) as (v & Hv1 & Hv2).
      apply (f_equal (λ l, l !! i)) in Hv. rewrite !list_lookup_fmap, Hv1 in Hv.
      destruct (volumes s' !! i) as [v'|]; simpl in Hv; [|done].
      exists v'. split; [done|]. congruence.
    + intros v' Hv' Hi.
      apply (f_equal (λ l, l !! i)) in Hv. rewrite !list_lookup_fmap, Hv' in Hv.
      destruct (volumes s !! i) as [v|] eqn:E; simpl in Hv; [|done].
      specialize (H2 v eq_refl Hi). congruence.
  - apply (f_equal length) in Hv. rewrite !length_fmap in Hv. congruence.
Qed.

Lemma selected_fmap_set_disabled (f : GLVolume → bool) (l : list GLVolume) :
  selected <$> ((λ v, set_disabled (f v) v) <$> l) = selected <$> l.
Proof. rewrite <-list_fmap_compose. by apply list_fmap_ext. Qed.

Lemma m_list__update_type s : m_list (_update_type s) = m_list s.
Proof.
  unfold _update_type. destruct (classify _) as [[ty force] dis].
  by destruct force.
Qed.

Lemma m_valid__update_type s : m_valid (_update_type s) = m_valid s.
Proof.
  unfold _update_type. destruct (classify _) as [[ty force] dis].
  by destruct force.
Qed.

Lemma selected__update_type s :
  selected <$> volumes (_update_type s) = selected <$> volumes s.
Proof.
  unfold _update_type. destruct (classify _) as [[ty force] dis].
  rewrite volumes_update_volumes by done.
  rewrite selected_fmap_set_disabled. by destruct force.
Qed.

Lemma flags_match_on__update_type n s :
  flags_match_on n s → flags_match_on n (_update_type s).
Proof.
  apply flags_match_on_view; [apply m_list__update_type|apply selected__update_type].
Qed.

Lemma flags_match_on__add_volume n i s :
  i < n → flags_match_on n s → flags_match_on n (_add_volume i s).
Proof.
  intros Hi [Hs Hn]. unfold _add_volume.
  split; [|by simpl_sel].
  intros j. destruct (Hs j) as [H1 H2]. simpl_sel. split.
  - intros Hj. destruct (decide (i = j)) as [<-|Hij].
    + rewrite list_lookup_alter_eq.
      destruct (lookup_lt_is_Some_2 (volumes s) i) as [v Hv]; [lia|].
      rewrite Hv. by eexists.
    + rewrite list_lookup_alter_ne by done. apply H1. set_solver.
  - intros v Hv Hj. rewrite list_lookup_alter_ne in Hv by set_solver.
    apply H2; [done|set_solver].
Qed.

Lemma flags_match_on__remove_volume n i s :
  flags_match_on n s → flags_match_on n (_remove_volume i s).
Proof.
  intros [Hs Hn]. unfold _remove_volume. case_bool_decide as Hi; [|done].
  split; [|by simpl_sel].
  intros j. destruct (Hs j) as [H1 H2]. simpl_sel. split.
  - intros Hj. rewrite list_lookup_alter_ne by set_solver. apply H1. set_solver.
  - intros v Hv Hj. destruct (decide (i = j)) as [<-|Hij].
    + rewrite list_lookup_alter_eq in Hv.
      destruct (volumes s !! i); simpl in Hv; [|done]. by simplify_eq.
    + rewrite list_lookup_alter_ne in Hv by done. apply H2; [done|set_solver].
Qed.

Lemma flags_match_on_for_each_volume n body s :
  flags_match_on n s →
  (∀ i v st, i < n → flags_match_on n st → flags_match_on n (body i v st)) →
  flags_match_on n (for_each_volume body s).
Proof.
  intros Hs Hbody. apply (for_each_volume_invariant (flags_match_on n)); [done|].
  intros i st Hi. apply Hbody. destruct Hs as [_ <-]. done.
Qed.

(** After the first loop of [clear] no flag is set. *)
Lemma clear_flags s :
  flags_match s →
  selected <$> volumes (for_each_selected (λ i st, update_volume i (set_selected false) st) s)
  = (λ _, false) <$> volumes s.
Proof.
  intros Hs.
  set (P st := m_list st = m_list s ∧ length (volumes st) = length (volumes s)
               ∧ ∀ i v, volumes st !! i = Some v → i ∉ m_list s → selected v = false).
  set (Q (pre : list nat) st := P st ∧ ∀ i v, i ∈ pre → volumes st !! i = Some v → selected v = false).
  assert (Q (indices (m_list s))
            (for_each_selected (λ i st, update_volume i (set_selected false) st) s))
    as [(_ & Hlen & Hout) Hin].
  { unfold for_each_selected. apply (foldl_prefix_invariant Q).
    - split; [split; [done|split; [done|]]|].
      + intros i v Hv Hi. by apply (Hs i).
      + intros i v Hi. by apply elem_of_nil in Hi.
    - intros pre x st _ [(Hl & Hlen & Hout) Hin].
      split; [split; [done|split; [by rewrite length_volumes_update_volume|]]|].
      + intros i v. rewrite volumes_update_volume.
        destruct (decide (x = i)) as [<-|Hxi].
        * rewrite list_lookup_alter_eq. destruct (volumes st !! x); simpl; [|done].
          intros; by simplify_eq.
        * rewrite list_lookup_alter_ne by done. apply Hout.
      + intros i v Hi. rewrite volumes_update_volume.
        destruct (decide (x = i)) as [<-|Hxi].
        * rewrite list_lookup_alter_eq. destruct (volumes st !! x); simpl; [|done].
          intros; by simplify_eq.
        * rewrite list_lookup_alter_ne by done. apply Hin.
          apply elem_of_app in Hi as [Hi|Hi]; [done|].
          apply list_elem_of_singleton in Hi. congruence. }
  apply list_eq. intros i. rewrite !list_lookup_fmap.
  destruct (volumes (for_each_selected _ s) !! i) as [v|] eqn:E.
  - destruct (lookup_lt_is_Some_2 (volumes s) i) as [v0 Hv0].
    { rewrite <-Hlen. by eapply lookup_lt_Some. }
    rewrite Hv0. simpl. f_equal.
    destruct (decide (i ∈ m_list s)) as [Hi|Hi].
    + apply (Hin i v); [by apply elem_of_indices|done].
    + by apply (Hout i v).
  - apply lookup_ge_None in E. rewrite Hlen in E. apply lookup_ge_None in E.
    by rewrite E.
Qed.

Lemma flags_match_on_clear n s : flags_match_on n s → flags_match_on n (clear s).
Proof.
  intros [Hs Hn]. unfold clear. destruct (negb _); [done|].
  apply (flags_match_on_view n
           (_update_type (with_m_list ∅ (for_each_selected
              (λ i st, update_volume i (set_selected false) st) s)))); [done..|].
  apply flags_match_on__update_type.
  pose proof (clear_flags s Hs) as Hf.
  split.
  - intros i. split; [set_solver|]. intros v Hv _.
    change (volumes (with_m_list ∅ ?x)) with (volumes x) in Hv.
    apply (f_equal (λ l, l !! i)) in Hf. rewrite !list_lookup_fmap, Hv in Hf.
    destruct (volumes s !! i); simpl in Hf; congruence.
  - change (volumes (with_m_list ∅ ?x)) with (volumes x).
    apply (f_equal length) in Hf. rewrite !length_fmap in Hf. congruence.
Qed.

(** ** C1: every mutation keeps the flags and the index set in step *)

Lemma flags_match_on_intro s : flags_match s → flags_match_on (length (volumes s)) s.
Proof. by split. Qed.

Lemma flags_match_on_if n (b : bool) x y :
  flags_match_on n x → flags_match_on n y → flags_match_on n (if b then x else y).
Proof. by destruct b. Qed.

Lemma flags_match_on__add_instance n o k s :
  flags_match_on n s → flags_match_on n (_add_instance o k s).
Proof.
  intros. apply flags_match_on_for_each_volume; [done|].
  intros i v st Hi Hst. destruct (_ && _); [by apply flags_match_on__add_volume|done].
Qed.

Lemma flags_match_on__add_object n o s :
  flags_match_on n s → flags_match_on n (_add_object o s).
Proof.
  intros. apply flags_match_on_for_each_volume; [done|].
  intros i v st Hi Hst. destruct (_ =? _)%Z; [by apply flags_match_on__add_volume|done].
Qed.

Lemma flags_match_on__remove_instance n o k s :
  flags_match_on n s → flags_match_on n (_remove_instance o k s).
Proof.
  intros. apply flags_match_on_for_each_volume; [done|].
  intros i v st Hi Hst. destruct (_ && _); [by apply flags_match_on__remove_volume|done].
Qed.

(** The last two steps of every mutator. *)
Lemma flags_match_on_finish n s :
  flags_match_on n s → flags_match_on n (with_m_bounding_box_dirty true (_update_type s)).
Proof. intros H. by apply flags_match_on__update_type in H. Qed.

Lemma flags_match_on_with_m_mode n m s :
  flags_match_on n s → flags_match_on n (with_m_mode m s).
Proof. done. Qed.

Lemma flags_match_add i e s : flags_match s → flags_match (add i e s).
Proof.
  intros Hs. apply flags_match_on_intro in Hs.
  eapply proj1 with (B := True). unfold add.
  destruct (negb _ || bool_decide _) eqn:Hguard; [by destruct Hs|].
  apply orb_false_elim in Hguard as [_ Hi]. apply bool_decide_eq_false in Hi.
  destruct (_ && _); [by destruct Hs|].
  split; [|done].
  refine (proj1 (flags_match_on_finish (length (volumes s)) _ _)).
  set (s1 := if add_needs_reset _ _ _ then clear s else s).
  assert (flags_match_on (length (volumes s)) s1) as H1.
  { subst s1. apply flags_match_on_if; [by apply flags_match_on_clear|done]. }
  clearbody s1.
  assert (flags_match_on (length (volumes s)) (add_resolve_mode i s1)) as H2.
  { unfold add_resolve_mode. repeat apply flags_match_on_if; exact H1. }
  destruct (m_mode _).
  - apply flags_match_on_if; [|done]. apply flags_match_on__add_volume; [lia|done].
  - by apply flags_match_on__add_instance.
Qed.

Lemma flags_match_remove i s : flags_match s → flags_match (remove i s).
Proof.
  intros Hs. apply flags_match_on_intro in Hs. unfold remove.
  destruct (negb _ || bool_decide _); [by destruct Hs|].
  refine (proj1 (flags_match_on_finish (length (volumes s)) _ _)).
  destruct (m_mode s).
  - by apply flags_match_on__remove_volume.
  - by apply flags_match_on__remove_instance.
Qed.

Lemma flags_match_add_object o e s : flags_match s → flags_match (add_object o e s).
Proof.
  intros Hs. apply flags_match_on_intro in Hs. unfold add_object.
  destruct (negb _); [by destruct Hs|].
  refine (proj1 (flags_match_on_finish (length (volumes s)) _ _)).
  apply flags_match_on__add_object, flags_match_on_with_m_mode.
  apply flags_match_on_if; [by apply flags_match_on_clear|done].
Qed.

Lemma flags_match_add_instance o k e s : flags_match s → flags_match (add_instance o k e s).
Proof.
  intros Hs. apply flags_match_on_intro in Hs. unfold add_instance.
  destruct (negb _); [by destruct Hs|].
  refine (proj1 (flags_match_on_finish (length (volumes s)) _ _)).
  apply flags_match_on__add_instance, flags_match_on_with_m_mode.
  apply flags_match_on_if; [by apply flags_match_on_clear|done].
Qed.

Lemma flags_match_add_volume o v k e s : flags_match s → flags_match (add_volume o v k e s).
Proof.
  intros Hs. apply flags_match_on_intro in Hs. unfold add_volume.
  destruct (negb _); [by destruct Hs|].
  refine (proj1 (flags_match_on_finish (length (volumes s)) _ _)).
  apply flags_match_on_for_each_volume.
  - apply flags_match_on_with_m_mode.
    apply flags_match_on_if; [by apply flags_match_on_clear|done].
  - intros i w st Hi Hst.
    repeat apply flags_match_on_if; try done. by apply flags_match_on__add_volume.
Qed.

Lemma flags_match_clear s : flags_match s → flags_match (clear s).
Proof.
  intros Hs. apply flags_match_on_intro in Hs.
  by apply (flags_match_on_clear _ s) in Hs as [? _].
Qed.

Lemma flags_match_add_all s : flags_match s → flags_match (add_all s).
Proof.
  intros Hs. apply flags_match_on_intro in Hs. unfold add_all.
  destruct (negb _); [by destruct Hs|].
  refine (proj1 (flags_match_on_finish (length (volumes s)) _ _)).
  apply flags_match_on_for_each_volume.
  - apply flags_match_on_clear. by apply flags_match_on_with_m_mode.
  - intros i w st Hi Hst.
    apply flags_match_on_if; [|done]. by apply flags_match_on__add_volume.
Qed.

(** The first loop of [volumes_changed]: the new index set holds the new
    places of the selected volumes that survive. *)
Lemma volumes_changed_list_new (map_volume_old_to_new : list Z) (s : Selection) :
  ∀ k,
    k ∈ fst (foldl (λ '(list_new, model_instances) idx,
               let m : Z := map_volume_old_to_new !!! idx in
               if negb (m =? size_t_max)%Z then
                 let new_idx := Z.to_nat (u32 m) in
                 let list_new : gset nat := list_new ∪ {[new_idx]} in
                 if bool_decide (m_mode s = Instance) then
                   let v := volume s new_idx in
                   (list_new,
                    model_instances ++ [(u32 (object_idx v), u32 (instance_idx v))])
                 else (list_new, model_instances)
               else (list_new, model_instances))
            (∅, []) (indices (m_list s)))
    ↔ ∃ idx, idx ∈ m_list s ∧ new_index map_volume_old_to_new idx = Some k.
Proof.
  set (f := λ '(list_new, model_instances) idx, _).
  set (Q (pre : list nat) (acc : gset nat * list (Z * Z)) :=
         ∀ k, k ∈ acc.1 ↔ ∃ idx, idx ∈ pre ∧ new_index map_volume_old_to_new idx = Some k).
  assert (Q (indices (m_list s)) (foldl f (∅, []) (indices (m_list s)))) as HQ.
  { apply (foldl_prefix_invariant Q).
    - intros k. simpl. split; [set_solver|]. intros (idx & Hidx & _).
      by apply elem_of_nil in Hidx.
    - intros pre x [ln mi] _ Hpre k. unfold f. simpl.
      assert (∀ A (a b : gset nat * A), a.1 = b.1 → (k ∈ a.1 ↔ k ∈ b.1)) as Hfst
        by (by intros ??? ->).
      unfold new_index in *.
      destruct (map_volume_old_to_new !!! x =? size_t_max)%Z eqn:E; simpl.
      + rewrite (Hpre k). split; intros (idx & Hidx & Hk).
        * exists idx. split; [apply elem_of_app; by left|done].
        * apply elem_of_app in Hidx as [Hidx|Hidx]; [by exists idx|].
          apply list_elem_of_singleton in Hidx as ->. rewrite E in Hk. done.
      + rewrite (Hfst _ _ (ln ∪ {[Z.to_nat (u32 (map_volume_old_to_new !!! x))]}, mi))
          by by case_bool_decide.
        simpl. rewrite elem_of_union, (Hpre k), elem_of_singleton.
        split.
        * intros [(idx & Hidx & Hk)| ->].
          -- exists idx. split; [apply elem_of_app; by left|done].
          -- exists x. split; [apply elem_of_app; right; by apply list_elem_of_singleton|].
             by rewrite E.
        * intros (idx & Hidx & Hk).
          apply elem_of_app in Hidx as [Hidx|Hidx]; [left; by exists idx|].
          apply list_elem_of_singleton in Hidx as ->. rewrite E in Hk.
          right. by simplify_eq. }
  intros k. rewrite (HQ k). by setoid_rewrite elem_of_indices.
Qed.

Lemma flags_match_volumes_changed map_volume_old_to_new s :
  flags_carried_over map_volume_old_to_new s →
  flags_match (volumes_changed map_volume_old_to_new s).
Proof.
  intros [Hrange Hflags]. unfold volumes_changed.
  pose proof (volumes_changed_list_new map_volume_old_to_new s) as Hnew.
  destruct (foldl _ _ _) as [list_new model_instances]. simpl in Hnew.
  refine (proj1 (flags_match_on_finish (length (volumes s)) _ _)).
  assert (flags_match_on (length (volumes s)) (with_m_list list_new s)) as H1.
  { split; [|done]. intros k. simpl_sel. rewrite Hnew. split.
    - intros (idx & Hidx & Hk).
      destruct (lookup_lt_is_Some_2 (volumes s) k) as [v Hv]; [by eapply Hrange|].
      exists v. split; [done|]. apply (Hflags k v Hv). eauto.
    - intros v Hv Hk. destruct (selected v) eqn:E; [|done].
      destruct Hk. apply Hnew. by apply (Hflags k v Hv). }
  apply flags_match_on_if; [|done].
  apply flags_match_on_for_each_volume; [done|].
  intros i _ st Hi Hst. apply (foldl_invariant (flags_match_on _)); [done|].
  intros st' [first second] _ Hst'.
  apply flags_match_on_if; [|done]. by apply flags_match_on__add_volume.
Qed.

(** A fresh selection bound to a list of volumes none of which is flagged. *)
Lemma flags_match_bind vs m :
  Forall (λ v, selected v = false) vs → flags_match (bind vs m).
Proof.
  intros Hvs i. split; [set_solver|].
  intros v Hv _. rewrite Forall_lookup in Hvs. by apply (Hvs i).
Qed.

Lemma flags_match_second_part_selected : flags_match second_part_selected.
Proof.
  apply flags_match_add_volume, flags_match_bind.
  repeat constructor.
Qed.

Lemma rebuilt_check old new map_volume_old_to_new :
  rebuilt_test old new map_volume_old_to_new = true → rebuilt old new map_volume_old_to_new.
Proof.
  unfold rebuilt_test. rewrite !andb_true_iff, !forallb_forall.
  intros [[Hlen%bool_decide_eq_true Hkept] Hnew]. split; [done|]. split.
  - intros i k Hi Hk.
    assert (In i (seq 0 (length old))) as Hin by (apply in_seq; lia).
    specialize (Hkept i Hin). rewrite Hk in Hkept.
    apply andb_true_iff in Hkept as [Hlt%Nat.ltb_lt Hsel%bool_decide_eq_true]. done.
  - intros k v Hv Hsel.
    assert (In k (seq 0 (length new))) as Hin.
    { apply in_seq. apply lookup_lt_Some in Hv. lia. }
    specialize (Hnew k Hin). rewrite (list_lookup_total_correct _ _ _ Hv), Hsel in Hnew.
    simpl in Hnew. apply existsb_exists in Hnew as (i & Hi%in_seq & Hk%bool_decide_eq_true).
    exists i. split; [lia|done].
Qed.

Lemma volumes_rebuild vs s : is_Some (m_volumes s) → volumes (rebuild vs s) = vs.
Proof. intros [l Hl]. unfold volumes, rebuild, update_volumes. simpl. by rewrite Hl. Qed.

(** The flags of a list rebuilt as the index map tells, for a selection whose
    flags matched the index set before. *)
Lemma flags_carried_over_rebuild map_volume_old_to_new vs s :
  flags_match s → is_Some (m_volumes s) →
  rebuilt (volumes s) vs map_volume_old_to_new →
  flags_carried_over map_volume_old_to_new (rebuild vs s).
Proof.
  intros Hs Hset (Hlen & Hkept & Hnew).
  rewrite <-(volumes_rebuild vs s Hset) in Hkept, Hnew.
  assert (m_list (rebuild vs s) = m_list s) as Hl by done.
  set (s' := rebuild vs s) in *. clearbody s'. unfold flags_match in Hs.
  rewrite <-Hl in Hs.
  assert (∀ idx, idx ∈ m_list s' → idx < length (volumes s)
                                    ∧ selected (volumes s !!! idx) = true) as Hin.
  { intros idx Hidx. destruct (proj1 (Hs idx) Hidx) as (v & Hv & Hsel).
    split; [by eapply lookup_lt_Some|]. by rewrite (list_lookup_total_correct _ _ _ Hv). }
  split.
  - intros idx k Hidx Hk. destruct (Hin idx Hidx) as [Hlt _].
    by destruct (Hkept idx k Hlt Hk).
  - intros k v Hv. split.
    + intros Hsel. destruct (Hnew k v Hv Hsel) as (i & Hi & Hk).
      exists i. split; [|done].
      destruct (Hkept i k Hi Hk) as [_ Hflag].
      rewrite (list_lookup_total_correct _ _ _ Hv), Hsel in Hflag.
      destruct (decide (i ∈ m_list s')) as [|Hout]; [done|].
      destruct (lookup_lt_is_Some_2 (volumes s) i Hi) as [w Hw].
      rewrite (list_lookup_total_correct _ _ _ Hw) in Hflag.
      pose proof (proj2 (Hs i) w Hw Hout). congruence.
    + intros (idx & Hidx & Hk). destruct (Hin idx Hidx) as [Hlt Hsel].
      destruct (Hkept idx k Hlt Hk) as [_ Hflag].
      by rewrite (list_lookup_total_correct _ _ _ Hv), Hsel in Hflag.
Qed.

Lemma flags_match_object_selected_before_reload : flags_match object_selected_before_reload.
Proof.
  apply flags_match_add, flags_match_bind.
  repeat constructor.
Qed.

(** C1: every mutation that starts from flags that match the index set ends
    with flags that match the index set.  For [volumes_changed] the start is
    the selection before the canvas rebuilt the volume list, and the index
    map describes the rebuilt list: the volumes that survive are at their new
    indices with their flags, and the new volumes are not flagged. *)
Theorem C1_flags_match_after_mutation :
  (∀ s, flags_match s →
     (∀ i e, flags_match (add i e s))
     ∧ (∀ i, flags_match (remove i s))
     ∧ (∀ o e, flags_match (add_object o e s))
     ∧ (∀ o k e, flags_match (add_instance o k e s))
     ∧ (∀ o v k e, flags_match (add_volume o v k e s))
     ∧ flags_match (add_all s)
     ∧ flags_match (clear s))
  ∧ (∀ s vs map_volume_old_to_new,
       flags_match s →
       bound s →
       rebuilt (volumes s) vs map_volume_old_to_new →
       flags_match (volumes_changed map_volume_old_to_new (rebuild vs s))).
Proof.
  split.
  - intros s Hs. split_and!; intros.
    + by apply flags_match_add.
    + by apply flags_match_remove.
    + by apply flags_match_add_object.
    + by apply flags_match_add_instance.
    + by apply flags_match_add_volume.
    + by apply flags_match_add_all.
    + by apply flags_match_clear.
  - intros s vs m Hs (_ & Hset & _) Hvs.
    by apply flags_match_volumes_changed, flags_carried_over_rebuild.
Qed.

(** The first object is selected in [Instance] mode; its second part is
    replaced by a new part and the list is reordered: the first part is
    followed to its new index and the new part is selected with it. *)
Lemma C1_flags_match_after_mutation_witness :
  flags_match (add 2 false object_selected_before_reload)
  ∧ flags_match (remove 1 object_selected_before_reload)
  ∧ m_mode object_selected_before_reload = Instance
  ∧ indices (m_list object_selected_before_reload) = [0; 1]
  ∧ indices (m_list (volumes_changed map_reloaded
                       (rebuild scene_reloaded object_selected_before_reload))) = [1; 2]
  ∧ flags_match (volumes_changed map_reloaded
                   (rebuild scene_reloaded object_selected_before_reload)).
Proof.
  destruct C1_flags_match_after_mutation as [Hmut Hchanged].
  destruct (Hmut object_selected_before_reload flags_match_object_selected_before_reload)
    as (Hadd & Hremove & _).
  split; [apply Hadd|]. split; [apply Hremove|].
  split; [vm_compute; reflexivity|]. split; [vm_compute; reflexivity|].
  split; [vm_compute; reflexivity|].
  apply Hchanged.
  - apply flags_match_object_selected_before_reload.
  - vm_compute. eauto.
  - apply rebuilt_check. vm_compute. reflexivity.
Defined.

(** ** What a loop of insertions selects *)

Lemma m_list_add_loop (p : nat → GLVolume → bool) s :
  (∀ i, on_identity (p i)) →
  let s' := for_each_volume (λ i v st, if p i v then _add_volume i st else st) s in
  same_scene s s'
  ∧ m_mode s' = m_mode s
  ∧ ∀ j, j ∈ m_list s' ↔ j ∈ m_list s ∨ (j < length (volumes s) ∧ p j (volume s j) = true).
Proof.
  intros Hp. simpl. unfold for_each_volume.
  set (Q (pre : list nat) st :=
         same_scene s st ∧ m_mode st = m_mode s
         ∧ ∀ j, j ∈ m_list st ↔ j ∈ m_list s ∨ (j ∈ pre ∧ p j (volume s j) = true)).
  assert (Q (seq 0 (length (volumes s))) (foldl (λ st i,
            if p i (volume st i) then _add_volume i st else st) s
            (seq 0 (length (volumes s))))) as (H1 & H2 & H3).
  { apply (foldl_prefix_invariant Q).
    - split; [apply same_scene_refl|split; [done|]]. intros j. split; [by left|].
      intros [?|[Hj _]]; [done|]. by apply elem_of_nil in Hj.
    - intros pre x st _ (Hsc & Hm & Hl).
      rewrite (Hp x _ _ (same_scene_identity s st x Hsc)).
      destruct (p x (volume s x)) eqn:E.
      + split; [by apply scene__add_volume|split; [done|]].
        intros j. unfold _add_volume. simpl.
        rewrite elem_of_union, (Hl j), elem_of_singleton, elem_of_app, list_elem_of_singleton.
        split; [intros [[?|[??]]| ->]|intros [?|[[?| ->] ?]]]; eauto 6.
      + split; [done|split; [done|]]. intros j.
        rewrite (Hl j), elem_of_app, list_elem_of_singleton.
        split; [intros [?|[??]]|intros [?|[[?| ->] ?]]]; eauto 6. congruence. }
  split; [done|split; [done|]]. intros j. rewrite (H3 j), elem_of_seq.
  split; (intros [?|[??]]; [by left|right; split; [lia|done]]).
Qed.

(** ** The mode *)

Lemma m_mode__update_type s :
  m_mode (_update_type s) = m_mode s ∨ m_mode (_update_type s) = Instance.
Proof.
  unfold _update_type. destruct (classify _) as [[ty force] dis].
  destruct force; [by right|by left].
Qed.

Lemma m_mode__update_type_Instance s :
  m_mode s = Instance → m_mode (_update_type s) = Instance.
Proof. intros H. destruct (m_mode__update_type s) as [->|]; done. Qed.

Lemma m_list_clear s : m_valid s = true → m_list (clear s) = ∅.
Proof.
  intros Hv. unfold clear. rewrite Hv. simpl. by rewrite m_list__update_type.
Qed.

Lemma m_mode_clear_Instance s : m_mode s = Instance → m_mode (clear s) = Instance.
Proof.
  intros Hm. unfold clear. destruct (negb _); [done|]. simpl.
  apply m_mode__update_type_Instance. simpl.
  by apply (for_each_selected_invariant (λ st, m_mode st = Instance)).
Qed.

(** ** C9 and C8 *)

(** C9: [get_volume] answers for every state and every index.  It returns
    the null pointer exactly when the selection is not valid or the index is
    not below the size of the volume list, and the volume stored at the
    index otherwise.  It is a function of the state that returns a value
    only: there is no state after the call other than the state before. *)
Theorem C9_get_volume_total (s : Selection) (volume_idx_ : nat) :
  (get_volume s volume_idx_ = None
   ↔ m_valid s = false ∨ length (volumes s) ≤ volume_idx_)
  ∧ (get_volume s volume_idx_ ≠ None
     → get_volume s volume_idx_ = Some (volume s volume_idx_)
       ∧ volumes s !! volume_idx_ = Some (volume s volume_idx_)).
Proof.
  unfold get_volume. destruct (m_valid s); simpl.
  - case_bool_decide as Hi.
    + rewrite (lookup_volume s volume_idx_ Hi). split; [|done].
      split; [done|]. intros [?|?]; [done|lia].
    + split; [|done]. split; [|done]. intros _. right. lia.
  - split; [|done]. split; [|done]. intros _. by left.
Qed.

(** C8: on a bound selection, [clear] followed by [add_all] selects exactly
    the volumes of the list that are not the wipe tower, in [Instance]
    mode. *)
Theorem C8_clear_add_all (s : Selection) :
  m_valid s = true →
  let s' := add_all (clear s) in
  m_mode s' = Instance
  ∧ ∀ i, i ∈ m_list s' ↔ ∃ v, volumes s !! i = Some v ∧ is_wipe_tower v = false.
Proof.
  intros Hv. simpl.
  pose proof (scene_clear s s (same_scene_refl s)) as Hc.
  unfold add_all. rewrite (proj1 Hc), Hv. simpl.
  set (s1 := clear (with_m_mode Instance (clear s))).
  assert (same_scene s s1) as Hs1 by (subst s1; scene).
  assert (m_list s1 = ∅) as Hl1.
  { subst s1. apply m_list_clear. simpl. by rewrite (proj1 Hc). }
  assert (m_mode s1 = Instance) as Hm1 by (subst s1; by apply m_mode_clear_Instance).
  destruct (m_list_add_loop (λ _ v, negb (is_wipe_tower v)) s1) as (Hsc & Hm & Hl).
  { intros _ v w (_ & _ & _ & _ & Hw)%identity_of_inv. by rewrite Hw. }
  split.
  - apply m_mode__update_type_Instance. by rewrite Hm.
  - intros i. rewrite m_list__update_type, (Hl i), Hl1.
    rewrite (same_scene_length _ _ Hs1). split.
    + intros [?|[Hi Hw]]; [set_solver|].
      exists (volume s i). split; [by apply lookup_volume|].
      pose proof (same_scene_identity s s1 i Hs1) as (_ & _ & _ & _ & Hid)%identity_of_inv.
      apply negb_true_iff in Hw. congruence.
    + intros (v & Hv' & Hw). right. split; [by eapply lookup_lt_Some|].
      pose proof (same_scene_identity s s1 i Hs1) as Hid.
      rewrite (volume_lookup s i v Hv') in Hid.
      apply identity_of_inv in Hid as (_ & _ & _ & _ & Hid).
      apply negb_true_iff. congruence.
Qed.

Lemma C8_clear_add_all_witness :
  m_valid object_selected = true
  ∧ m_mode (add_all (clear object_selected)) = Instance
  ∧ (∀ i, i ∈ m_list (add_all (clear object_selected))
          ↔ ∃ v, volumes object_selected !! i = Some v ∧ is_wipe_tower v = false).
Proof.
  split; [reflexivity|]. exact (C8_clear_add_all object_selected eq_refl).
Defined.

(** ** C4: the guards of the operations *)

Lemma no_operation_changes_invalid `{Geometry} s :
  m_valid s = false → no_operation_changes s.
Proof.
  intros Hv. unfold no_operation_changes.
  unfold add, remove, add_object, remove_object, add_instance, remove_instance,
    add_volume, remove_volume, add_all, clear, start_dragging, translate, rotate,
    flattening_rotate, scale, mirror, translate_object, translate_instance, erase.
  rewrite Hv. simpl. split_and!; done.
Qed.

Lemma add_remove_out_of_range s i e :
  length (volumes s) ≤ i → add i e s = s ∧ remove i s = s.
Proof.
  intros Hi. unfold add, remove.
  rewrite (bool_decide_eq_true_2 _ Hi), orb_true_r. done.
Qed.

Lemma m_valid_set_volumes vs s :
  m_valid (set_volumes vs s)
  = bool_decide (is_Some vs) && bool_decide (is_Some (m_model s)).
Proof. done. Qed.

Lemma m_valid_set_model m s :
  m_valid (set_model m s)
  = bool_decide (is_Some (m_volumes s)) && bool_decide (is_Some m).
Proof. done. Qed.

(** A selection that has a volume list and no model is not valid, and
    [volumes_changed] on it sets the type and writes the [disabled] flags. *)
Example volumes_changed_without_model :
  let s := selection_without_model in
  let s' := volumes_changed [] s in
  m_valid s = false
  ∧ m_type s = Empty ∧ disabled <$> volumes s = [true]
  ∧ m_type s' = Invalid ∧ disabled <$> volumes s' = [false].
Proof. vm_compute. done. Qed.

(** C4, counterexample: [volumes_changed] has an assertion where the other
    operations have a guard; on a selection without a model it changes the
    type from [Empty] to [Invalid] and clears the [disabled] flags of the
    volume list. *)
Lemma C4_counterexample : ¬ C4_as_stated.
Proof.
  intros H. destruct (H plain_geometry selection_without_model eq_refl) as [_ Hvc].
  destruct volumes_changed_without_model as (_ & Ht & _ & Ht' & _).
  rewrite (Hvc []) in Ht'. congruence.
Qed.

(** C4: every operation that starts with the guard [if (!m_valid) return]
    (all mutators but [volumes_changed], the transform operations,
    [start_dragging] and [erase]) returns the state unchanged, without a call
    to the application, on a selection that is not valid; [set_volumes] and
    [set_model] make the selection valid only when both pointers are set;
    [add] and [remove] return the state unchanged for an index that is not
    below the size of the volume list. *)
Theorem C4_guards `{Geometry} :
  (∀ s, m_valid s = false → no_operation_changes s)
  ∧ (∀ s i e, length (volumes s) ≤ i → add i e s = s ∧ remove i s = s)
  ∧ (∀ vs s, m_valid (set_volumes vs s) = true ↔ is_Some vs ∧ is_Some (m_model s))
  ∧ (∀ m s, m_valid (set_model m s) = true ↔ is_Some (m_volumes s) ∧ is_Some m).
Proof.
  split_and!.
  - apply @no_operation_changes_invalid.
  - apply add_remove_out_of_range.
  - intros vs s. rewrite m_valid_set_volumes, andb_true_iff, !bool_decide_eq_true. done.
  - intros m s. rewrite m_valid_set_model, andb_true_iff, !bool_decide_eq_true. done.
Qed.

Lemma C4_guards_witness :
  m_valid selection_without_model = false
  ∧ mirror (H := plain_geometry) AxisX selection_without_model = selection_without_model
  ∧ erase selection_without_model = selection_without_model
  ∧ add 7 true (bind scene_three_parts model_three_parts)
    = bind scene_three_parts model_three_parts.
Proof.
  destruct (C4_guards (H := plain_geometry)) as (Hinvalid & Hrange & _).
  destruct (Hinvalid selection_without_model eq_refl)
    as (_&_&_&_&_&_&_&_&_&_&_&_&_&_&_&Hmirror&_&_&Herase).
  split; [reflexivity|]. split; [apply Hmirror|]. split; [apply Herase|].
  refine (proj1 (Hrange (bind scene_three_parts model_three_parts) 7 true _)).
  vm_compute. lia.
Defined.

(** ** C10: auxiliary volumes and [add] *)

(** The supports of the selected instance are added by a click: the add
    goes to [Instance] mode and takes the whole instance. *)
Example add_supports_in_volume_mode :
  let s := first_part_selected in
  let s' := add 2 false s in
  m_valid s = true ∧ m_mode s = Volume ∧ indices (m_list s) = [0]
  ∧ volume_idx (volume s 2) = (-1)%Z
  ∧ m_mode s' = Instance ∧ indices (m_list s') = [0; 1; 2].
Proof. vm_compute. done. Qed.

(** C10, counterexample: with the first part selected in [Volume] mode,
    [add] of the support mesh of the same instance (volume index -1) switches
    to [Instance] mode and inserts the mesh with the whole instance. *)
Lemma C10_counterexample : ¬ C10_as_stated.
Proof.
  intros H.
  destruct add_supports_in_volume_mode as (Hv & Hm & Hl & Hidx & _ & Hl').
  assert (2 < length (volumes first_part_selected)) as Hlen by (vm_compute; lia).
  assert (volume_idx (volume first_part_selected 2) < 0)%Z as Hneg by (rewrite Hidx; lia).
  pose proof (H first_part_selected 2 false Hv Hlen Hm Hneg) as E.
  rewrite E, Hl in Hl'. discriminate Hl'.
Qed.

Lemma m_list_add_resolve_mode i s : m_list (add_resolve_mode i s) = m_list s.
Proof. unfold add_resolve_mode. by repeat destruct (_ : bool). Qed.

Lemma scene_add_resolve_mode s x i : same_scene s x → same_scene s (add_resolve_mode i x).
Proof. unfold add_resolve_mode. scene. Qed.
#[export] Hint Resolve scene_add_resolve_mode : scene.

(** ** C6: deletion of a mixed selection *)

(** Both parts of object 0 are selected, with one of the three instances of
    object 1: the two part deletions collapse into the deletion of object 0. *)
Example erase_mixed_collapses :
  let s := two_instances_selected in
  m_valid s = true ∧ m_type s = Mixed ∧ indices (m_list s) = [0; 1; 2]
  ∧ app_calls (erase s)
    = app_calls s
      ++ [delete_from_model_and_list
            [mkItemForDelete itObject 0 0; mkItemForDelete itInstance 1 0]].
Proof. vm_compute. done. Qed.

(** C6, the code at the failing input: both parts of object 0 are selected
    together with the support mesh of the object, which a click on the
    instance selects as well.  The mesh is counted as a third requested
    volume, three is not the number of parts of the object, and [erase] sends
    the two part deletions and a deletion of the volume -1 instead of the
    deletion of the object. *)
Theorem C6_erase_mixed_with_supports :
  let s := two_instances_selected_with_supports in
  m_valid s = true ∧ m_type s = Mixed ∧ indices (m_list s) = [0; 1; 2; 3]
  ∧ app_calls (erase s)
    = app_calls s
      ++ [delete_from_model_and_list
            [mkItemForDelete itVolume 0 (-1); mkItemForDelete itVolume 0 0;
             mkItemForDelete itVolume 0 1; mkItemForDelete itInstance 1 0]].
Proof. vm_compute. done. Qed.

(** ** The classification *)

Lemma m_type__update_type s :
  m_type (_update_type s)
  = (classify (with_m_type Mixed (with_content (build_content s) s))).1.1.
Proof.
  unfold _update_type. destruct (classify _) as [[ty force] dis].
  by destruct force.
Qed.

Lemma classify_WipeTower s :
  (classify s).1.1 = WipeTower
  ↔ m_valid s = true ∧ size (m_list s) = 1
    ∧ is_wipe_tower (volume s (hd 0 (indices (m_list s)))) = true.
Proof.
  unfold classify. destruct (m_valid s); simpl; [|split; [done|by intros [? _]]].
  case_bool_decide as He; simpl.
  { split; [done|]. intros (_ & Hs & _). rewrite He, size_empty in Hs. done. }
  case_bool_decide as H1; simpl.
  { destruct (is_wipe_tower _); simpl; [done|].
    split; [|by intros (_ & _ & ?)].
    repeat case_match; simpl; done. }
  split; [|by intros (_ & ? & _)].
  repeat case_match; simpl; done.
Qed.

Lemma classify_Empty s :
  (classify s).1.1 = Empty ↔ m_valid s = true ∧ m_list s = ∅.
Proof.
  unfold classify. destruct (m_valid s); simpl; [|split; [done|by intros [? _]]].
  case_bool_decide as He; simpl; [done|].
  split; [|by intros [_ ?]].
  repeat case_match; simpl; done.
Qed.

Lemma m_list_finish b s : m_list (with_m_bounding_box_dirty b (_update_type s)) = m_list s.
Proof. apply m_list__update_type. Qed.

Lemma m_type__update_type_WipeTower s :
  m_type (_update_type s) = WipeTower
  ↔ m_valid s = true ∧ size (m_list s) = 1
    ∧ is_wipe_tower (volume s (hd 0 (indices (m_list s)))) = true.
Proof. rewrite m_type__update_type. exact (classify_WipeTower _). Qed.

Lemma m_type__update_type_Empty s :
  m_type (_update_type s) = Empty ↔ m_valid s = true ∧ m_list s = ∅.
Proof. rewrite m_type__update_type. exact (classify_Empty _). Qed.

Lemma m_type_clear s : m_valid s = true → m_type (clear s) = Empty.
Proof.
  intros Hv. unfold clear. rewrite Hv. simpl.
  apply m_type__update_type_Empty. split; [|done]. simpl.
  by apply (for_each_selected_invariant (λ st, m_valid st = true)).
Qed.

(** ** What [add] and [remove] select *)

Lemma shares_instance_test v w :
  (u32 (object_idx v) =? u32 (object_idx w))%Z && (u32 (instance_idx v) =? u32 (instance_idx w))%Z
  = true ↔ shares_instance v w.
Proof. unfold shares_instance. rewrite andb_true_iff, !Z.eqb_eq. done. Qed.

Lemma m_list__add_instance s o k :
  let s' := _add_instance o k s in
  same_scene s s' ∧ m_mode s' = m_mode s
  ∧ ∀ j, j ∈ m_list s'
         ↔ j ∈ m_list s
           ∨ (j < length (volumes s)
              ∧ (u32 (object_idx (volume s j)) =? o)%Z
                && (u32 (instance_idx (volume s j)) =? k)%Z = true).
Proof.
  apply (m_list_add_loop
           (λ _ v, (u32 (object_idx v) =? o)%Z && (u32 (instance_idx v) =? k)%Z)).
  intros _ v w (Ho & _ & Hk & _)%identity_of_inv. by rewrite Ho, Hk.
Qed.

(** Every index selected after [add] was selected before and the add kept
    the list, or it is the index of a volume of the instance of the volume
    that is added. *)
Lemma add_inclusion s i e :
  m_valid s = true → i < length (volumes s) →
  ∀ j, j ∈ m_list (add i e s) →
    (j ∈ m_list s
     ∧ (is_wipe_tower_sel s && is_wipe_tower (volume s i) = true
        ∨ add_needs_reset (volume s i) e s = false))
    ∨ (is_wipe_tower_sel s && is_wipe_tower (volume s i) = false
       ∧ j < length (volumes s) ∧ shares_instance (volume s j) (volume s i)).
Proof.
  intros Hv Hi j. unfold add.
  rewrite Hv, bool_decide_eq_false_2 by lia. simpl.
  destruct (is_wipe_tower_sel s && is_wipe_tower (volume s i)) eqn:Hearly; [by auto|].
  set (s1 := if add_needs_reset _ _ _ then clear s else s).
  assert (same_scene s s1) as Hs1 by (subst s1; scene).
  assert (same_scene s (add_resolve_mode i s1)) as Hs2 by scene.
  assert (∀ x, x ∈ m_list s1 → x ∈ m_list s ∧ add_needs_reset (volume s i) e s = false)
    as Hl1.
  { subst s1. destruct (add_needs_reset _ _ _); [|done].
    intros x. rewrite m_list_clear by done. set_solver. }
  clearbody s1. rewrite m_list_finish.
  assert (shares_instance (volume s i) (volume s i)) as Hrefl by done.
  destruct (m_mode _).
  - destruct ((0 <=? _)%Z && _).
    + unfold _add_volume. simpl. rewrite m_list_add_resolve_mode.
      intros [Hj| ->%elem_of_singleton]%elem_of_union; [left|right; by auto].
      destruct (Hl1 j Hj). auto.
    + rewrite m_list_add_resolve_mode. intros Hj. left. destruct (Hl1 j Hj). auto.
  - destruct (m_list__add_instance (add_resolve_mode i s1)
                (u32 (object_idx (volume (add_resolve_mode i s1) i)))
                (u32 (instance_idx (volume (add_resolve_mode i s1) i))))
      as (_ & _ & Hl).
    rewrite (Hl j), m_list_add_resolve_mode.
    rewrite (same_scene_length _ _ Hs2).
    pose proof (same_scene_identity _ _ j Hs2) as (-> & _ & -> & _)%identity_of_inv.
    pose proof (same_scene_identity _ _ i Hs2) as (-> & _ & -> & _)%identity_of_inv.
    rewrite shares_instance_test.
    intros [Hj|[??]]; [left|right; by auto]. destruct (Hl1 j Hj). auto.
Qed.

Lemma m_list__remove_volume i s : m_list (_remove_volume i s) ⊆ m_list s.
Proof. unfold _remove_volume. case_bool_decide; simpl; set_solver. Qed.

Lemma remove_inclusion s i : m_list (remove i s) ⊆ m_list s.
Proof.
  unfold remove. destruct (_ || _); [done|].
  rewrite m_list_finish. destruct (m_mode s).
  - apply m_list__remove_volume.
  - apply (for_each_volume_invariant (λ st, m_list st ⊆ m_list s)); [done|].
    intros j st _ Hst. destruct (_ && _); [|done].
    etrans; [apply m_list__remove_volume|done].
Qed.

(** ** C7: the wipe tower is selected alone *)

Lemma bind_scene vs m s i :
  same_scene (bind vs m) s →
  m_valid s = true ∧ length (volumes s) = length vs
  ∧ identity_of (volume s i) = identity_of (vs !!! i).
Proof.
  intros Hsc. split; [by destruct Hsc as (-> & _)|].
  split; [apply (same_scene_length _ _ Hsc)|apply (same_scene_identity _ _ i Hsc)].
Qed.

Lemma bind_scene_wipe_tower vs m s i :
  same_scene (bind vs m) s → is_wipe_tower (volume s i) = is_wipe_tower (vs !!! i).
Proof. by intros (_ & _ & (_&_&_&_&?)%identity_of_inv)%(bind_scene _ _ _ i). Qed.

Lemma type_after_update vs m x :
  same_scene (bind vs m) x →
  m_type (_update_type x) = WipeTower
  ↔ ∃ i, m_list (_update_type x) = {[i]} ∧ is_wipe_tower (vs !!! i) = true.
Proof.
  intros Hsc. rewrite m_type__update_type_WipeTower, m_list__update_type.
  destruct (bind_scene vs m x 0 Hsc) as (Hv & _ & _). split.
  - intros (_ & (i & Hi%leibniz_equiv)%size_1_elem_of & Hw).
    exists i. split; [done|].
    rewrite Hi, indices_singleton in Hw. simpl in Hw.
    by rewrite <-(bind_scene_wipe_tower vs m x i Hsc).
  - intros (i & Hi & Hw). split; [done|]. rewrite Hi, size_singleton.
    split; [done|]. rewrite indices_singleton. simpl.
    by rewrite (bind_scene_wipe_tower vs m x i Hsc).
Qed.

Lemma wipe_tower_invariant_update vs m x :
  same_scene (bind vs m) x →
  (∀ i, i ∈ m_list x → i < length vs) →
  ((∀ i, i ∈ m_list x → is_wipe_tower (vs !!! i) = false)
   ∨ ∃ i, m_list x = {[i]} ∧ is_wipe_tower (vs !!! i) = true) →
  wipe_tower_invariant vs m (with_m_bounding_box_dirty true (_update_type x)).
Proof.
  intros Hsc Hr Hw. split; [scene|].
  rewrite m_list_finish.
  split; [done|]. split; [|done].
  pose proof (type_after_update vs m x Hsc) as Ht.
  rewrite m_list__update_type in Ht. exact Ht.
Qed.

(** A list without a wipe tower volume, or what the invariant tells of a
    selection whose type is not [WipeTower]. *)
Lemma no_wipe_tower_selected vs m s :
  wipe_tower_invariant vs m s → is_wipe_tower_sel s = false →
  ∀ i, i ∈ m_list s → is_wipe_tower (vs !!! i) = false.
Proof.
  intros (_ & _ & Ht & [Hno|Hone]) Hsel; [done|].
  apply bool_decide_eq_false in Hsel. destruct Hsel. by apply Ht.
Qed.

Lemma wipe_tower_invariant_bind vs m : wipe_tower_invariant vs m (bind vs m).
Proof.
  split; [apply same_scene_refl|]. split; [set_solver|].
  split; [|left; set_solver].
  split; [done|]. intros (i & Hi & _). set_solver.
Qed.

(** [add] returns the state as it is, or it passes the two guards and ends
    with the classification of a state over the same scene. *)
Lemma add_cases s i e :
  add i e s = s
  ∨ (m_valid s = true ∧ i < length (volumes s)
     ∧ is_wipe_tower_sel s && is_wipe_tower (volume s i) = false
     ∧ ∃ x, add i e s = with_m_bounding_box_dirty true (_update_type x)
            ∧ same_scene s x).
Proof.
  unfold add. destruct (m_valid s) eqn:Hv; simpl; [|by left].
  case_bool_decide as Hi; [by left|].
  destruct (is_wipe_tower_sel s && is_wipe_tower (volume s i)) eqn:Hearly; [by left|].
  right. split; [done|]. split; [lia|]. split; [done|].
  eexists. split; [done|].
  destruct (add_needs_reset _ _ _); destruct (m_mode _); scene.
Qed.

Lemma wipe_tower_invariant_add vs m s i e :
  wipe_tower_alone vs → wipe_tower_invariant vs m s →
  wipe_tower_invariant vs m (add i e s).
Proof.
  intros Halone Hinv. pose proof Hinv as (Hsc & Hr & Ht & Hw).
  destruct (add_cases s i e) as [->|(Hv & Hi & Hearly & x & E & Hx)]; [done|].
  pose proof (add_inclusion s i e Hv Hi) as Hincl.
  rewrite E in *. rewrite m_list_finish in Hincl. clear E.
  rewrite Hearly in Hincl.
  destruct (bind_scene vs m s i Hsc) as (_ & Hlen & _). rewrite Hlen in *.
  assert (∀ j, shares_instance (volume s j) (volume s i) →
               shares_instance (vs !!! j) (vs !!! i)) as Hshare.
  { intros j [H1 H2].
    destruct (bind_scene vs m s j Hsc) as (_ & _ & (Ho&_&Hk&_)%identity_of_inv).
    destruct (bind_scene vs m s i Hsc) as (_ & _ & (Ho'&_&Hk'&_)%identity_of_inv).
    split; congruence. }
  assert (∀ j, j ∈ m_list x →
               (j ∈ m_list s ∧ add_needs_reset (volume s i) e s = false)
               ∨ (j < length vs ∧ shares_instance (vs !!! j) (vs !!! i))) as Hincl'.
  { intros j [[Hj [?|?]]|(_ & Hj & Hsh)]%Hincl; [done|by left|right; by auto]. }
  clear Hincl.
  rewrite (bind_scene_wipe_tower vs m s i Hsc) in Hearly.
  apply wipe_tower_invariant_update.
  - by eapply same_scene_trans.
  - intros j [[Hj _]|[Hj _]]%Hincl'; [by apply Hr|done].
  - destruct (is_wipe_tower (vs !!! i)) eqn:Hwi.
    + (* the wipe tower is added: the list is reset and holds its index only *)
      assert (add_needs_reset (volume s i) e s = true) as Hreset.
      { unfold add_needs_reset. rewrite (bind_scene_wipe_tower vs m s i Hsc), Hwi.
        by rewrite orb_true_r. }
      assert (∀ j, j ∈ m_list x → j = i) as Honly.
      { intros j [[_ ?]|[Hj Hsh]]%Hincl'; [congruence|].
        eapply (Halone i j); [by apply list_lookup_lookup_total_lt
                             |by apply list_lookup_lookup_total_lt|done|done]. }
      destruct (decide (i ∈ m_list x)) as [Hin|Hin].
      * right. exists i. split; [|done]. apply set_eq. intros j.
        rewrite elem_of_singleton. split; [apply Honly|by intros ->].
      * left. intros j Hj. by rewrite (Honly j Hj) in Hj.
    + (* another volume is added: no wipe tower volume is selected after *)
      rewrite andb_false_r in Hearly.
      left. intros j [[Hj Hreset]|[Hj Hsh]]%Hincl'.
      * apply (no_wipe_tower_selected vs m s Hinv); [|done].
        unfold add_needs_reset in Hreset. rewrite !orb_false_iff in Hreset.
        destruct Hreset as ((((_ & _) & Hsel) & _) & _).
        rewrite (bind_scene_wipe_tower vs m s i Hsc), Hwi, andb_true_r in Hsel. done.
      * destruct (is_wipe_tower (vs !!! j)) eqn:Hwj; [|done].
        assert (i = j) as ->; [|congruence].
        eapply (Halone j i); [by apply list_lookup_lookup_total_lt
                             |by apply list_lookup_lookup_total_lt|done|].
        destruct Hsh. by split.
Qed.

Lemma wipe_tower_invariant_subset vs m s x :
  wipe_tower_invariant vs m s → same_scene s x → m_list x ⊆ m_list s →
  wipe_tower_invariant vs m (with_m_bounding_box_dirty true (_update_type x)).
Proof.
  intros (Hsc & Hr & _ & Hw) Hx Hsub. apply wipe_tower_invariant_update.
  - by eapply same_scene_trans.
  - intros i Hi. apply Hr, Hsub, Hi.
  - destruct Hw as [Hno|(i & Hi & Hwi)].
    + left. intros i Hi. apply Hno, Hsub, Hi.
    + destruct (decide (i ∈ m_list x)) as [Hin|Hin].
      * right. exists i. split; [|done]. apply set_eq. intros j.
        rewrite elem_of_singleton. split; [|by intros ->].
        intros Hj%Hsub. rewrite Hi in Hj. by apply elem_of_singleton in Hj.
      * left. intros j Hj. pose proof (Hsub j Hj) as Hj'.
        rewrite Hi in Hj'. apply elem_of_singleton in Hj'. by subst.
Qed.

Lemma wipe_tower_invariant_remove vs m s i :
  wipe_tower_invariant vs m s → wipe_tower_invariant vs m (remove i s).
Proof.
  intros Hinv. pose proof (remove_inclusion s i) as Hsub. unfold remove in *.
  destruct (_ || _); [done|]. rewrite m_list_finish in Hsub.
  apply (wipe_tower_invariant_subset vs m s); [done| |done].
  destruct (m_mode s); scene.
Qed.

Lemma wipe_tower_invariant_clear vs m s :
  wipe_tower_invariant vs m s → wipe_tower_invariant vs m (clear s).
Proof.
  intros Hinv. pose proof Hinv as (Hsc & _).
  destruct (bind_scene vs m s 0 Hsc) as (Hv & _ & _).
  unfold clear. rewrite Hv. simpl.
  set (x := with_m_list ∅ _).
  assert (same_scene s x) as Hx.
  { subst x. apply scene_with_m_list, scene_for_each_selected; [done|]. scene. }
  pose proof (wipe_tower_invariant_subset vs m s x Hinv Hx) as H.
  destruct H as (H1 & H2 & H3 & H4); [subst x; simpl; set_solver|].
  split; [scene|]. split; [exact H2|]. split; [exact H3|exact H4].
Qed.

Lemma wipe_tower_invariant_add_all vs m s :
  wipe_tower_invariant vs m s → wipe_tower_invariant vs m (add_all s).
Proof.
  intros Hinv. pose proof Hinv as (Hsc & _).
  destruct (bind_scene vs m s 0 Hsc) as (Hv & Hlen & _).
  unfold add_all. rewrite Hv. simpl.
  set (s1 := clear (with_m_mode Instance s)).
  assert (same_scene s s1) as Hs1 by (subst s1; scene).
  assert (m_list s1 = ∅) as Hl1 by (subst s1; by apply m_list_clear).
  destruct (m_list_add_loop (λ _ v, negb (is_wipe_tower v)) s1) as (Hsc' & _ & Hl).
  { intros _ v w (_ & _ & _ & _ & Hw)%identity_of_inv. by rewrite Hw. }
  assert (same_scene (bind vs m) s1) as Hb by by eapply same_scene_trans.
  apply wipe_tower_invariant_update.
  - by eapply same_scene_trans.
  - intros i [Hi|[Hi _]]%Hl; [set_solver|].
    by rewrite (same_scene_length _ _ Hs1), Hlen in Hi.
  - left. intros i [Hi|[_ Hi]]%Hl; [set_solver|].
    rewrite (bind_scene_wipe_tower vs m s1 i Hb) in Hi. by apply negb_true_iff.
Qed.

Lemma wipe_tower_invariant_reachable vs m s :
  wipe_tower_alone vs → reachable_by_clicks vs m s → wipe_tower_invariant vs m s.
Proof.
  intros Halone. induction 1.
  - apply wipe_tower_invariant_bind.
  - by apply wipe_tower_invariant_add.
  - by apply wipe_tower_invariant_remove.
  - by apply wipe_tower_invariant_clear.
  - by apply wipe_tower_invariant_add_all.
Qed.

Lemma wipe_tower_invariant_exclusive vs m s :
  wipe_tower_invariant vs m s → exclusive s.
Proof.
  intros (Hsc & Hr & _ & Hw) i v Hi Hv Hwi.
  rewrite <-(volume_lookup s i v Hv), (bind_scene_wipe_tower vs m s i Hsc) in Hwi.
  destruct Hw as [Hno|(k & Hk & _)].
  - rewrite (Hno i Hi) in Hwi. done.
  - rewrite Hk in Hi. apply elem_of_singleton in Hi. by subst.
Qed.

(** The wipe tower is selected alone: in a volume list where no other
    volume has the object and instance index of a wipe tower volume, a
    selection reached from a fresh bound selection by [add], [remove],
    [clear] and [add_all] that holds a wipe tower volume holds nothing
    else, and its type is [WipeTower] exactly then. *)
Theorem wipe_tower_selected_alone vs m s :
  wipe_tower_alone vs →
  reachable_by_clicks vs m s →
  exclusive s
  ∧ (m_type s = WipeTower
     ↔ ∃ i, m_list s = {[i]} ∧ is_wipe_tower (vs !!! i) = true).
Proof.
  intros Halone Hreach.
  pose proof (wipe_tower_invariant_reachable vs m s Halone Hreach) as Hinv.
  split; [by eapply wipe_tower_invariant_exclusive|].
  by destruct Hinv as (_ & _ & Ht & _).
Qed.

Lemma wipe_tower_alone_scene : wipe_tower_alone scene_with_wipe_tower.
Proof.
  intros i j v w Hi Hj Hw [Ho Hk].
  destruct i as [|[|[|i]]]; simpl in Hi; [| | |done]; injection Hi as <-; [done|done|].
  destruct j as [|[|[|j]]]; simpl in Hj; [| | |done]; injection Hj as <-;
    [vm_compute in Ho; done|vm_compute in Ho; done|done].
Qed.

Lemma wipe_tower_selected_alone_witness :
  exclusive wipe_tower_clicked
  ∧ (m_type wipe_tower_clicked = WipeTower
     ↔ ∃ i, m_list wipe_tower_clicked = {[i]}
            ∧ is_wipe_tower (scene_with_wipe_tower !!! i) = true).
Proof.
  apply (wipe_tower_selected_alone scene_with_wipe_tower model_two_parts).
  - apply wipe_tower_alone_scene.
  - apply reachable_add, reachable_add, reachable_bind.
Defined.

(** ** What a loop of removals leaves *)

Lemma m_list_remove_loop (p : nat → GLVolume → bool) s :
  (∀ i, on_identity (p i)) →
  let s' := for_each_volume (λ i v st, if p i v then _remove_volume i st else st) s in
  same_scene s s'
  ∧ m_mode s' = m_mode s
  ∧ ∀ j, j ∈ m_list s'
         ↔ j ∈ m_list s ∧ ¬ (j < length (volumes s) ∧ p j (volume s j) = true).
Proof.
  intros Hp. simpl. unfold for_each_volume.
  set (Q (pre : list nat) st :=
         same_scene s st ∧ m_mode st = m_mode s
         ∧ ∀ j, j ∈ m_list st ↔ j ∈ m_list s ∧ ¬ (j ∈ pre ∧ p j (volume s j) = true)).
  assert (Q (seq 0 (length (volumes s))) (foldl (λ st i,
            if p i (volume st i) then _remove_volume i st else st) s
            (seq 0 (length (volumes s))))) as (H1 & H2 & H3).
  { apply (foldl_prefix_invariant Q).
    - split; [apply same_scene_refl|split; [done|]]. intros j.
      split; [|by intros [? _]]. intros Hj. split; [done|].
      intros [Hn _]. by apply elem_of_nil in Hn.
    - intros pre x st _ (Hsc & Hm & Hl).
      rewrite (Hp x _ _ (same_scene_identity s st x Hsc)).
      destruct (p x (volume s x)) eqn:E.
      + split; [by apply scene__remove_volume|].
        split; [unfold _remove_volume; by case_bool_decide|].
        intros j.
        assert (j ∈ m_list (_remove_volume x st) ↔ j ∈ m_list st ∧ j ≠ x) as ->.
        { unfold _remove_volume. case_bool_decide as Hx; simpl.
          - rewrite elem_of_difference, elem_of_singleton. done.
          - split; [|by intros [? _]]. intros Hj. split; [done|]. by intros ->. }
        rewrite (Hl j), elem_of_app, list_elem_of_singleton.
        split.
        * intros [[Hj Hn] Hx]. split; [done|]. intros [[?| ->] ?]; [|done].
          apply Hn. by split.
        * intros [Hj Hn]. split; [split; [done|]|].
          -- intros [? ?]. apply Hn. split; [by left|done].
          -- intros ->. apply Hn. split; [by right|done].
      + split; [done|split; [done|]]. intros j.
        rewrite (Hl j), elem_of_app, list_elem_of_singleton.
        split; intros [Hj Hn]; (split; [done|]).
        * intros [[?| ->] ?]; [|congruence]. apply Hn. by split.
        * intros [? ?]. apply Hn. split; [by left|done]. }
  split; [done|split; [done|]]. intros j. rewrite (H3 j), elem_of_seq.
  split; intros [Hj Hn]; (split; [done|]); intros [? ?]; apply Hn; (split; [lia|done]).
Qed.

(** ** The mutators, index by index *)

Lemma m_mode_finish_Instance x :
  m_mode x = Instance → m_mode (with_m_bounding_box_dirty true (_update_type x)) = Instance.
Proof. apply m_mode__update_type_Instance. Qed.

Lemma m_valid_clear s : m_valid (clear s) = m_valid s.
Proof. by destruct (scene_clear s s (same_scene_refl s)) as (-> & _). Qed.

(** A single-selection [add] of a volume that is not a modifier replaces the
    selection by the instance of the volume: the index set after the call
    holds exactly the volumes with the object and instance index of the
    volume, and the mode is [Instance].  ([add] returns at once when the wipe
    tower is selected and is added again.) *)
Theorem add_single_selects_instance (s : Selection) (i : nat) :
  m_valid s = true →
  i < length (volumes s) →
  is_wipe_tower_sel s && is_wipe_tower (volume s i) = false →
  is_modifier (volume s i) = false →
  m_mode (add i true s) = Instance
  ∧ ∀ j, j ∈ m_list (add i true s)
         ↔ j < length (volumes s) ∧ shares_instance (volume s j) (volume s i).
Proof.
  intros Hv Hi Hearly Hmod. unfold add.
  rewrite Hv, bool_decide_eq_false_2, Hearly by lia. simpl.
  assert (add_resolve_mode i (clear s) = with_m_mode Instance (clear s)) as ->.
  { assert (same_scene s (clear s)) as Hc by scene.
    pose proof (same_scene_identity _ _ i Hc) as (_ & _ & _ & Hm & _)%identity_of_inv.
    unfold add_resolve_mode, contains_volume.
    rewrite Hm, Hmod, m_list_clear by done.
    rewrite bool_decide_eq_false_2 by set_solver. done. }
  set (x := with_m_mode Instance (clear s)).
  assert (m_mode x = Instance) as Hmx by done.
  assert (same_scene s x) as Hc by (subst x; scene).
  assert (m_list x = ∅) as Hlx by (subst x; by apply m_list_clear).
  clearbody x. rewrite Hmx.
  destruct (m_list__add_instance x (u32 (object_idx (volume x i)))
              (u32 (instance_idx (volume x i)))) as (Hsc & Hmode & Hl).
  split.
  - apply m_mode_finish_Instance. by rewrite Hmode.
  - intros j. rewrite ?m_list_finish, ?m_list__update_type, (Hl j), Hlx.
    rewrite (same_scene_length _ _ Hc).
    pose proof (same_scene_identity _ _ i Hc) as (-> & _ & -> & _)%identity_of_inv.
    pose proof (same_scene_identity _ _ j Hc) as (-> & _ & -> & _)%identity_of_inv.
    rewrite shares_instance_test. set_solver.
Qed.

Lemma add_single_selects_instance_witness :
  m_mode (add 0 true object_selected) = Instance
  ∧ ∀ j, j ∈ m_list (add 0 true object_selected)
         ↔ j < length (volumes object_selected)
           ∧ shares_instance (volume object_selected j) (volume object_selected 0).
Proof.
  apply add_single_selects_instance.
  - vm_compute. reflexivity.
  - vm_compute. lia.
  - vm_compute. reflexivity.
  - vm_compute. reflexivity.
Defined.

(** [remove] in [Instance] mode takes the whole instance of the volume out of
    the index set and leaves the other indices; in [Volume] mode it takes the
    one index out. *)
Theorem remove_index_set (s : Selection) (i : nat) :
  m_valid s = true →
  i < length (volumes s) →
  (m_mode s = Instance →
   ∀ j, j ∈ m_list (remove i s)
        ↔ j ∈ m_list s
          ∧ ¬ (j < length (volumes s) ∧ shares_instance (volume s j) (volume s i)))
  ∧ (m_mode s = Volume → m_list (remove i s) = m_list s ∖ {[i]}).
Proof.
  intros Hv Hi. unfold remove.
  rewrite Hv, bool_decide_eq_false_2 by lia. simpl. split; intros Hm; rewrite Hm.
  - destruct (m_list_remove_loop
                (λ _ v, (u32 (object_idx v) =? u32 (object_idx (volume s i)))%Z
                        && (u32 (instance_idx v) =? u32 (instance_idx (volume s i)))%Z) s)
      as (_ & _ & Hl).
    { intros _ v w (Ho & _ & Hk & _)%identity_of_inv. by rewrite Ho, Hk. }
    intros j. rewrite ?m_list_finish, ?m_list__update_type.
    unfold _remove_instance. rewrite (Hl j).
    by rewrite shares_instance_test.
  - rewrite ?m_list_finish, ?m_list__update_type. unfold _remove_volume.
    case_bool_decide; simpl; set_solver.
Qed.

Lemma remove_index_set_witness :
  (m_mode object_selected = Instance →
   ∀ j, j ∈ m_list (remove 1 object_selected)
        ↔ j ∈ m_list object_selected
          ∧ ¬ (j < length (volumes object_selected)
               ∧ shares_instance (volume object_selected j) (volume object_selected 1)))
  ∧ (m_mode object_selected = Volume →
     m_list (remove 1 object_selected) = m_list object_selected ∖ {[1]}).
Proof.
  apply remove_index_set.
  - vm_compute. reflexivity.
  - vm_compute. lia.
Defined.

(** ** C10: what [add] does with an auxiliary volume *)

Lemma add_resolve_mode_Volume i x :
  is_modifier (volume x i) = true ∨ (i ∈ m_list x ∧ m_mode x = Volume) →
  m_mode (add_resolve_mode i x) = Volume.
Proof.
  unfold add_resolve_mode, contains_volume.
  intros [->|[Hi Hm]]; [done|]. destruct (is_modifier _); [done|].
  by rewrite bool_decide_eq_true_2.
Qed.

Lemma add_resolve_mode_Instance i x :
  is_modifier (volume x i) = false →
  i ∉ m_list x ∨ m_mode x = Instance →
  m_mode (add_resolve_mode i x) = Instance.
Proof.
  unfold add_resolve_mode, contains_volume. intros -> [Hi|Hm].
  - by rewrite bool_decide_eq_false_2.
  - by case_bool_decide.
Qed.

(** C10: [add] switches on the mode it resolves from the volume, not on the
    mode the selection is in.  For a volume with a negative volume index:
    when the volume is not a modifier, is selected already, the selection is
    in [Volume] mode and the add does not reset it, the volume is not
    inserted and the index set is unchanged; a modifier is not inserted
    either, the index set is unchanged or emptied by the reset; and a volume
    that is not a modifier and is not selected when it is added (or is added
    to a selection in [Instance] mode) is added in [Instance] mode: the mode
    after the add is [Instance], and the index set holds the indices that
    were kept and every volume of the object and instance of the volume, the
    volume itself among them. *)
Theorem C10_add_auxiliary_volume (s : Selection) (volume_idx_ : nat)
    (as_single_selection : bool) :
  m_valid s = true →
  volume_idx_ < length (volumes s) →
  (volume_idx (volume s volume_idx_) < 0)%Z →
  (is_modifier (volume s volume_idx_) = false →
   add_needs_reset (volume s volume_idx_) as_single_selection s = false →
   volume_idx_ ∈ m_list s →
   m_mode s = Volume →
   m_list (add volume_idx_ as_single_selection s) = m_list s)
  ∧ (is_modifier (volume s volume_idx_) = true →
     m_list (add volume_idx_ as_single_selection s) = m_list s
     ∨ (add_needs_reset (volume s volume_idx_) as_single_selection s = true
        ∧ m_list (add volume_idx_ as_single_selection s) = ∅))
  ∧ (is_modifier (volume s volume_idx_) = false →
     add_needs_reset (volume s volume_idx_) as_single_selection s = true
     ∨ volume_idx_ ∉ m_list s ∨ m_mode s = Instance →
     is_wipe_tower_sel s && is_wipe_tower (volume s volume_idx_) = false →
     m_mode (add volume_idx_ as_single_selection s) = Instance
     ∧ volume_idx_ ∈ m_list (add volume_idx_ as_single_selection s)
     ∧ ∀ j, j ∈ m_list (add volume_idx_ as_single_selection s)
            ↔ (add_needs_reset (volume s volume_idx_) as_single_selection s = false
               ∧ j ∈ m_list s)
              ∨ (j < length (volumes s)
                 ∧ shares_instance (volume s j) (volume s volume_idx_))).
Proof.
  intros Hv Hi Hneg.
  set (s1 := if add_needs_reset (volume s volume_idx_) as_single_selection s
             then clear s else s).
  assert (same_scene s s1) as Hs1 by (subst s1; scene).
  assert (same_scene s (add_resolve_mode volume_idx_ s1)) as Hsc by scene.
  pose proof (same_scene_identity _ _ volume_idx_ Hs1) as (_ & _ & _ & Hmod1 & _)%identity_of_inv.
  pose proof (same_scene_identity _ _ volume_idx_ Hsc) as (Ho & Hk & Hn & _)%identity_of_inv.
  assert (m_mode (add_resolve_mode volume_idx_ s1) = Volume →
          m_list (add volume_idx_ as_single_selection s) = m_list s
          ∨ m_list (add volume_idx_ as_single_selection s) = m_list s1) as Hguard.
  { intros Hmode. unfold add.
    rewrite Hv, bool_decide_eq_false_2 by lia. simpl.
    destruct (_ && _); [by left|]. right.
    fold s1. rewrite Hmode, Hk.
    destruct (0 <=? _)%Z eqn:E; [apply Z.leb_le in E; lia|]. simpl.
    by rewrite m_list__update_type, m_list_add_resolve_mode. }
  split_and!.
  - intros Hmod Hreset Hin Hmode.
    assert (s1 = s) as Hs by (subst s1; by rewrite Hreset).
    destruct Hguard as [->| ->]; [|done|by rewrite Hs].
    apply add_resolve_mode_Volume. right. by rewrite Hs.
  - intros Hmod. destruct Hguard as [Hg|Hg].
    + apply add_resolve_mode_Volume. left. by rewrite Hmod1.
    + by left.
    + rewrite Hg. subst s1. destruct (add_needs_reset _ _ _); [right|by left].
      split; [done|]. by apply m_list_clear.
  - intros Hmod Hcase Hearly.
    assert (∀ j, j ∈ m_list s1
                 ↔ add_needs_reset (volume s volume_idx_) as_single_selection s = false
                   ∧ j ∈ m_list s) as Hl1.
    { intros j. subst s1. destruct (add_needs_reset _ _ _).
      - rewrite m_list_clear by done. set_solver.
      - naive_solver. }
    assert (m_mode (add_resolve_mode volume_idx_ s1) = Instance) as Hmode.
    { apply add_resolve_mode_Instance; [by rewrite Hmod1|].
      destruct Hcase as [Hreset|[Hout|Hm]].
      - left. rewrite (Hl1 volume_idx_), Hreset. by intros [? _].
      - left. rewrite (Hl1 volume_idx_). by intros [_ ?].
      - destruct (add_needs_reset (volume s volume_idx_) as_single_selection s) eqn:Hreset.
        + left. rewrite (Hl1 volume_idx_). by intros [? _].
        + right. by subst s1. }
    assert (∀ j, j ∈ m_list (add volume_idx_ as_single_selection s)
                 ↔ (add_needs_reset (volume s volume_idx_) as_single_selection s = false
                    ∧ j ∈ m_list s)
                   ∨ (j < length (volumes s)
                      ∧ shares_instance (volume s j) (volume s volume_idx_))) as Hl.
    { intros j. unfold add.
      rewrite Hv, bool_decide_eq_false_2, Hearly by lia. simpl. fold s1.
      rewrite Hmode, ?m_list_finish, ?m_list__update_type.
      destruct (m_list__add_instance (add_resolve_mode volume_idx_ s1)
                  (u32 (object_idx (volume (add_resolve_mode volume_idx_ s1) volume_idx_)))
                  (u32 (instance_idx (volume (add_resolve_mode volume_idx_ s1) volume_idx_))))
        as (_ & _ & Hadd).
      rewrite (Hadd j), m_list_add_resolve_mode, (Hl1 j), (same_scene_length _ _ Hsc).
      pose proof (same_scene_identity _ _ j Hsc) as (-> & _ & -> & _)%identity_of_inv.
      rewrite Ho, Hn, shares_instance_test. done. }
    split; [|split; [|done]].
    + unfold add. rewrite Hv, bool_decide_eq_false_2, Hearly by lia. simpl. fold s1.
      rewrite Hmode. apply m_mode_finish_Instance.
      by destruct (m_list__add_instance (add_resolve_mode volume_idx_ s1)
                  (u32 (object_idx (volume (add_resolve_mode volume_idx_ s1) volume_idx_)))
                  (u32 (instance_idx (volume (add_resolve_mode volume_idx_ s1) volume_idx_))))
        as (_ & -> & _).
    + apply Hl. right. split; [done|]. by split.
Qed.

Lemma C10_add_auxiliary_volume_witness :
  (m_mode supports_selected = Volume
   ∧ indices (m_list supports_selected) = [2]
   ∧ m_list (add 2 false supports_selected) = m_list supports_selected)
  ∧ (m_mode first_part_selected = Volume
     ∧ indices (m_list first_part_selected) = [0]
     ∧ m_mode (add 2 false first_part_selected) = Instance
     ∧ 2 ∈ m_list (add 2 false first_part_selected)).
Proof.
  split.
  - split; [vm_compute; reflexivity|]. split; [vm_compute; reflexivity|].
    refine (proj1 (C10_add_auxiliary_volume supports_selected 2 false _ _ _) _ _ _ _).
    + vm_compute. reflexivity.
    + vm_compute. lia.
    + vm_compute. reflexivity.
    + vm_compute. reflexivity.
    + vm_compute. reflexivity.
    + apply elem_of_indices. vm_compute. left.
    + vm_compute. reflexivity.
  - split; [vm_compute; reflexivity|]. split; [vm_compute; reflexivity|].
    refine ((λ H, conj (proj1 H) (proj1 (proj2 H)))
              (proj2 (proj2 (C10_add_auxiliary_volume first_part_selected 2 false _ _ _))
                 _ _ _)).
    + vm_compute. reflexivity.
    + vm_compute. lia.
    + vm_compute. reflexivity.
    + vm_compute. reflexivity.
    + right. left. intros Hin%elem_of_indices. vm_compute in Hin.
      apply list_elem_of_singleton in Hin. discriminate Hin.
    + vm_compute. reflexivity.
Defined.

(** ** Frames of the transform operations *)

Lemma fmap_alter_keeps {A} (π : GLVolume → A) g i (l : list GLVolume) :
  (∀ v, π (g v) = π v) → π <$> alter g i l = π <$> l.
Proof.
  intros Hg. apply list_eq. intros j. rewrite !list_lookup_fmap.
  destruct (decide (i = j)) as [->|Hij].
  - rewrite list_lookup_alter_eq. destruct (l !! j); simpl; [by rewrite Hg|done].
  - by rewrite list_lookup_alter_ne.
Qed.

Section frames.
Context {A : Type} (π : GLVolume → A).

Lemma framed_refl s : framed π s s.
Proof. done. Qed.

Lemma framed_trans s1 s2 s3 : framed π s1 s2 → framed π s2 s3 → framed π s1 s3.
Proof. intros [??] [??]. split; congruence. Qed.

Lemma framed_update_volume s st j g :
  (∀ v, π (g v) = π v) → framed π s st → framed π s (update_volume j g st).
Proof.
  intros Hg [Hr Hv]. split; [done|].
  rewrite volumes_update_volume, <-Hv. by apply fmap_alter_keeps.
Qed.

Lemma framed_length s st : framed π s st → length (volumes st) = length (volumes s).
Proof. intros [_ H]. apply (f_equal length) in H. by rewrite !length_fmap in H. Qed.

Lemma framed_view s st j : framed π s st → π (volume st j) = π (volume s j).
Proof.
  intros [_ H]. unfold volume.
  apply (f_equal (λ l, l !! j)) in H. rewrite !list_lookup_fmap in H.
  rewrite !list_lookup_total_alt.
  destruct (volumes st !! j), (volumes s !! j); simpl in *; congruence.
Qed.

Lemma framed_for_each_selected s x body :
  framed π s x →
  (∀ i st, framed π s st → framed π s (body i st)) →
  framed π s (for_each_selected body x).
Proof.
  intros Hx Hbody. unfold for_each_selected.
  apply (foldl_invariant (framed π s)); [done|]. intros st i _. apply Hbody.
Qed.

Lemma framed_for_each_volume s x body :
  framed π s x →
  (∀ i v st, framed π s st → framed π s (body i v st)) →
  framed π s (for_each_volume body x).
Proof.
  intros Hx Hbody. unfold for_each_volume.
  apply (foldl_invariant (framed π s)); [done|]. intros st i _. apply Hbody.
Qed.
End frames.

(** The members of a framed state. *)
Lemma framed_members {A} (π : GLVolume → A) s st :
  framed π s st →
  m_list st = m_list s ∧ m_mode st = m_mode s ∧ m_type st = m_type s
  ∧ m_valid st = m_valid s ∧ m_cache st = m_cache s ∧ m_model st = m_model s
  ∧ app_calls st = app_calls s.
Proof.
  intros [H _]. unfold rest_of, with_m_volumes in H.
  injection H as ?????????. done.
Qed.

Lemma framed_weaken {A B} (π : GLVolume → A) (ρ : GLVolume → B) s st :
  (∀ v w, π v = π w → ρ v = ρ w) → framed π s st → framed ρ s st.
Proof.
  intros Hπ [Hr Hv]. split; [done|].
  apply list_eq. intros j.
  apply (f_equal (λ l, l !! j)) in Hv. rewrite !list_lookup_fmap in *.
  destruct (volumes st !! j), (volumes s !! j); simpl in *; try done.
  f_equal. apply Hπ. congruence.
Qed.

Lemma alter_out_of_range {A} (f : A → A) (l : list A) i :
  length l ≤ i → alter f i l = l.
Proof.
  intros Hi. apply list_eq. intros j. destruct (decide (i = j)) as [->|Hij].
  - rewrite list_lookup_alter_eq. by rewrite (lookup_ge_None_2 l j Hi).
  - by rewrite list_lookup_alter_ne.
Qed.

(** The volume at an index after an update in place. *)
Lemma volume_update_volume s j k g :
  volume (update_volume j g s) k
  = if decide (j = k ∧ j < length (volumes s)) then g (volume s k) else volume s k.
Proof.
  unfold volume. rewrite volumes_update_volume.
  case_decide as H.
  - destruct H as [-> H]. by rewrite list_lookup_total_alter_eq.
  - destruct (decide (j = k)) as [->|Hjk].
    + rewrite alter_out_of_range; [done|]. lia.
    + by rewrite list_lookup_total_alter_ne.
Qed.

(** ** The synchronisation of the instances that are not selected *)

Lemma _synchronize_unselected_instances_spec `{Geometry} t s :
  let s' := _synchronize_unselected_instances t s in
  framed outside_instance_shape s s'
  ∧ ∀ j, j ∈ m_list s → volume s' j = volume s j.
Proof.
  simpl. unfold _synchronize_unselected_instances.
  set (I := λ p : Selection * gset nat,
         framed outside_instance_shape s p.1
         ∧ m_list s ⊆ p.2
         ∧ ∀ j, j ∈ m_list s → volume p.1 j = volume s j).
  match goal with |- context [foldl ?f ?b ?l] => assert (I (foldl f b l)) as HI end.
  { apply foldl_invariant; [by split|].
    intros [st done] i _ HI. simpl.
    case_bool_decide; [done|]. destruct (1000 <=? _)%Z; [done|].
    apply foldl_invariant; [done|].
    clear HI. intros [st' done'] j _ (Hf & Hd & Hs). simpl in Hf, Hd, Hs.
    case_bool_decide; [done|]. case_bool_decide as Hj; [done|].
    destruct (_ || _); [done|]. unfold I. simpl. split; [|split].
    - do 2 (apply framed_update_volume; [done|]).
      destruct t; [done|by apply framed_update_volume..].
    - set_solver.
    - intros k Hk. assert (j ≠ k) as Hjk by (intros ->; apply Hj, Hd, Hk).
      rewrite !volume_update_volume.
      repeat (case_decide as Hc; [by destruct Hc|clear Hc]).
      destruct t; [by apply Hs| |];
        (rewrite volume_update_volume; case_decide as Hc; [by destruct Hc|by apply Hs]). }
  by destruct HI as (? & _ & ?).
Qed.

(** ** The synchronisation of the volumes that are not selected *)

Lemma update_volume_twice j g1 g2 s :
  update_volume j g2 (update_volume j g1 s) = update_volume j (g2 ∘ g1) s.
Proof.
  destruct s as [[l|] ? ? ? ? ? ? ? ? ?]; [|done].
  unfold update_volume, update_volumes, with_m_volumes. simpl.
  by rewrite list_alter_alter_eq.
Qed.

(** The four assignments of [_synchronize_unselected_volumes] give a volume
    the placement of another. *)
Lemma copy_volume_placement vi vj :
  get_volume_transformation
    (set_volume_mirror (get_volume_mirror vi)
       (set_volume_scaling_factor (get_volume_scaling_factor vi)
          (set_volume_rotation (get_volume_rotation vi)
             (set_volume_offset (get_volume_offset vi) vj))))
  = get_volume_transformation vi.
Proof. destruct vi as [? ? ? ? ? ? ? [] ?]. done. Qed.

Lemma marks_inv v w :
  marks v = marks w →
  object_idx v = object_idx w ∧ volume_idx v = volume_idx w
  ∧ instance_idx v = instance_idx w ∧ is_modifier v = is_modifier w
  ∧ is_wipe_tower v = is_wipe_tower w ∧ selected v = selected w
  ∧ disabled v = disabled w.
Proof. unfold marks. intros [= -> -> -> -> -> -> ->]. done. Qed.

Lemma placement_marks v w :
  outside_volume_placement v = outside_volume_placement w → marks v = marks w.
Proof. intros H. by apply (f_equal fst) in H. Qed.

Lemma shape_marks v w :
  outside_instance_shape v = outside_instance_shape w → marks v = marks w.
Proof. intros H. by apply (f_equal (λ p, p.1.1)) in H. Qed.

Lemma _synchronize_unselected_volumes_spec (P : nat → GLVolume → Prop) s :
  (∀ i j vi vj,
     i ∈ m_list s → j ∈ m_list s → i ≠ j →
     same_part (volume s i) (volume s j) → (object_idx (volume s i) < 1000)%Z →
     P i vi → get_volume_transformation vj = get_volume_transformation vi → P j vj) →
  (∀ k, k ∈ m_list s → P k (volume s k)) →
  let s' := _synchronize_unselected_volumes s in
  framed outside_volume_placement s s'
  ∧ ∀ k, k ∈ m_list s → P k (volume s' k).
Proof.
  intros Hcompat HP. simpl. unfold _synchronize_unselected_volumes.
  set (I := λ st, framed outside_volume_placement s st
                  ∧ ∀ k, k ∈ m_list s → P k (volume st k)).
  apply (for_each_selected_invariant I); [by split|].
  intros i st Hi [Hf HPst].
  destruct (1000 <=? _)%Z eqn:Hobj; [done|]. apply Z.leb_gt in Hobj.
  apply (for_each_volume_invariant I); [done|].
  intros j st' _ [Hf' HPst'].
  case_bool_decide as Hji; [done|].
  destruct (_ || _) eqn:Hkey; [done|].
  apply orb_false_elim in Hkey as [Ho Hk].
  apply negb_false_iff, Z.eqb_eq in Ho. apply negb_false_iff, Z.eqb_eq in Hk.
  rewrite !update_volume_twice. split.
  - by apply framed_update_volume.
  - intros k Hk'. rewrite volume_update_volume.
    case_decide as Hc; [|by apply HPst'].
    destruct Hc as [<- _].
    apply (Hcompat i j (volume st i) _ Hi Hk' (λ E, Hji (eq_sym E))).
    + pose proof (framed_view _ _ _ i Hf) as Hm%placement_marks.
      pose proof (framed_view _ _ _ j Hf') as Hm'%placement_marks.
      apply marks_inv in Hm as (Ho1 & Hk1 & _), Hm' as (Ho2 & Hk2 & _).
      split; congruence.
    + pose proof (framed_view _ _ _ i Hf) as Hm%placement_marks.
      apply marks_inv in Hm as (Ho1 & _). congruence.
    + by apply HPst.
    + apply copy_volume_placement.
Qed.

(** ** Rotation by the zero vector *)

Lemma synchronize_selected `{Geometry} t s :
  m_mode s = Instance →
  let s' := synchronize t s in
  framed marks s s' ∧ ∀ j, j ∈ m_list s → volume s' j = volume s j.
Proof.
  intros Hm. simpl. unfold synchronize. simpl. rewrite Hm.
  destruct (_synchronize_unselected_instances_spec t s) as [Hf Hs].
  split; [|done]. eapply framed_weaken; [|exact Hf]. apply shape_marks.
Qed.

(** The first loop of [rotate] for a rotation that is zero: every selected
    volume is given the rotation and the offset of its snapshot. *)
Lemma rotate_restore_loop c s :
  indices_in_range s →
  let s' :=
    for_each_selected (λ i st,
      match m_mode st with
      | Instance =>
          let st := update_volume i
                      (set_instance_rotation (get_instance_rotation_c (volume_data c i))) st in
          update_volume i (set_instance_offset (get_instance_position (volume_data c i))) st
      | Volume =>
          let st := update_volume i
                      (set_volume_rotation (get_volume_rotation_c (volume_data c i))) st in
          update_volume i (set_volume_offset (get_volume_position (volume_data c i))) st
      end) s in
  framed marks s s'
  ∧ ∀ i, i ∈ m_list s →
      match m_mode s with
      | Instance =>
          volume s' i
          = set_instance_offset (get_instance_position (volume_data c i))
              (set_instance_rotation (get_instance_rotation_c (volume_data c i)) (volume s i))
      | Volume =>
          volume s' i
          = set_volume_offset (get_volume_position (volume_data c i))
              (set_volume_rotation (get_volume_rotation_c (volume_data c i)) (volume s i))
      end.
Proof.
  intros Hr. simpl. unfold for_each_selected.
  set (g := λ i, match m_mode s with
                 | Instance =>
                     set_instance_offset (get_instance_position (volume_data c i))
                     ∘ set_instance_rotation (get_instance_rotation_c (volume_data c i))
                 | Volume =>
                     set_volume_offset (get_volume_position (volume_data c i))
                     ∘ set_volume_rotation (get_volume_rotation_c (volume_data c i))
                 end).
  set (Q := λ (pre : list nat) st,
         framed marks s st
         ∧ ∀ k, volume st k = if decide (k ∈ pre) then g k (volume s k) else volume s k).
  match goal with |- context [foldl ?f s ?l] => assert (Q l (foldl f s l)) as [Hf Hv] end.
  { apply (foldl_prefix_invariant Q).
    - split; [done|]. intros k. case_decide as Hk; [by apply elem_of_nil in Hk|done].
    - intros pre x st [post Hl] [Hf Hv].
      assert (x ∈ m_list s) as Hx.
      { apply elem_of_indices. rewrite Hl. apply elem_of_app. right. by left. }
      assert (x ∉ pre) as Hfresh by (eapply NoDup_prefix_fresh; [apply NoDup_indices|done]).
      destruct (framed_members _ _ _ Hf) as (_ & Hm & _).
      assert (framed marks s (update_volume x (g x) st)) as Hf'.
      { apply framed_update_volume; [|done]. intros v. unfold g. by destruct (m_mode s). }
      assert (match m_mode st with
              | Instance =>
                  update_volume x
                    (set_instance_offset (get_instance_position (volume_data c x)))
                    (update_volume x
                       (set_instance_rotation (get_instance_rotation_c (volume_data c x))) st)
              | Volume =>
                  update_volume x
                    (set_volume_offset (get_volume_position (volume_data c x)))
                    (update_volume x
                       (set_volume_rotation (get_volume_rotation_c (volume_data c x))) st)
              end = update_volume x (g x) st) as ->.
      { rewrite Hm. unfold g. destruct (m_mode s); by rewrite update_volume_twice. }
      split; [done|]. intros k. rewrite volume_update_volume, (Hv k).
      rewrite (framed_length _ _ _ Hf).
      case_decide as Hc.
      + destruct Hc as [<- _]. rewrite decide_False by done.
        rewrite decide_True; [done|]. apply elem_of_app. right. by left.
      + destruct (decide (k ∈ pre)) as [Hk|Hk].
        * rewrite decide_True; [done|]. apply elem_of_app. by left.
        * rewrite decide_False; [done|].
          intros [?| ->%list_elem_of_singleton]%elem_of_app; [done|].
          apply Hc. split; [done|]. by apply Hr. }
  split; [done|]. intros i Hi. rewrite (Hv i), decide_True by by apply elem_of_indices.
  unfold g. by destruct (m_mode s).
Qed.

Lemma same_part_framed s st i j :
  framed marks s st → same_part (volume st i) (volume st j) →
  same_part (volume s i) (volume s j) ∧ object_idx (volume st i) = object_idx (volume s i).
Proof.
  intros Hf [Ho Hk].
  pose proof (framed_view _ _ _ i Hf) as (Ho1 & Hk1 & _)%marks_inv.
  pose proof (framed_view _ _ _ j Hf) as (Ho2 & Hk2 & _)%marks_inv.
  split; [split|]; congruence.
Qed.

(** [rotate] with a rotation that is zero gives every selected volume the
    rotation and the offset of its drag-start snapshot: of the instance in
    [Instance] mode, of the volume in [Volume] mode.  In [Volume] mode the
    synchronisation that follows copies the placement of a selected volume
    to the other volumes of the same part, selected or not, so the snapshots
    of selected volumes of the same part have to agree. *)
Theorem rotate_zero_restores_snapshot `{Geometry} (rotation : Vec3d)
    (transformation_type : TransformationType) (s : Selection) :
  m_valid s = true →
  isApprox rotation Vec3d_Zero = true →
  indices_in_range s →
  (m_mode s = Volume → snapshots_agree s) →
  ∀ i, i ∈ m_list s →
    let v := volume (rotate rotation transformation_type s) i in
    let c := volume_data (m_cache s) i in
    match m_mode s with
    | Instance =>
        get_instance_rotation v = get_instance_rotation_c c
        ∧ get_instance_offset v = get_instance_position c
    | Volume =>
        get_volume_rotation v = get_volume_rotation_c c
        ∧ get_volume_offset v = get_volume_position c
    end.
Proof.
  intros Hv Hzero Hr Hagree i Hi. simpl. unfold rotate. rewrite Hv, Hzero. simpl.
  destruct (rotate_restore_loop (m_cache s) s Hr) as [Hf Hrestore].
  set (s1 := for_each_selected _ s) in *. clearbody s1.
  destruct (framed_members _ _ _ Hf) as (Hl & Hm & _ & _ & Hc & _).
  change (volume (with_m_bounding_box_dirty true ?x) i) with (volume x i).
  destruct (m_mode s) eqn:Hmode.
  - (* Volume *)
    unfold synchronize. simpl. rewrite Hm.
    destruct (_synchronize_unselected_volumes_spec
                (λ k v, get_volume_rotation v
                        = get_volume_rotation_c (volume_data (m_cache s) k)
                        ∧ get_volume_offset v
                          = get_volume_position (volume_data (m_cache s) k)) s1)
      as [_ HP].
    + intros a b va vb Ha Hb Hab Hpart Hobj [H1 H2] Ht. rewrite Hl in Ha, Hb.
      destruct (same_part_framed s s1 a b Hf Hpart) as [Hpart' Ho].
      rewrite Ho in Hobj.
      destruct (Hagree eq_refl a b Ha Hb Hab Hpart' Hobj) as [<- <-].
      unfold get_volume_rotation, get_volume_offset. rewrite Ht. done.
    + intros k Hk. rewrite Hl in Hk. rewrite (Hrestore k Hk). done.
    + apply HP. by rewrite Hl.
  - (* Instance *)
    destruct (synchronize_selected SYNC_ROTATION_GENERAL s1 Hm) as [_ Hsel].
    rewrite Hsel by by rewrite Hl. rewrite (Hrestore i Hi). done.
Qed.

Lemma indices_in_range_check s :
  forallb (λ i, i <? length (volumes s)) (indices (m_list s)) = true →
  indices_in_range s.
Proof.
  intros H i Hi. apply elem_of_indices in Hi.
  rewrite forallb_forall in H. apply Nat.ltb_lt, H. by apply list_elem_of_In.
Qed.

(** ** Loops that write every selected volume once *)

Lemma for_each_selected_update body (g : nat → GLVolume → GLVolume) s :
  (∀ i v, marks (g i v) = marks v) →
  indices_in_range s →
  (∀ i st, framed marks s st → body i st = update_volume i (g i) st) →
  let s' := for_each_selected body s in
  framed marks s s'
  ∧ ∀ k, volume s' k = if decide (k ∈ m_list s) then g k (volume s k) else volume s k.
Proof.
  intros Hg Hr Hbody. simpl. unfold for_each_selected.
  set (Q := λ (pre : list nat) st,
         framed marks s st
         ∧ ∀ k, volume st k = if decide (k ∈ pre) then g k (volume s k) else volume s k).
  match goal with |- context [foldl ?f s ?l] => assert (Q l (foldl f s l)) as [Hf Hv] end.
  { apply (foldl_prefix_invariant Q).
    - split; [done|]. intros k. case_decide as Hk; [by apply elem_of_nil in Hk|done].
    - intros pre x st [post Hl] [Hf Hv].
      assert (x ∈ m_list s) as Hx.
      { apply elem_of_indices. rewrite Hl. apply elem_of_app. right. by left. }
      assert (x ∉ pre) as Hfresh by (eapply NoDup_prefix_fresh; [apply NoDup_indices|done]).
      rewrite (Hbody x st Hf).
      split; [by apply framed_update_volume|].
      intros k. rewrite volume_update_volume, (Hv k), (framed_length _ _ _ Hf).
      case_decide as Hc.
      + destruct Hc as [<- _]. rewrite decide_False by done.
        rewrite decide_True; [done|]. apply elem_of_app. right. by left.
      + destruct (decide (k ∈ pre)) as [Hk|Hk].
        * rewrite decide_True; [done|]. apply elem_of_app. by left.
        * rewrite decide_False; [done|].
          intros [?| ->%list_elem_of_singleton]%elem_of_app; [done|].
          apply Hc. split; [done|]. by apply Hr. }
  split; [done|]. intros k. rewrite (Hv k).
  destruct (decide (k ∈ m_list s)) as [Hk|Hk].
  - rewrite decide_True; [done|]. by apply elem_of_indices.
  - rewrite decide_False; [done|]. by rewrite elem_of_indices.
Qed.

Lemma update_volume_id j s : update_volume j (λ v, v) s = s.
Proof.
  destruct s as [[l|] ? ? ? ? ? ? ? ? ?]; [|done].
  unfold update_volume, update_volumes, with_m_volumes. simpl.
  by rewrite list_alter_id.
Qed.

(** ** Mirror *)

(** [mirror] negates one component of a mirror vector of every selected
    volume: of the instance when the selection is a single full instance, of
    the volume otherwise in [Volume] mode; otherwise, in [Instance] mode, it
    leaves the selected volumes as they are.  In [Volume] mode the
    synchronisation that follows copies the placement of a selected volume to
    the other volumes of the same part, so the selected volumes of the same
    part have to be placed alike. *)
Theorem mirror_selected `{Geometry} (axis : Axis) (s : Selection) :
  m_valid s = true →
  indices_in_range s →
  (m_mode s = Volume → parts_in_step s) →
  ∀ i, i ∈ m_list s →
    let v := volume (mirror axis s) i in
    if is_single_full_instance s
    then get_instance_mirror v = flip axis (get_instance_mirror (volume s i))
    else match m_mode s with
         | Volume => get_volume_mirror v = flip axis (get_volume_mirror (volume s i))
         | Instance => v = volume s i
         end.
Proof.
  intros Hv Hr Hstep i Hi. simpl. unfold mirror. rewrite Hv. simpl.
  change (volume (with_m_bounding_box_dirty true ?x) i) with (volume x i).
  set (g := λ (_ : nat) (v : GLVolume),
         if is_single_full_instance s
         then set_instance_mirror_axis axis (- coeff (get_instance_mirror v) axis) v
         else match m_mode s with
              | Volume => set_volume_mirror_axis axis (- coeff (get_volume_mirror v) axis) v
              | Instance => v
              end).
  match goal with |- context [for_each_selected ?b s] =>
    destruct (for_each_selected_update b g s) as [Hf Hloop] end.
  { intros k v. unfold g. destruct (is_single_full_instance s); [done|].
    by destruct (m_mode s). }
  { done. }
  { intros k st Hf. destruct (framed_members _ _ _ Hf) as (_ & Hm & _).
    unfold g. destruct (is_single_full_instance s); [done|].
    rewrite Hm. destruct (m_mode s); simpl; [done|]. by rewrite update_volume_id. }
  set (s1 := for_each_selected _ s) in *. clearbody s1.
  destruct (framed_members _ _ _ Hf) as (Hl & Hm & _).
  assert (∀ k, k ∈ m_list s → volume s1 k = g k (volume s k)) as Hloop'.
  { intros k Hk. by rewrite (Hloop k), decide_True. }
  unfold synchronize. simpl. rewrite Hm.
  destruct (m_mode s) eqn:Hmode.
  - (* Volume: the placements of the instances stay; the placement of a
       volume may come from another selected volume of its part *)
    destruct (_synchronize_unselected_volumes_spec
                (λ k v, get_volume_transformation v
                        = get_volume_transformation (g k (volume s k))) s1)
      as [Hf2 HP].
    + intros a b va vb Ha Hb Hab Hpart Hobj Hva Ht. rewrite Hl in Ha, Hb.
      destruct (same_part_framed s s1 a b Hf Hpart) as [Hpart' Ho].
      rewrite Ho in Hobj.
      pose proof (Hstep eq_refl a b Ha Hb Hab Hpart' Hobj) as Hab'.
      rewrite Ht, Hva. unfold g. destruct (is_single_full_instance s); simpl; [done|].
      unfold set_volume_mirror_axis, set_volume_mirror, get_volume_mirror. simpl.
      by rewrite Hab'.
    + intros k Hk. rewrite Hl in Hk. by rewrite (Hloop' k Hk).
    + specialize (HP i). rewrite Hl in HP. specialize (HP Hi).
      pose proof (framed_view _ _ _ i Hf2) as Hplace.
      apply (f_equal snd) in Hplace. simpl in Hplace.
      rewrite (Hloop' i Hi) in Hplace.
      unfold g in HP, Hplace. destruct (is_single_full_instance s).
      * unfold get_instance_mirror. rewrite Hplace. done.
      * unfold get_volume_mirror. rewrite HP. done.
  - (* Instance: the selected volumes are not touched *)
    destruct (_synchronize_unselected_instances_spec SYNC_ROTATION_NONE s1) as [_ Hsel].
    rewrite Hsel by by rewrite Hl. rewrite (Hloop' i Hi). unfold g.
    by destruct (is_single_full_instance s).
Qed.

(** ** Translation *)

(** [translate] places every selected volume relative to its drag-start
    snapshot: in [Instance] mode the offset of the instance is the position
    of the snapshot plus the displacement and nothing else of the volume
    changes (the wipe tower is moved by the offset of its volume instead); in
    [Volume] mode the offset of the volume is the position of the snapshot
    plus the displacement, taken to the frame of the instance unless the
    translation is local. *)
Theorem translate_selected `{Geometry} (displacement : Vec3d) (local : bool) (s : Selection) :
  m_valid s = true →
  indices_in_range s →
  (m_mode s = Volume → parts_distinct s) →
  ∀ i, i ∈ m_list s →
    let v := volume (translate displacement local s) i in
    let c := volume_data (m_cache s) i in
    let moved :=
      vadd (get_volume_position c)
           (if local then displacement else local_displacement c displacement) in
    match m_mode s with
    | Instance =>
        v = if is_wipe_tower (volume s i)
            then set_volume_offset moved (volume s i)
            else set_instance_offset (vadd (get_instance_position c) displacement) (volume s i)
    | Volume => get_volume_offset v = moved
    end.
Proof.
  intros Hv Hr Hdistinct i Hi. simpl. unfold translate. rewrite Hv. simpl.
  change (volume (with_m_bounding_box_dirty true ?x) i) with (volume x i).
  set (g := λ (k : nat) (v : GLVolume),
         let c := volume_data (m_cache s) k in
         if bool_decide (m_mode s = Volume) || is_wipe_tower (volume s k)
         then set_volume_offset
                (vadd (get_volume_position c)
                      (if local then displacement else local_displacement c displacement)) v
         else set_instance_offset (vadd (get_instance_position c) displacement) v).
  match goal with |- context [for_each_selected ?b s] =>
    destruct (for_each_selected_update b g s) as [Hf Hloop] end.
  { intros k v. unfold g. simpl. by destruct (_ || _). }
  { done. }
  { intros k st Hf. destruct (framed_members _ _ _ Hf) as (_ & Hm & _).
    pose proof (framed_view _ _ _ k Hf) as (_&_&_&_& Hw &_)%marks_inv.
    unfold g. simpl. rewrite Hm, Hw. destruct (_ || _) eqn:E; [by destruct local|].
    apply orb_false_elim in E as [E _]. apply bool_decide_eq_false in E.
    rewrite bool_decide_eq_true_2; [done|]. by destruct (m_mode s). }
  set (s1 := for_each_selected _ s) in *. clearbody s1.
  destruct (framed_members _ _ _ Hf) as (Hl & Hm & _).
  assert (∀ k, k ∈ m_list s → volume s1 k = g k (volume s k)) as Hloop'.
  { intros k Hk. by rewrite (Hloop k), decide_True. }
  unfold synchronize. simpl. rewrite Hm.
  destruct (m_mode s) eqn:Hmode.
  - destruct (_synchronize_unselected_volumes_spec
                (λ k v, get_volume_transformation v
                        = get_volume_transformation (g k (volume s k))) s1)
      as [_ HP].
    + intros a b va vb Ha Hb Hab Hpart Hobj _ _. rewrite Hl in Ha, Hb.
      destruct (same_part_framed s s1 a b Hf Hpart) as [Hpart' Ho].
      rewrite Ho in Hobj. destruct (Hdistinct eq_refl a b Ha Hb Hab Hpart' Hobj).
    + intros k Hk. rewrite Hl in Hk. by rewrite (Hloop' k Hk).
    + specialize (HP i). rewrite Hl in HP. specialize (HP Hi).
      unfold get_volume_offset. rewrite HP. unfold g. by rewrite bool_decide_eq_true_2.
  - destruct (_synchronize_unselected_instances_spec SYNC_ROTATION_NONE s1) as [_ Hsel].
    rewrite Hsel by by rewrite Hl. rewrite (Hloop' i Hi). unfold g. simpl.
    done.
Qed.

(** ** The transform operations keep the selection *)

Lemma framed_dirty {A} (π : GLVolume → A) s x b :
  framed π s x → framed π (with_m_bounding_box_dirty b s) (with_m_bounding_box_dirty b x).
Proof.
  intros [Hr Hv]. split; [|done].
  unfold rest_of, with_m_volumes, with_m_bounding_box_dirty in *. simpl in *.
  injection Hr as ?????????. congruence.
Qed.

Ltac framed_step :=
  first
    [ assumption
    | apply framed_refl
    | apply framed_update_volume; [by intros ?|]
    | match goal with
      | |- framed _ _ (if ?b then _ else _) => destruct b
      | |- framed _ _ (match ?m with Volume => _ | Instance => _ end) => destruct m
      | |- framed _ _ (fst (if ?b then _ else _)) => destruct b
      | |- framed _ _ (if ?b then _ else _).1 => destruct b
      | |- framed _ _ (match ?m with Volume => _ | Instance => _ end).1 => destruct m
      end
    | progress cbn [fst] ].

Lemma _synchronize_unselected_instances_framed `{Geometry} t s :
  framed marks s (_synchronize_unselected_instances t s).
Proof.
  destruct (_synchronize_unselected_instances_spec t s) as [Hf _].
  eapply framed_weaken; [|exact Hf]. apply shape_marks.
Qed.

Lemma _synchronize_unselected_volumes_framed `{Geometry} s :
  framed marks s (_synchronize_unselected_volumes s).
Proof.
  destruct (_synchronize_unselected_volumes_spec (λ _ _, True) s) as [Hf _]; [done..|].
  eapply framed_weaken; [|exact Hf]. apply placement_marks.
Qed.

Lemma synchronize_framed `{Geometry} t s : framed marks s (synchronize t s).
Proof.
  unfold synchronize. simpl. destruct (m_mode s).
  - apply _synchronize_unselected_volumes_framed.
  - apply _synchronize_unselected_instances_framed.
Qed.

Lemma _ensure_on_bed_framed `{Geometry} s : framed marks s (_ensure_on_bed s).
Proof.
  unfold _ensure_on_bed. apply framed_for_each_volume; [done|].
  intros i v st Hst. destruct (_ !! _); repeat framed_step.
Qed.

Lemma translate_framed `{Geometry} d l s :
  m_valid s = true → framed marks (with_m_bounding_box_dirty true s) (translate d l s).
Proof.
  intros Hv. unfold translate. rewrite Hv. simpl. apply framed_dirty.
  eapply framed_trans; [|apply synchronize_framed].
  apply framed_for_each_selected; [done|]. intros i st Hst. repeat framed_step.
Qed.

Lemma mirror_framed `{Geometry} a s :
  m_valid s = true → framed marks (with_m_bounding_box_dirty true s) (mirror a s).
Proof.
  intros Hv. unfold mirror. rewrite Hv. simpl. apply framed_dirty.
  eapply framed_trans; [|apply synchronize_framed].
  apply framed_for_each_selected; [done|]. intros i st Hst. repeat framed_step.
Qed.

Lemma scale_framed `{Geometry} f l s :
  m_valid s = true → framed marks (with_m_bounding_box_dirty true s) (scale f l s).
Proof.
  intros Hv. unfold scale. rewrite Hv. simpl. apply framed_dirty.
  eapply framed_trans; [|apply _ensure_on_bed_framed].
  eapply framed_trans; [|apply synchronize_framed].
  apply framed_for_each_selected; [done|]. intros i st Hst. repeat framed_step.
Qed.

Lemma flattening_rotate_framed `{Geometry} n s :
  m_valid s = true →
  framed marks (with_m_bounding_box_dirty true s) (flattening_rotate n s).
Proof.
  intros Hv. unfold flattening_rotate. rewrite Hv. simpl. apply framed_dirty.
  match goal with |- framed _ _ (if ?b then _ else ?x) =>
    assert (framed marks s x) as Hx end.
  { apply framed_for_each_selected; [done|]. intros i st Hst. repeat framed_step. }
  case_bool_decide; [|done].
  eapply framed_trans; [exact Hx|]. apply _synchronize_unselected_instances_framed.
Qed.

Lemma rotate_instance_framed `{Geometry} r a t i s st oif :
  framed marks s st → framed marks s (rotate_instance r a t i (st, oif)).1.
Proof.
  intros Hst. unfold rotate_instance. destruct (_ && _); cbn [fst]; repeat framed_step.
Qed.

Lemma rotate_framed `{Geometry} r t s :
  m_valid s = true → framed marks (with_m_bounding_box_dirty true s) (rotate r t s).
Proof.
  intros Hv. unfold rotate. rewrite Hv. simpl.
  destruct (isApprox r Vec3d_Zero); apply framed_dirty;
    (eapply framed_trans; [|apply synchronize_framed]).
  - apply framed_for_each_selected; [done|]. intros i st Hst. repeat framed_step.
  - apply (foldl_invariant (λ p, framed marks s p.1)); [done|].
    intros [st oif] i _ Hst. simpl in Hst.
    destruct (is_single_full_instance st); [by apply rotate_instance_framed|].
    destruct (_ || _).
    { destruct (tt_independent t); cbn [fst]; repeat framed_step. }
    destruct (m_mode st); [|by apply rotate_instance_framed].
    cbn [fst]. repeat framed_step.
Qed.

Lemma translate_object_framed o d s :
  m_valid s = true → framed marks (with_m_bounding_box_dirty true s) (translate_object o d s).
Proof.
  intros Hv. unfold translate_object. rewrite Hv. simpl. apply framed_dirty.
  apply (foldl_invariant (λ p, framed marks s p.1)).
  { simpl. apply framed_for_each_selected; [done|]. intros i st Hst. repeat framed_step. }
  intros [st done'] i _ Hst. simpl in Hst.
  case_bool_decide; [done|]. destruct (1000 <=? _)%Z; [done|].
  apply (foldl_invariant (λ p, framed marks s p.1)); [done|].
  clear Hst. intros [st' done''] j _ Hst. simpl in Hst.
  repeat case_bool_decide; try done. destruct (negb _); [done|].
  cbn [fst]. repeat framed_step.
Qed.

Lemma translate_instance_framed o k d s :
  m_valid s = true →
  framed marks (with_m_bounding_box_dirty true s) (translate_instance o k d s).
Proof.
  intros Hv. unfold translate_instance. rewrite Hv. simpl. apply framed_dirty.
  apply (foldl_invariant (λ p, framed marks s p.1)).
  { simpl. apply framed_for_each_selected; [done|]. intros i st Hst. repeat framed_step. }
  intros [st done'] i _ Hst. simpl in Hst.
  case_bool_decide; [done|]. destruct (1000 <=? _)%Z; [done|].
  apply (foldl_invariant (λ p, framed marks s p.1)); [done|].
  clear Hst. intros [st' done''] j _ Hst. simpl in Hst.
  repeat case_bool_decide; try done. destruct (_ || _); [done|].
  cbn [fst]. repeat framed_step.
Qed.

Lemma writes_placements_only_intro (op : Selection → Selection) :
  (∀ s, m_valid s = false → op s = s) →
  (∀ s, m_valid s = true → framed marks (with_m_bounding_box_dirty true s) (op s)) →
  writes_placements_only op.
Proof.
  intros H0 H1 s. destruct (m_valid s) eqn:E; [|by auto].
  specialize (H1 s E). destruct H1 as [Hrest Hvs].
  unfold rest_of, with_m_volumes, with_m_bounding_box_dirty in Hrest. simpl in Hrest.
  injection Hrest as Hmodel Hmode Htype Hvalid Hlist Hcache Hbox Hdirty Hcalls.
  split_and!; try done.
  - congruence.
  - unfold reads_alike. by rewrite Hcache.
Qed.

(** The transform operations write nothing but placements: [translate],
    [rotate], [flattening_rotate], [scale], [mirror] and the two translations
    of an object and of an instance, on a valid selection, leave the selected
    indices, the mode, the type, the binding and the cached bounding box as
    they are, send no request to the application, leave every read of the
    snapshot with the value it had, keep the length of the volume list and
    the indices and flags of every volume, and mark the bounding box as out
    of date; on a selection that is not valid they do nothing. *)
Theorem transforms_write_placements_only `{Geometry} :
  (∀ displacement local, writes_placements_only (translate displacement local))
  ∧ (∀ rotation transformation_type, writes_placements_only (rotate rotation transformation_type))
  ∧ (∀ normal, writes_placements_only (flattening_rotate normal))
  ∧ (∀ factors local, writes_placements_only (scale factors local))
  ∧ (∀ axis, writes_placements_only (mirror axis))
  ∧ (∀ object_idx_ displacement,
       writes_placements_only (translate_object object_idx_ displacement))
  ∧ (∀ object_idx_ instance_idx_ displacement,
       writes_placements_only (translate_instance object_idx_ instance_idx_ displacement)).
Proof.
  split_and!; intros; apply writes_placements_only_intro; intros s Hv;
    first [ by apply translate_framed | by apply rotate_framed
          | by apply flattening_rotate_framed | by apply scale_framed
          | by apply mirror_framed | by apply translate_object_framed
          | by apply translate_instance_framed | idtac ].
  - unfold translate. by rewrite Hv.
  - unfold rotate. by rewrite Hv.
  - unfold flattening_rotate. by rewrite Hv.
  - unfold scale. by rewrite Hv.
  - unfold mirror. by rewrite Hv.
  - unfold translate_object. by rewrite Hv.
  - unfold translate_instance. by rewrite Hv.
Qed.

(** A transform operation keeps the flags of the volumes in agreement with
    the selected indices. *)
Lemma writes_placements_only_flags_match op s :
  writes_placements_only op → flags_match s → flags_match (op s).
Proof.
  intros Hop Hs. specialize (Hop s). destruct (m_valid s); [|by rewrite Hop].
  destruct Hop as (Hl & _ & _ & _ & _ & _ & _ & _ & _ & Hvs).
  intros i. specialize (Hs i). rewrite Hl.
  apply (f_equal (λ l, l !! i)) in Hvs.
  rewrite !list_lookup_fmap in Hvs.
  destruct Hs as [Hin Hout]. split.
  - intros Hm. destruct (Hin Hm) as (v & Hv & Hsel). rewrite Hv in Hvs.
    destruct (volumes (op s) !! i) as [w|]; [|done]. simpl in Hvs.
    exists w. split; [done|]. apply (inj Some) in Hvs.
    apply marks_inv in Hvs as (_&_&_&_&_& Hs' &_). congruence.
  - intros w Hw Hm. rewrite Hw in Hvs.
    destruct (volumes s !! i) as [v|] eqn:Hv; [|done]. simpl in Hvs.
    apply (inj Some) in Hvs. apply marks_inv in Hvs as (_&_&_&_&_& Hs' &_).
    rewrite Hs'. by apply Hout.
Qed.

(** ** The drag-start snapshot *)

Lemma snapshot_lookup {A} (f : nat → A) n i :
  foldl (λ (d : gmap nat A) i, <[i := f i]> d) ∅ (seq 0 n) !! i
  = if decide (i < n) then Some (f i) else None.
Proof.
  induction n as [|n IH].
  - destruct (decide (i < 0)); [lia|]. cbn [seq foldl]. apply lookup_empty.
  - rewrite seq_S, foldl_app. simpl.
    destruct (decide (i = n)) as [->|Hne].
    + rewrite lookup_insert_eq. destruct (decide (n < S n)); [done|lia].
    + rewrite lookup_insert_ne by done. rewrite IH.
      destruct (decide (i < n)), (decide (i < S n)); try done; lia.
Qed.

Lemma start_dragging_volumes `{Geometry} s :
  volumes (start_dragging s) = volumes s ∧ m_list (start_dragging s) = m_list s
  ∧ m_mode (start_dragging s) = m_mode s ∧ m_valid (start_dragging s) = m_valid s
  ∧ m_type (start_dragging s) = m_type s.
Proof.
  unfold start_dragging. destruct (m_valid s) eqn:Hv; simpl; [|done].
  unfold _set_caches, get_bounding_box. simpl.
  destruct (m_bounding_box_dirty s); done.
Qed.

Lemma start_dragging_snapshot `{Geometry} s i :
  m_valid s = true → i < length (volumes s) →
  volume_data (m_cache (start_dragging s)) i
  = mkVolumeCache (TransformCache_of (get_volume_transformation (volume s i)))
                  (TransformCache_of (get_instance_transformation (volume s i))).
Proof.
  intros Hv Hi. unfold start_dragging. rewrite Hv. simpl.
  unfold _set_caches, get_bounding_box. simpl.
  destruct (m_bounding_box_dirty s); unfold volume_data; simpl;
    rewrite (snapshot_lookup
               (λ i, mkVolumeCache (TransformCache_of (get_volume_transformation (volume s i)))
                       (TransformCache_of (get_instance_transformation (volume s i)))));
    by destruct (decide (i < length (volumes s))).
Qed.

Lemma GLVolume_parts v w :
  marks v = marks w →
  get_volume_transformation v = get_volume_transformation w →
  get_instance_transformation v = get_instance_transformation w →
  v = w.
Proof.
  intros (?&?&?&?&?&?&?)%marks_inv ? ?. destruct v, w. simpl in *. congruence.
Qed.

Lemma restore_instance_placement v :
  set_instance_offset (get_instance_offset v)
    (set_instance_rotation (get_instance_rotation v) v) = v.
Proof. by destruct v as [???????? []]. Qed.

Lemma restore_volume_placement v :
  set_volume_offset (get_volume_offset v) (set_volume_rotation (get_volume_rotation v) v) = v.
Proof. by destruct v as [??????? [] ?]. Qed.

(** Taking the snapshot and rotating by a rotation that is zero leaves every
    selected volume as it was, provided that in [Volume] mode the selected
    volumes of one part are placed alike in their instances. *)
Theorem start_dragging_rotate_zero `{Geometry} (rotation : Vec3d)
    (transformation_type : TransformationType) (s : Selection) :
  m_valid s = true →
  isApprox rotation Vec3d_Zero = true →
  indices_in_range s →
  (m_mode s = Volume → parts_in_step s) →
  ∀ i, i ∈ m_list s →
    volume (rotate rotation transformation_type (start_dragging s)) i = volume s i.
Proof.
  intros Hv Hzero Hr Hstep i Hi.
  destruct (start_dragging_volumes s) as (Hvs & Hl0 & Hm0 & Hv0 & _).
  pose proof (λ k, start_dragging_snapshot s k Hv) as Hsnap.
  set (s0 := start_dragging s) in *. clearbody s0.
  assert (∀ k, volume s0 k = volume s k) as Hvol by (intros k; unfold volume; by rewrite Hvs).
  assert (indices_in_range s0) as Hr0.
  { intros k Hk. rewrite Hvs. apply Hr. by rewrite <-Hl0. }
  unfold rotate. rewrite Hv0, Hv, Hzero. simpl.
  destruct (rotate_restore_loop (m_cache s0) s0 Hr0) as [Hf Hrestore].
  set (s1 := for_each_selected _ s0) in *. clearbody s1.
  destruct (framed_members _ _ _ Hf) as (Hl & Hm & _).
  change (volume (with_m_bounding_box_dirty true ?x) i) with (volume x i).
  assert (∀ k, k ∈ m_list s → volume s1 k = volume s k) as Hsame.
  { intros k Hk. specialize (Hrestore k). rewrite Hl0 in Hrestore. specialize (Hrestore Hk).
    rewrite (Hsnap k (Hr k Hk)), Hvol in Hrestore.
    rewrite Hm0 in Hrestore. destruct (m_mode s); rewrite Hrestore.
    - apply restore_volume_placement.
    - apply restore_instance_placement. }
  rewrite Hm0 in Hm. rewrite Hl0 in Hl.
  destruct (m_mode s) eqn:Hmode.
  - unfold synchronize. simpl. rewrite Hm.
    destruct (_synchronize_unselected_volumes_spec
                (λ k v, get_volume_transformation v = get_volume_transformation (volume s k)) s1)
      as [Hf' HP].
    + intros a b va vb Ha Hb Hab Hpart Hobj Hva Ht. rewrite Hl in Ha, Hb.
      rewrite (Hsame a Ha), (Hsame b Hb) in Hpart. rewrite (Hsame a Ha) in Hobj.
      rewrite Ht, Hva. by apply (Hstep eq_refl).
    + intros k Hk. rewrite Hl in Hk. by rewrite (Hsame k Hk).
    + specialize (HP i). rewrite Hl in HP. specialize (HP Hi).
      pose proof (framed_view _ _ _ i Hf') as Hview.
      rewrite (Hsame i Hi) in Hview.
      apply GLVolume_parts; [by apply placement_marks|done|].
      by apply (f_equal snd) in Hview.
  - destruct (synchronize_selected SYNC_ROTATION_GENERAL s1 Hm) as [_ Hsel].
    rewrite Hsel by by rewrite Hl. by apply Hsame.
Qed.

(** ** The theorems on transforms at work *)

Lemma parts_distinct_check s : parts_distinct_test s = true → parts_distinct s.
Proof.
  intros Htest i j Hi Hj Hij [Ho Hk] Hobj.
  unfold parts_distinct_test in Htest. rewrite forallb_forall in Htest.
  specialize (Htest i). rewrite <-list_elem_of_In, elem_of_indices in Htest.
  specialize (Htest Hi). rewrite forallb_forall in Htest.
  specialize (Htest j). rewrite <-list_elem_of_In, elem_of_indices in Htest.
  specialize (Htest Hj).
  apply orb_true_iff in Htest as [Heq|Hne].
  - apply Nat.eqb_eq in Heq. done.
  - apply negb_true_iff in Hne.
    assert ((object_idx (volume s i) =? object_idx (volume s j))%Z = true) as E1
      by by apply Z.eqb_eq.
    assert ((volume_idx (volume s i) =? volume_idx (volume s j))%Z = true) as E2
      by by apply Z.eqb_eq.
    assert ((object_idx (volume s i) <? 1000)%Z = true) as E3 by by apply Z.ltb_lt.
    by rewrite E1, E2, E3 in Hne.
Qed.

Lemma parts_distinct_in_step s : parts_distinct s → parts_in_step s.
Proof. intros Hd i j Hi Hj Hij Hp Ho. destruct (Hd i j Hi Hj Hij Hp Ho). Qed.

Lemma parts_distinct_snapshots_agree s : parts_distinct s → snapshots_agree s.
Proof. intros Hd i j Hi Hj Hij Hp Ho. destruct (Hd i j Hi Hj Hij Hp Ho). Qed.

Lemma part_dragged_facts :
  m_valid part_dragged = true ∧ m_mode part_dragged = Volume
  ∧ is_single_full_instance part_dragged = false
  ∧ 1 ∈ m_list part_dragged
  ∧ indices_in_range part_dragged ∧ parts_distinct part_dragged.
Proof.
  split_and!.
  - vm_compute. reflexivity.
  - vm_compute. reflexivity.
  - vm_compute. reflexivity.
  - apply elem_of_indices. vm_compute. by left.
  - apply indices_in_range_check. vm_compute. reflexivity.
  - apply parts_distinct_check. vm_compute. reflexivity.
Qed.

Lemma part_selected_facts :
  m_valid part_selected = true ∧ m_mode part_selected = Volume
  ∧ 1 ∈ m_list part_selected
  ∧ indices_in_range part_selected ∧ parts_distinct part_selected.
Proof.
  split_and!.
  - vm_compute. reflexivity.
  - vm_compute. reflexivity.
  - apply elem_of_indices. vm_compute. by left.
  - apply indices_in_range_check. vm_compute. reflexivity.
  - apply parts_distinct_check. vm_compute. reflexivity.
Qed.

Lemma rotate_zero_restores_snapshot_witness :
  get_volume_rotation
    (volume (@rotate plain_geometry Vec3d_Zero (mkTransformationType false true false)
               part_dragged) 1)
  = get_volume_rotation_c (volume_data (m_cache part_dragged) 1)
  ∧ get_volume_offset
      (volume (@rotate plain_geometry Vec3d_Zero (mkTransformationType false true false)
                 part_dragged) 1)
    = get_volume_position (volume_data (m_cache part_dragged) 1).
Proof.
  destruct part_dragged_facts as (Hv & Hm & _ & Hi & Hr & Hd).
  pose proof (@rotate_zero_restores_snapshot plain_geometry Vec3d_Zero
                (mkTransformationType false true false) part_dragged Hv
                ltac:(vm_compute; reflexivity) Hr
                (λ _, parts_distinct_snapshots_agree _ Hd) 1 Hi) as W.
  cbv zeta in W. rewrite Hm in W. exact W.
Defined.

Lemma mirror_selected_witness :
  get_volume_mirror (volume (@mirror plain_geometry AxisX part_dragged) 1)
  = flip AxisX (get_volume_mirror (volume part_dragged 1)).
Proof.
  destruct part_dragged_facts as (Hv & Hm & Hs & Hi & Hr & Hd).
  pose proof (@mirror_selected plain_geometry AxisX part_dragged Hv Hr
                (λ _, parts_distinct_in_step _ Hd) 1 Hi) as W.
  cbv zeta in W. rewrite Hs, Hm in W. exact W.
Defined.

Lemma translate_selected_witness :
  get_volume_offset
    (volume (@translate plain_geometry (mkVec3d 1 2 3) false part_dragged) 1)
  = vadd (get_volume_position (volume_data (m_cache part_dragged) 1))
         (@local_displacement plain_geometry (volume_data (m_cache part_dragged) 1)
            (mkVec3d 1 2 3)).
Proof.
  destruct part_dragged_facts as (Hv & Hm & _ & Hi & Hr & Hd).
  pose proof (@translate_selected plain_geometry (mkVec3d 1 2 3) false part_dragged Hv Hr
                (λ _, Hd) 1 Hi) as W.
  cbv zeta in W. rewrite Hm in W. exact W.
Defined.

Lemma start_dragging_rotate_zero_witness :
  volume (@rotate plain_geometry Vec3d_Zero (mkTransformationType false true false)
            (@start_dragging plain_geometry part_selected)) 1
  = volume part_selected 1.
Proof.
  destruct part_selected_facts as (Hv & Hm & Hi & Hr & Hd).
  exact (@start_dragging_rotate_zero plain_geometry Vec3d_Zero
           (mkTransformationType false true false) part_selected Hv
           ltac:(vm_compute; reflexivity) Hr (λ _, parts_distinct_in_step _ Hd) 1 Hi).
Defined.

(** ** The index sets of the mutators by object, instance and part *)

Lemma for_each_volume_ext body1 body2 s :
  (∀ i v st, body1 i v st = body2 i v st) →
  for_each_volume body1 s = for_each_volume body2 s.
Proof.
  intros Hext. unfold for_each_volume. generalize (seq 0 (length (volumes s))).
  intros l. generalize s. induction l as [|x l IH]; intros st; simpl; [done|].
  by rewrite Hext, IH.
Qed.

Lemma m_list_reset_if_single (e : bool) s :
  m_valid s = true →
  ∀ j, j ∈ m_list (if e then clear s else s) ↔ e = false ∧ j ∈ m_list s.
Proof.
  intros Hv j. destruct e.
  - rewrite m_list_clear by done. set_solver.
  - naive_solver.
Qed.

Lemma m_list_add_where (p : GLVolume → bool) (m : EMode) (e : bool) s :
  on_identity p →
  m_valid s = true →
  ∀ j, j ∈ m_list (with_m_bounding_box_dirty true
                     (_update_type
                        (for_each_volume (λ i v st, if p v then _add_volume i st else st)
                           (with_m_mode m (if e then clear s else s)))))
       ↔ (e = false ∧ j ∈ m_list s) ∨ (j < length (volumes s) ∧ p (volume s j) = true).
Proof.
  intros Hp Hv j. rewrite m_list_finish.
  set (x := with_m_mode m (if e then clear s else s)).
  assert (same_scene s x) as Hsc by (subst x; scene).
  assert (j ∈ m_list x ↔ e = false ∧ j ∈ m_list s) as Hx
    by (subst x; by apply m_list_reset_if_single).
  clearbody x.
  destruct (m_list_add_loop (λ _, p) x) as (_ & _ & Hl); [done|].
  rewrite (Hl j), Hx, (same_scene_length _ _ Hsc).
  by rewrite (Hp _ _ (same_scene_identity _ _ j Hsc)).
Qed.

Lemma m_list_remove_where (p : GLVolume → bool) s :
  on_identity p →
  ∀ j, j ∈ m_list (with_m_bounding_box_dirty true
                     (_update_type
                        (for_each_volume (λ i v st, if p v then _remove_volume i st else st) s)))
       ↔ j ∈ m_list s ∧ ¬ (j < length (volumes s) ∧ p (volume s j) = true).
Proof.
  intros Hp j. rewrite m_list_finish.
  destruct (m_list_remove_loop (λ _, p) s) as (_ & _ & Hl); [done|].
  by rewrite (Hl j).
Qed.

(** [add_object], [add_instance] and [add_volume] select the volumes they
    name and nothing else: the index set after the call holds the indices
    selected before, unless the call is a single selection, and the indices
    of the volumes of the list with the object index, with the object and
    instance index, or with the object, volume and instance index given.
    [add_volume] with the instance index -1 adds nothing. *)
Theorem additions_index_set (s : Selection) :
  m_valid s = true →
  (∀ o e j,
     j ∈ m_list (add_object o e s)
     ↔ (e = false ∧ j ∈ m_list s)
       ∨ (j < length (volumes s) ∧ u32 (object_idx (volume s j)) = o))
  ∧ (∀ o k e j,
       j ∈ m_list (add_instance o k e s)
       ↔ (e = false ∧ j ∈ m_list s)
         ∨ (j < length (volumes s)
            ∧ u32 (object_idx (volume s j)) = o ∧ u32 (instance_idx (volume s j)) = k))
  ∧ (∀ o v k e j,
       j ∈ m_list (add_volume o v k e s)
       ↔ (e = false ∧ j ∈ m_list s)
         ∨ (j < length (volumes s)
            ∧ u32 (object_idx (volume s j)) = o ∧ u32 (volume_idx (volume s j)) = v
            ∧ k ≠ (-1)%Z ∧ instance_idx (volume s j) = k)).
Proof.
  intros Hv. split_and!.
  - intros o e j. unfold add_object, _add_object. rewrite Hv. simpl.
    rewrite (m_list_add_where (λ v, (u32 (object_idx v) =? o)%Z) Instance e s); [|..|done].
    + by rewrite Z.eqb_eq.
    + intros v w (Ho & _)%identity_of_inv. by rewrite Ho.
  - intros o k e j. unfold add_instance, _add_instance. rewrite Hv. simpl.
    rewrite (m_list_add_where
               (λ v, (u32 (object_idx v) =? o)%Z && (u32 (instance_idx v) =? k)%Z)
               Instance e s); [|..|done].
    + by rewrite andb_true_iff, !Z.eqb_eq.
    + intros v w (Ho & _ & Hk & _)%identity_of_inv. by rewrite Ho, Hk.
  - intros o v k e j. unfold add_volume. rewrite Hv. simpl.
    rewrite (for_each_volume_ext _
               (λ i w st,
                  if (u32 (object_idx w) =? o)%Z && (u32 (volume_idx w) =? v)%Z
                     && (negb (k =? -1)%Z && (instance_idx w =? k)%Z)
                  then _add_volume i st else st)).
    2:{ intros i w st. by destruct (_ && _), (negb _ && _). }
    rewrite (m_list_add_where
               (λ w, (u32 (object_idx w) =? o)%Z && (u32 (volume_idx w) =? v)%Z
                     && (negb (k =? -1)%Z && (instance_idx w =? k)%Z))
               Volume e s); [|..|done].
    + rewrite !andb_true_iff, negb_true_iff, !Z.eqb_eq, Z.eqb_neq. naive_solver.
    + intros w w' (Ho & Hvi & Hk & _)%identity_of_inv. by rewrite Ho, Hvi, Hk.
Qed.

Lemma additions_index_set_witness :
  (∀ o e j,
     j ∈ m_list (add_object o e object_selected)
     ↔ (e = false ∧ j ∈ m_list object_selected)
       ∨ (j < length (volumes object_selected)
          ∧ u32 (object_idx (volume object_selected j)) = o))
  ∧ (∀ o k e j,
       j ∈ m_list (add_instance o k e object_selected)
       ↔ (e = false ∧ j ∈ m_list object_selected)
         ∨ (j < length (volumes object_selected)
            ∧ u32 (object_idx (volume object_selected j)) = o
            ∧ u32 (instance_idx (volume object_selected j)) = k))
  ∧ (∀ o v k e j,
       j ∈ m_list (add_volume o v k e object_selected)
       ↔ (e = false ∧ j ∈ m_list object_selected)
         ∨ (j < length (volumes object_selected)
            ∧ u32 (object_idx (volume object_selected j)) = o
            ∧ u32 (volume_idx (volume object_selected j)) = v
            ∧ k ≠ (-1)%Z ∧ instance_idx (volume object_selected j) = k)).
Proof.
  apply additions_index_set. vm_compute. reflexivity.
Defined.

(** [remove_object], [remove_instance] and [remove_volume] take out of the
    index set the indices of the volumes of the list with the object index,
    with the object and instance index, or with the object and volume index
    given, and leave the other indices. *)
Theorem removals_index_set (s : Selection) :
  m_valid s = true →
  (∀ o j,
     j ∈ m_list (remove_object o s)
     ↔ j ∈ m_list s
       ∧ ¬ (j < length (volumes s) ∧ u32 (object_idx (volume s j)) = o))
  ∧ (∀ o k j,
       j ∈ m_list (remove_instance o k s)
       ↔ j ∈ m_list s
         ∧ ¬ (j < length (volumes s)
              ∧ u32 (object_idx (volume s j)) = o ∧ u32 (instance_idx (volume s j)) = k))
  ∧ (∀ o v j,
       j ∈ m_list (remove_volume o v s)
       ↔ j ∈ m_list s
         ∧ ¬ (j < length (volumes s)
              ∧ u32 (object_idx (volume s j)) = o ∧ u32 (volume_idx (volume s j)) = v)).
Proof.
  intros Hv. split_and!.
  - intros o j. unfold remove_object, _remove_object. rewrite Hv. simpl.
    rewrite (m_list_remove_where (λ v, (u32 (object_idx v) =? o)%Z) s).
    + by rewrite Z.eqb_eq.
    + intros v w (Ho & _)%identity_of_inv. by rewrite Ho.
  - intros o k j. unfold remove_instance, _remove_instance. rewrite Hv. simpl.
    rewrite (m_list_remove_where
               (λ v, (u32 (object_idx v) =? o)%Z && (u32 (instance_idx v) =? k)%Z) s).
    + by rewrite andb_true_iff, !Z.eqb_eq.
    + intros v w (Ho & _ & Hk & _)%identity_of_inv. by rewrite Ho, Hk.
  - intros o v j. unfold remove_volume. rewrite Hv. simpl.
    rewrite (m_list_remove_where
               (λ w, (u32 (object_idx w) =? o)%Z && (u32 (volume_idx w) =? v)%Z) s).
    + by rewrite andb_true_iff, !Z.eqb_eq.
    + intros w w' (Ho & Hvi & _)%identity_of_inv. by rewrite Ho, Hvi.
Qed.

Lemma removals_index_set_witness :
  (∀ o j,
     j ∈ m_list (remove_object o object_selected)
     ↔ j ∈ m_list object_selected
       ∧ ¬ (j < length (volumes object_selected)
            ∧ u32 (object_idx (volume object_selected j)) = o))
  ∧ (∀ o k j,
       j ∈ m_list (remove_instance o k object_selected)
       ↔ j ∈ m_list object_selected
         ∧ ¬ (j < length (volumes object_selected)
              ∧ u32 (object_idx (volume object_selected j)) = o
              ∧ u32 (instance_idx (volume object_selected j)) = k))
  ∧ (∀ o v j,
       j ∈ m_list (remove_volume o v object_selected)
       ↔ j ∈ m_list object_selected
         ∧ ¬ (j < length (volumes object_selected)
              ∧ u32 (object_idx (volume object_selected j)) = o
              ∧ u32 (volume_idx (volume object_selected j)) = v)).
Proof.
  apply removals_index_set. vm_compute. reflexivity.
Defined.

(** [remove_object], [remove_instance] and [remove_volume] keep the flags of
    the volumes in agreement with the index set. *)
Theorem removals_keep_flags_match (s : Selection) :
  flags_match s →
  (∀ o, flags_match (remove_object o s))
  ∧ (∀ o k, flags_match (remove_instance o k s))
  ∧ (∀ o v, flags_match (remove_volume o v s)).
Proof.
  intros Hs. apply flags_match_on_intro in Hs. split_and!.
  - intros o. unfold remove_object. destruct (negb _); [by destruct Hs|].
    refine (proj1 (flags_match_on_finish (length (volumes s)) _ _)).
    apply flags_match_on_for_each_volume; [done|].
    intros i v st Hi Hst. destruct (_ =? _)%Z; [by apply flags_match_on__remove_volume|done].
  - intros o k. unfold remove_instance. destruct (negb _); [by destruct Hs|].
    refine (proj1 (flags_match_on_finish (length (volumes s)) _ _)).
    by apply flags_match_on__remove_instance.
  - intros o v. unfold remove_volume. destruct (negb _); [by destruct Hs|].
    refine (proj1 (flags_match_on_finish (length (volumes s)) _ _)).
    apply flags_match_on_for_each_volume; [done|].
    intros i w st Hi Hst. destruct (_ && _); [by apply flags_match_on__remove_volume|done].
Qed.

Lemma removals_keep_flags_match_witness :
  (∀ o, flags_match (remove_object o second_part_selected))
  ∧ (∀ o k, flags_match (remove_instance o k second_part_selected))
  ∧ (∀ o v, flags_match (remove_volume o v second_part_selected)).
Proof.
  apply removals_keep_flags_match. apply flags_match_second_part_selected.
Defined.

(** ** Deletion of parts *)

Lemma elem_of_pairs_in_order ps p : p ∈ pairs_in_order ps ↔ p ∈ ps.
Proof. unfold pairs_in_order. rewrite merge_sort_Permutation. apply elem_of_elements. Qed.

Lemma NoDup_pairs_in_order ps : NoDup (pairs_in_order ps).
Proof. unfold pairs_in_order. rewrite merge_sort_Permutation. apply NoDup_elements. Qed.

(** The pairs the last branch of [erase] collects. *)
Lemma erase_collects_parts s (p : Z * Z) :
  p ∈ foldl (λ (acc : gset (Z * Z)) i,
               let v := volume s i in
               if (0 <=? volume_idx v)%Z then acc ∪ {[(object_idx v, volume_idx v)]} else acc)
            ∅ (indices (m_list s))
  ↔ (0 ≤ p.2)%Z
    ∧ ∃ i, i ∈ m_list s ∧ object_idx (volume s i) = p.1 ∧ volume_idx (volume s i) = p.2.
Proof.
  set (Q (pre : list nat) (acc : gset (Z * Z)) :=
         p ∈ acc ↔ (0 ≤ p.2)%Z
                   ∧ ∃ i, i ∈ pre ∧ object_idx (volume s i) = p.1
                          ∧ volume_idx (volume s i) = p.2).
  match goal with |- context [foldl ?f ∅ ?l] => assert (Q l (foldl f ∅ l)) as HQ end.
  { apply (foldl_prefix_invariant Q).
    - unfold Q. split; [set_solver|]. intros (_ & i & Hi & _). by apply elem_of_nil in Hi.
    - intros pre x acc _ Hacc. unfold Q in *. simpl.
      destruct (0 <=? volume_idx (volume s x))%Z eqn:E.
      + apply Z.leb_le in E. rewrite elem_of_union, Hacc, elem_of_singleton. split.
        * intros [(H0 & i & Hi & Ho & Hk)| ->].
          -- split; [done|]. exists i. split; [apply elem_of_app; by left|done].
          -- split; [done|]. exists x.
             split; [apply elem_of_app; right; by apply list_elem_of_singleton|done].
        * intros (H0 & i & Hi & Ho & Hk).
          apply elem_of_app in Hi as [Hi|Hi]; [left; split; [done|]; by exists i|].
          apply list_elem_of_singleton in Hi as ->. right.
          destruct p; simpl in *; congruence.
      + apply Z.leb_gt in E. rewrite Hacc. split; intros (H0 & i & Hi & Ho & Hk).
        * split; [done|]. exists i. split; [apply elem_of_app; by left|done].
        * split; [done|]. apply elem_of_app in Hi as [Hi|Hi]; [by exists i|].
          apply list_elem_of_singleton in Hi as ->. lia. }
  unfold Q in HQ. rewrite HQ. by setoid_rewrite elem_of_indices.
Qed.

(** When the selection is none of a full object, full objects, full
    instances, a full instance or mixed, [erase] sends one request list to
    the object list and changes nothing else: the list holds one request to
    delete a part for each pair of object and volume index of a selected
    volume whose volume index is not negative, and no other request; the
    auxiliary meshes (negative volume index) are left out. *)
Theorem erase_parts (s : Selection) :
  m_valid s = true →
  is_single_full_object s = false →
  is_multiple_full_object s = false →
  is_multiple_full_instance s = false →
  is_single_full_instance s = false →
  is_mixed s = false →
  ∃ items,
    erase s = call (delete_from_model_and_list items) s
    ∧ NoDup items
    ∧ ∀ it, it ∈ items
            ↔ item_type it = itVolume
              ∧ (0 ≤ sub_obj_idx it)%Z
              ∧ ∃ i, i ∈ m_list s
                     ∧ object_idx (volume s i) = obj_idx it
                     ∧ volume_idx (volume s i) = sub_obj_idx it.
Proof.
  intros Hv H1 H2 H3 H4 H5. unfold erase. rewrite Hv, H1, H2, H3, H4, H5. simpl.
  eexists. split; [reflexivity|]. split.
  - apply NoDup_fmap_2; [|apply NoDup_pairs_in_order].
    intros [o k] [o' k'] [= -> ->]. done.
  - intros it. rewrite list_elem_of_fmap. split.
    + intros ([o k] & -> & Hp). apply elem_of_pairs_in_order in Hp.
      apply erase_collects_parts in Hp as (H0 & i & Hi & Ho & Hk). simpl in *.
      split; [done|]. split; [done|]. by exists i.
    + intros (Ht & H0 & i & Hi & Ho & Hk).
      exists (obj_idx it, sub_obj_idx it). split.
      * destruct it. simpl in *. by subst.
      * apply elem_of_pairs_in_order, erase_collects_parts. simpl.
        split; [done|]. by exists i.
Qed.

Lemma erase_parts_witness :
  ∃ items,
    erase first_part_selected = call (delete_from_model_and_list items) first_part_selected
    ∧ NoDup items
    ∧ ∀ it, it ∈ items
            ↔ item_type it = itVolume
              ∧ (0 ≤ sub_obj_idx it)%Z
              ∧ ∃ i, i ∈ m_list first_part_selected
                     ∧ object_idx (volume first_part_selected i) = obj_idx it
                     ∧ volume_idx (volume first_part_selected i) = sub_obj_idx it.
Proof.
  apply erase_parts; vm_compute; reflexivity.
Defined.

(** ** The content of the selection: objects and their instances *)


Lemma content__update_type s : content (m_cache (_update_type s)) = build_content s.
Proof.
  unfold _update_type. destruct (classify _) as [[ty force] dis].
  by destruct force, s as [[?|] ? ? ? ? ? ? ? ? ?].
Qed.





(** ** What the classification does to the mode and to the volumes *)

Lemma classify_flags s :
  (classify s).1.2 = is_full_type (classify s).1.1
  ∧ (classify s).2 = is_parts_type (classify s).1.1.
Proof.
  unfold classify. repeat case_match; simpl; done.
Qed.

Lemma classify_Invalid s : (classify s).1.1 = Invalid ↔ m_valid s = false.
Proof.
  unfold classify. destruct (m_valid s); simpl; [|done].
  split; [|done]. repeat case_match; simpl; done.
Qed.

Lemma _update_type_unfold s :
  let c := classify (with_m_type Mixed (with_content (build_content s) s)) in
  m_type (_update_type s) = c.1.1
  ∧ m_mode (_update_type s) = (if c.1.2 then Instance else m_mode s)
  ∧ volumes (_update_type s)
    = (λ v, set_disabled
              (if c.2
               then negb (object_idx v =? get_object_idx (with_content (build_content s) s))%Z
                    || negb (instance_idx v
                             =? get_instance_idx (with_content (build_content s) s))%Z
               else false) v) <$> volumes s.
Proof.
  simpl. unfold _update_type. destruct (classify _) as [[ty force] dis].
  destruct force, s as [[l|] ? ? ? ? ? ? ? ? ?]; done.
Qed.

(** The classification that ends every mutator, on a selection whose volume
    list is set and whose selected indices are indices of the list: the type
    is [Invalid] exactly for a selection that is not valid and [Empty]
    exactly for a valid one with nothing selected; a type of full objects or
    instances sets the mode to [Instance] and every other type leaves the
    mode; and a volume is drawn disabled exactly when the type is one of
    parts or modifiers and the volume is outside the object and instance of
    the selection. *)
Theorem classification_effects (s : Selection) :
  is_Some (m_volumes s) →
  indices_in_range s →
  (m_type (_update_type s) = Invalid ↔ m_valid s = false)
  ∧ (m_type (_update_type s) = Empty ↔ m_valid s = true ∧ m_list s = ∅)
  ∧ m_mode (_update_type s)
    = (if is_full_type (m_type (_update_type s)) then Instance else m_mode s)
  ∧ length (volumes (_update_type s)) = length (volumes s)
  ∧ ∀ i v, volumes (_update_type s) !! i = Some v →
           disabled v
           = is_parts_type (m_type (_update_type s))
             && (negb (object_idx v =? get_object_idx (_update_type s))%Z
                 || negb (instance_idx v =? get_instance_idx (_update_type s))%Z).
Proof.
  intros _ _. split; [|split].
  - rewrite m_type__update_type. exact (classify_Invalid _).
  - apply m_type__update_type_Empty.
  - assert (get_object_idx (_update_type s)
            = get_object_idx (with_content (build_content s) s)) as Ho.
    { unfold get_object_idx. by rewrite content__update_type. }
    assert (get_instance_idx (_update_type s)
            = get_instance_idx (with_content (build_content s) s)) as Hk.
    { unfold get_instance_idx. by rewrite content__update_type. }
    rewrite Ho, Hk.
    destruct (_update_type_unfold s) as (Hty & Hmode & Hvs).
    destruct (classify_flags (with_m_type Mixed (with_content (build_content s) s)))
      as [Hforce Hdis].
    rewrite Hty, Hmode, Hvs, Hforce, Hdis. split; [done|]. split.
    + by rewrite length_fmap.
    + intros i v. rewrite list_lookup_fmap.
      destruct (volumes s !! i) as [w|]; simpl; [|done].
      intros [= <-]. simpl. by destruct (is_parts_type _).
Qed.

(** One part of the first of two instances is selected: the type is that of
    a single part, the mode stays [Volume], and the volumes of the second
    instance are drawn disabled. *)
Lemma classification_effects_witness :
  (m_mode part_selected = Volume
   ∧ m_type (_update_type part_selected) = SingleVolume
   ∧ disabled <$> volumes (_update_type part_selected) = [false; false; true; true])
  ∧ (m_type (_update_type part_selected) = Invalid ↔ m_valid part_selected = false)
  ∧ (m_type (_update_type part_selected) = Empty
     ↔ m_valid part_selected = true ∧ m_list part_selected = ∅)
  ∧ m_mode (_update_type part_selected)
    = (if is_full_type (m_type (_update_type part_selected))
       then Instance else m_mode part_selected)
  ∧ length (volumes (_update_type part_selected)) = length (volumes part_selected)
  ∧ ∀ i v, volumes (_update_type part_selected) !! i = Some v →
           disabled v
           = is_parts_type (m_type (_update_type part_selected))
             && (negb (object_idx v =? get_object_idx (_update_type part_selected))%Z
                 || negb (instance_idx v
                          =? get_instance_idx (_update_type part_selected))%Z).
Proof.
  split; [vm_compute; done|].
  apply (classification_effects part_selected).
  - vm_compute. eauto.
  - apply indices_in_range_check. vm_compute. reflexivity.
Defined.

(** ** The index set after the volume list was rebuilt *)

(** The first loop of [volumes_changed]: the instances that are kept, in
    [Instance] mode. *)
Lemma volumes_changed_model_instances (map_volume_old_to_new : list Z) (s : Selection) :
  ∀ p,
    p ∈ snd (foldl (λ '(list_new, model_instances) idx,
               let m : Z := map_volume_old_to_new !!! idx in
               if negb (m =? size_t_max)%Z then
                 let new_idx := Z.to_nat (u32 m) in
                 let list_new : gset nat := list_new ∪ {[new_idx]} in
                 if bool_decide (m_mode s = Instance) then
                   let v := volume s new_idx in
                   (list_new,
                    model_instances ++ [(u32 (object_idx v), u32 (instance_idx v))])
                 else (list_new, model_instances)
               else (list_new, model_instances))
            (∅, []) (indices (m_list s)))
    ↔ m_mode s = Instance
      ∧ ∃ idx k0, idx ∈ m_list s ∧ new_index map_volume_old_to_new idx = Some k0
                  ∧ p = (u32 (object_idx (volume s k0)), u32 (instance_idx (volume s k0))).
Proof.
  set (f := λ '(list_new, model_instances) idx, _).
  set (Q (pre : list nat) (acc : gset nat * list (Z * Z)) :=
         ∀ p, p ∈ acc.2
              ↔ m_mode s = Instance
                ∧ ∃ idx k0, idx ∈ pre ∧ new_index map_volume_old_to_new idx = Some k0
                            ∧ p = (u32 (object_idx (volume s k0)),
                                   u32 (instance_idx (volume s k0)))).
  assert (Q (indices (m_list s)) (foldl f (∅, []) (indices (m_list s)))) as HQ.
  { apply (foldl_prefix_invariant Q).
    - intros p. simpl. split; [by intros ?%elem_of_nil|].
      intros (_ & idx & k0 & Hidx & _). by apply elem_of_nil in Hidx.
    - intros pre x [ln mi] _ Hpre p. unfold f. simpl in *.
      unfold new_index in *.
      destruct (map_volume_old_to_new !!! x =? size_t_max)%Z eqn:E; simpl.
      + rewrite (Hpre p). split; intros (Hm & idx & k0 & Hidx & Hk & Hp).
        * split; [done|]. exists idx, k0. split; [apply elem_of_app; by left|done].
        * split; [done|]. apply elem_of_app in Hidx as [Hidx|Hidx]; [by exists idx, k0|].
          apply list_elem_of_singleton in Hidx as ->. rewrite E in Hk. done.
      + case_bool_decide as Hm; simpl.
        * rewrite elem_of_app, (Hpre p), list_elem_of_singleton. split.
          -- intros [(_ & idx & k0 & Hidx & Hk & Hp)| ->]; (split; [done|]).
             ++ exists idx, k0. split; [apply elem_of_app; by left|done].
             ++ exists x, (Z.to_nat (u32 (map_volume_old_to_new !!! x))).
                split; [apply elem_of_app; right; by apply list_elem_of_singleton|].
                by rewrite E.
          -- intros (_ & idx & k0 & Hidx & Hk & Hp).
             apply elem_of_app in Hidx as [Hidx|Hidx].
             ++ left. split; [done|]. by exists idx, k0.
             ++ apply list_elem_of_singleton in Hidx as ->. rewrite E in Hk.
                right. by simplify_eq.
        * rewrite (Hpre p). split; by intros [? _]. }
  intros p. rewrite (HQ p). by setoid_rewrite elem_of_indices.
Qed.

Lemma m_list_add_loop_at (p : nat → bool) body s :
  (∀ i st, same_scene s st →
           same_scene s (body i (volume st i) st)
           ∧ ∀ j, j ∈ m_list (body i (volume st i) st) ↔ j ∈ m_list st ∨ (j = i ∧ p i = true)) →
  ∀ j, j ∈ m_list (for_each_volume body s)
       ↔ j ∈ m_list s ∨ (j < length (volumes s) ∧ p j = true).
Proof.
  intros Hbody. unfold for_each_volume.
  set (Q (pre : list nat) st :=
         same_scene s st ∧ ∀ j, j ∈ m_list st ↔ j ∈ m_list s ∨ (j ∈ pre ∧ p j = true)).
  match goal with |- context [foldl ?f s ?l] => assert (Q l (foldl f s l)) as [_ HQ] end.
  { apply (foldl_prefix_invariant Q).
    - split; [apply same_scene_refl|]. intros j. split; [by left|].
      intros [?|[Hj _]]; [done|]. by apply elem_of_nil in Hj.
    - intros pre x st _ [Hsc Hl]. destruct (Hbody x st Hsc) as [Hsc' Hl'].
      split; [done|]. intros j. rewrite (Hl' j), (Hl j), elem_of_app, list_elem_of_singleton.
      naive_solver. }
  intros j. rewrite (HQ j), elem_of_seq.
  split; (intros [?|[??]]; [by left|right; split; [lia|done]]).
Qed.

(** The inner loop of the second part of [volumes_changed]. *)
Lemma volumes_changed_add_one s i (l : list (Z * Z)) st :
  same_scene s st →
  let r := foldl (λ st' '(first, second),
                    let v := volume st' i in
                    if (object_idx v =? s32 first)%Z && (instance_idx v =? s32 second)%Z
                    then _add_volume i st' else st') st l in
  same_scene s r
  ∧ ∀ j, j ∈ m_list r
         ↔ j ∈ m_list st
           ∨ (j = i
              ∧ existsb (λ '(first, second),
                           (object_idx (volume s i) =? s32 first)%Z
                           && (instance_idx (volume s i) =? s32 second)%Z) l = true).
Proof.
  simpl. revert st. induction l as [|[a b] l IH]; intros st Hsc; simpl.
  - split; [done|]. intros j. naive_solver.
  - pose proof (same_scene_identity _ _ i Hsc) as (Ho & _ & Hk & _)%identity_of_inv.
    rewrite Ho, Hk.
    destruct ((object_idx (volume s i) =? s32 a)%Z && (instance_idx (volume s i) =? s32 b)%Z);
      simpl.
    + destruct (IH (_add_volume i st)) as [Hsc' Hl]; [by apply scene__add_volume|].
      split; [done|]. intros j. rewrite (Hl j). unfold _add_volume. simpl.
      rewrite elem_of_union, elem_of_singleton. naive_solver.
    + by apply IH.
Qed.

Lemma elem_of_sort_remove_duplicates l p : p ∈ sort_remove_duplicates l ↔ p ∈ l.
Proof.
  unfold sort_remove_duplicates. rewrite elem_of_remove_dups.
  by rewrite merge_sort_Permutation.
Qed.

(** [volumes_changed] takes the index set through the index map.  On a
    valid selection bound to the rebuilt list, with an index map that has an
    entry for every selected index and sends it to an index of the list, an
    index is selected afterwards exactly when it is the new place of a
    selected volume that survives or, in [Instance] mode, the index of a
    volume of the rebuilt list with the object and instance index of the
    volume at such a new place. *)
Theorem volumes_changed_index_set (map_volume_old_to_new : list Z) (s : Selection) :
  bound s →
  index_map_fits map_volume_old_to_new s →
  ∀ k, k ∈ m_list (volumes_changed map_volume_old_to_new s)
       ↔ (∃ idx, idx ∈ m_list s ∧ new_index map_volume_old_to_new idx = Some k)
         ∨ (m_mode s = Instance
            ∧ k < length (volumes s)
            ∧ ∃ idx k0,
                idx ∈ m_list s ∧ new_index map_volume_old_to_new idx = Some k0
                ∧ object_idx (volume s k) = s32 (u32 (object_idx (volume s k0)))
                ∧ instance_idx (volume s k) = s32 (u32 (instance_idx (volume s k0)))).
Proof.
  intros _ _ k. unfold volumes_changed.
  pose proof (volumes_changed_list_new map_volume_old_to_new s) as Hnew.
  pose proof (volumes_changed_model_instances map_volume_old_to_new s) as Hmi.
  destruct (foldl _ _ _) as [list_new model_instances]. simpl in Hnew, Hmi.
  rewrite m_list_finish.
  assert (existsb (λ '(first, second),
                     (object_idx (volume s k) =? s32 first)%Z
                     && (instance_idx (volume s k) =? s32 second)%Z)
                  (sort_remove_duplicates model_instances) = true
          ↔ m_mode s = Instance
            ∧ ∃ idx k0,
                idx ∈ m_list s ∧ new_index map_volume_old_to_new idx = Some k0
                ∧ object_idx (volume s k) = s32 (u32 (object_idx (volume s k0)))
                ∧ instance_idx (volume s k) = s32 (u32 (instance_idx (volume s k0)))) as Hex.
  { rewrite existsb_exists. split.
    - intros ([a b] & Hin & Htest).
      apply list_elem_of_In, elem_of_sort_remove_duplicates, Hmi in Hin
        as (Hm & idx & k0 & Hidx & Hk0 & [= -> ->]).
      apply andb_true_iff in Htest as [Ho%Z.eqb_eq Hk%Z.eqb_eq].
      split; [done|]. by exists idx, k0.
    - intros (Hm & idx & k0 & Hidx & Hk0 & Ho & Hk).
      exists (u32 (object_idx (volume s k0)), u32 (instance_idx (volume s k0))). split.
      + apply list_elem_of_In, elem_of_sort_remove_duplicates, Hmi.
        split; [done|]. by exists idx, k0.
      + rewrite andb_true_iff, !Z.eqb_eq. done. }
  case_bool_decide as Hempty; simpl.
  - simpl_sel. rewrite (Hnew k). split; [by left|]. intros [?|(Hm & _ & Hr)]; [done|].
    exfalso. destruct Hr as (idx & k0 & Hidx & Hk0 & _).
    assert ((u32 (object_idx (volume s k0)), u32 (instance_idx (volume s k0)))
            ∈ model_instances) as Hin.
    { apply Hmi. split; [done|]. by exists idx, k0. }
    rewrite Hempty in Hin. by apply elem_of_nil in Hin.
  - rewrite (m_list_add_loop_at
               (λ i, existsb (λ '(first, second),
                                (object_idx (volume (with_m_list list_new s) i) =? s32 first)%Z
                                && (instance_idx (volume (with_m_list list_new s) i)
                                    =? s32 second)%Z)
                             (sort_remove_duplicates model_instances))).
    + simpl_sel. rewrite (Hnew k).
      change (volume (with_m_list list_new s)) with (volume s).
      rewrite Hex. naive_solver.
    + intros i st Hsc. by apply volumes_changed_add_one.
Qed.

Lemma index_map_fits_check map_volume_old_to_new s :
  forallb (λ idx, (idx <? length map_volume_old_to_new)
                  && match new_index map_volume_old_to_new idx with
                     | Some k => k <? length (volumes s)
                     | None => true
                     end) (indices (m_list s)) = true →
  index_map_fits map_volume_old_to_new s.
Proof.
  rewrite forallb_forall. intros Hall.
  assert (∀ idx, idx ∈ m_list s →
                 idx < length map_volume_old_to_new
                 ∧ ∀ k, new_index map_volume_old_to_new idx = Some k →
                        k < length (volumes s)) as H.
  { intros idx Hidx%elem_of_indices%list_elem_of_In.
    apply Hall, andb_true_iff in Hidx as [Hlt%Nat.ltb_lt Hk]. split; [done|].
    intros k Hnew. rewrite Hnew in Hk. by apply Nat.ltb_lt. }
  split.
  - intros idx Hidx. by destruct (H idx Hidx).
  - intros idx k Hidx. by destruct (H idx Hidx) as [_ Hk]; apply Hk.
Qed.

(** The first object is selected in [Instance] mode and its second part is
    replaced by a new part: the first part is followed to the index 2, the
    part that was removed drops out, and the new part at the index 1 is
    selected as a volume of the selected instance. *)
Lemma volumes_changed_index_set_witness :
  (m_mode (rebuild scene_reloaded object_selected_before_reload) = Instance
   ∧ indices (m_list (rebuild scene_reloaded object_selected_before_reload)) = [0; 1]
   ∧ indices (m_list (volumes_changed map_reloaded
                        (rebuild scene_reloaded object_selected_before_reload))) = [1; 2])
  ∧ (1 ∈ m_list (volumes_changed map_reloaded
                   (rebuild scene_reloaded object_selected_before_reload))
     ↔ (∃ idx, idx ∈ m_list (rebuild scene_reloaded object_selected_before_reload)
               ∧ new_index map_reloaded idx = Some 1)
       ∨ (m_mode (rebuild scene_reloaded object_selected_before_reload) = Instance
          ∧ 1 < length (volumes (rebuild scene_reloaded object_selected_before_reload))
          ∧ ∃ idx k0,
              idx ∈ m_list (rebuild scene_reloaded object_selected_before_reload)
              ∧ new_index map_reloaded idx = Some k0
              ∧ object_idx (volume (rebuild scene_reloaded object_selected_before_reload) 1)
                = s32 (u32 (object_idx
                              (volume (rebuild scene_reloaded object_selected_before_reload)
                                 k0)))
              ∧ instance_idx (volume (rebuild scene_reloaded object_selected_before_reload) 1)
                = s32 (u32 (instance_idx
                              (volume (rebuild scene_reloaded object_selected_before_reload)
                                 k0))))).
Proof.
  split; [vm_compute; done|].
  apply (volumes_changed_index_set map_reloaded
           (rebuild scene_reloaded object_selected_before_reload)).
  - vm_compute. eauto.
  - apply index_map_fits_check. vm_compute. reflexivity.
Defined.

(** ** What the synchronisation of volumes copies *)

Lemma same_part_test_spec v w : same_part_test v w = true ↔ same_part v w.
Proof. unfold same_part_test, same_part. by rewrite andb_true_iff, !Z.eqb_eq. Qed.

Lemma find_snoc {A} (p : A → bool) l x :
  find p (l ++ [x]) = match find p l with
                      | Some y => Some y
                      | None => if p x then Some x else None
                      end.
Proof. induction l as [|a l IH]; simpl; [done|]. by destruct (p a). Qed.

Lemma part_leader_snoc s pre x j :
  part_leader s (pre ++ [x]) j
  = match find (λ i, same_part_test (volume s i) (volume s j)
                     && (object_idx (volume s i) <? 1000)%Z) pre with
    | Some _ => part_leader s pre j
    | None =>
        if same_part_test (volume s x) (volume s j) && (object_idx (volume s x) <? 1000)%Z
        then x else j
    end.
Proof.
  unfold part_leader. rewrite find_snoc. destruct (find _ pre); [done|].
  by destruct (_ && _).
Qed.

Lemma part_leader_same_part s pre j j' :
  same_part (volume s j) (volume s j') →
  find (λ i, same_part_test (volume s i) (volume s j)
             && (object_idx (volume s i) <? 1000)%Z) pre
  = find (λ i, same_part_test (volume s i) (volume s j')
               && (object_idx (volume s i) <? 1000)%Z) pre.
Proof.
  intros [Ho Hk]. induction pre as [|a l IH]; simpl; [done|]. rewrite IH.
  assert (same_part_test (volume s a) (volume s j)
          = same_part_test (volume s a) (volume s j')) as ->
    by (unfold same_part_test; by rewrite Ho, Hk).
  done.
Qed.

(** The inner loop of [_synchronize_unselected_volumes] for the selected
    volume [x]. *)
Lemma sync_volumes_inner s st x :
  framed outside_volume_placement s st →
  let r :=
    for_each_volume (λ j v st',
      if bool_decide (j = x) then st'
      else if negb (object_idx v =? object_idx (volume st x))%Z
              || negb (volume_idx v =? volume_idx (volume st x))%Z
      then st'
      else
        let st' := update_volume j (set_volume_offset (get_volume_offset (volume st x))) st' in
        let st' :=
          update_volume j (set_volume_rotation (get_volume_rotation (volume st x))) st' in
        let st' :=
          update_volume j
            (set_volume_scaling_factor (get_volume_scaling_factor (volume st x))) st' in
        update_volume j (set_volume_mirror (get_volume_mirror (volume st x))) st') st in
  framed outside_volume_placement s r
  ∧ ∀ j, j < length (volumes s) →
         get_volume_transformation (volume r j)
         = if decide (j ≠ x ∧ same_part_test (volume s j) (volume s x) = true)
           then get_volume_transformation (volume st x)
           else get_volume_transformation (volume st j).
Proof.
  intros Hf. simpl. unfold for_each_volume.
  set (Q (pre : list nat) st' :=
         framed outside_volume_placement s st'
         ∧ ∀ j, get_volume_transformation (volume st' j)
                = if decide (j ∈ pre ∧ j ≠ x
                             ∧ same_part_test (volume s j) (volume s x) = true)
                  then get_volume_transformation (volume st x)
                  else get_volume_transformation (volume st j)).
  match goal with |- context [foldl ?f st ?l] => assert (Q l (foldl f st l)) as [Hf' HQ] end.
  { apply (foldl_prefix_invariant Q).
    - split; [done|]. intros j. rewrite decide_False; [done|].
      intros [Hj _]. by apply elem_of_nil in Hj.
    - intros pre j st' [post Hl] [Hf' HQ].
      assert (j < length (volumes st)) as Hj.
      { assert (j ∈ seq 0 (length (volumes st))) as Hin
          by (rewrite Hl; apply elem_of_app; right; by left).
        apply elem_of_seq in Hin. lia. }
      assert (j ∉ pre) as Hfresh.
      { eapply NoDup_prefix_fresh; [apply NoDup_seq|done]. }
      pose proof (framed_view _ _ _ j Hf') as (Hoj & Hkj & _)%placement_marks%marks_inv.
      pose proof (framed_view _ _ _ x Hf) as (Hox & Hkx & _)%placement_marks%marks_inv.
      rewrite Hoj, Hkj, Hox, Hkx.
      assert (∀ (b : bool) (y : Selection),
                (∀ k, get_volume_transformation (volume y k)
                      = if decide (k = j ∧ b = true)
                        then get_volume_transformation (volume st x)
                        else get_volume_transformation (volume st' k)) →
                framed outside_volume_placement s y →
                b = (if decide (j ≠ x ∧ same_part_test (volume s j) (volume s x) = true)
                     then true else false) →
                Q (pre ++ [j]) y) as Hclose.
      { intros b y Hy Hfy Hb. split; [done|]. intros k. rewrite (Hy k), (HQ k).
        destruct (decide (k = j)) as [->|Hkj'].
        - destruct b.
          + rewrite decide_True by done. case_decide as Hc; [|done].
            rewrite decide_True; [done|]. destruct Hc as [? ?].
            split; [apply elem_of_app; right; by apply list_elem_of_singleton|done].
          + rewrite decide_False by (by intros [_ ?]).
            rewrite decide_False by (by intros [? _]).
            rewrite decide_False; [done|]. intros (_ & Hc). by case_decide.
        - rewrite decide_False by (by intros [? _]).
          destruct (decide (k ∈ pre ∧ k ≠ x
                            ∧ same_part_test (volume s k) (volume s x) = true))
            as [(H1 & H2 & H3)|Hn].
          + rewrite decide_True; [done|].
            split; [apply elem_of_app; by left|done].
          + rewrite decide_False; [done|]. intros (H1 & H2 & H3). apply Hn.
            apply elem_of_app in H1 as [H1|H1]; [done|].
            by apply list_elem_of_singleton in H1. }
      case_bool_decide as Hjx.
      { apply (Hclose false); [|done|].
        - intros k. by rewrite decide_False by (by intros [_ ?]).
        - rewrite decide_False; [done|]. by intros [? _]. }
      destruct (negb _ || negb _) eqn:Hkey.
      { apply (Hclose false); [|done|].
        - intros k. by rewrite decide_False by (by intros [_ ?]).
        - rewrite decide_False; [done|]. intros [_ Ht].
          unfold same_part_test in Ht. apply andb_true_iff in Ht as [E1 E2].
          by rewrite E1, E2 in Hkey. }
      apply orb_false_elim in Hkey as [Ho Hk].
      apply negb_false_iff in Ho, Hk.
      rewrite !update_volume_twice.
      apply (Hclose true).
      + intros k. rewrite volume_update_volume.
        rewrite (framed_length _ _ _ Hf'), <-(framed_length _ _ _ Hf).
        destruct (decide (j = k)) as [<-|Hne].
        * rewrite decide_True by done. rewrite decide_True by done. simpl.
          apply copy_volume_placement.
        * rewrite decide_False by (by intros [? _]).
          by rewrite decide_False by (by intros [? _]).
      + by apply framed_update_volume.
      + rewrite decide_True; [done|]. split; [done|].
        unfold same_part_test. by rewrite Ho, Hk. }
  split; [done|]. intros j Hj. rewrite (HQ j).
  rewrite (framed_length _ _ _ Hf).
  destruct (decide (j ≠ x ∧ same_part_test (volume s j) (volume s x) = true)) as [[H1 H2]|Hn].
  - rewrite decide_True; [done|]. split; [|done]. apply elem_of_seq. lia.
  - rewrite decide_False; [done|]. intros (_ & ? & ?). by apply Hn.
Qed.

(** After [_synchronize_unselected_volumes] every volume has the placement,
    in its instance, that the first selected volume for its part had before
    (in the order of the indices, among the volumes of objects of the
    model); a volume for whose part nothing is selected keeps its own. *)
Lemma sync_volumes_leader s :
  indices_in_range s →
  framed outside_volume_placement s (_synchronize_unselected_volumes s)
  ∧ ∀ j, j < length (volumes s) →
         get_volume_transformation (volume (_synchronize_unselected_volumes s) j)
         = get_volume_transformation (volume s (part_leader s (indices (m_list s)) j)).
Proof.
  intros Hr. unfold _synchronize_unselected_volumes, for_each_selected.
  set (Q (pre : list nat) st :=
         framed outside_volume_placement s st
         ∧ ∀ j, j < length (volumes s) →
                get_volume_transformation (volume st j)
                = get_volume_transformation (volume s (part_leader s pre j))).
  apply (foldl_prefix_invariant Q); [done|].
  intros pre x st [post Hl] [Hf HQ].
  assert (x ∈ m_list s) as Hx.
  { apply elem_of_indices. rewrite Hl. apply elem_of_app. right. by left. }
  pose proof (Hr x Hx) as Hxr.
  pose proof (framed_view _ _ _ x Hf) as (Hox & Hkx & _)%placement_marks%marks_inv.
  destruct (1000 <=? object_idx (volume st x))%Z eqn:Hobj.
  - split; [done|]. intros j Hj. rewrite (HQ j Hj), part_leader_snoc.
    unfold part_leader. destruct (find _ pre); [done|]. simpl.
    rewrite Hox in Hobj. apply Z.leb_le in Hobj.
    assert ((object_idx (volume s x) <? 1000)%Z = false) as -> by (apply Z.ltb_ge; lia).
    by rewrite andb_false_r.
  - rewrite Hox in Hobj. apply Z.leb_gt in Hobj.
    assert ((object_idx (volume s x) <? 1000)%Z = true) as Hlt by by apply Z.ltb_lt.
    destruct (sync_volumes_inner s st x Hf) as [Hf' Hinner].
    cbv zeta in Hf', Hinner. cbv zeta.
    split; [done|]. intros j Hj. rewrite (Hinner j Hj), part_leader_snoc.
    rewrite Hlt, andb_true_r.
    destruct (decide (j = x)) as [->|Hjx].
    + rewrite decide_False by (by intros [? _]). rewrite (HQ x Hxr).
      assert (same_part_test (volume s x) (volume s x) = true) as ->
        by by apply same_part_test_spec.
      unfold part_leader. by destruct (find _ pre).
    + destruct (same_part_test (volume s j) (volume s x)) eqn:Hpart.
      * rewrite decide_True by done.
        apply same_part_test_spec in Hpart.
        assert (same_part_test (volume s x) (volume s j) = true) as ->.
        { apply same_part_test_spec. destruct Hpart. by split. }
        rewrite (HQ x Hxr). unfold part_leader.
        rewrite (part_leader_same_part s pre j x Hpart).
        by destruct (find _ pre).
      * rewrite decide_False by (by intros [_ ?]).
        assert (same_part_test (volume s x) (volume s j) = false) as ->.
        { apply not_true_is_false. intros [Ho Hk]%same_part_test_spec.
          assert (same_part_test (volume s j) (volume s x) = true) as Hc
            by (apply same_part_test_spec; by split).
          congruence. }
        rewrite (HQ j Hj). unfold part_leader. by destruct (find _ pre).
Qed.

Lemma find_first_sorted (p : nat → bool) l i :
  StronglySorted le l → i ∈ l → p i = true →
  (∀ i', i' ∈ l → p i' = true → i ≤ i') →
  find p l = Some i.
Proof.
  induction l as [|a l IH]; intros Hs Hi Hp Hmin; [by apply elem_of_nil in Hi|].
  apply StronglySorted_inv in Hs as [Hs Ha]. simpl.
  destruct (p a) eqn:Hpa.
  - f_equal. apply elem_of_cons in Hi as [->|Hi]; [done|].
    rewrite Forall_forall in Ha. pose proof (Ha i Hi).
    pose proof (Hmin a ltac:(by left) Hpa). lia.
  - apply elem_of_cons in Hi as [->|Hi]; [congruence|].
    apply IH; [done..|]. intros i' Hi'. apply Hmin. by right.
Qed.

Lemma find_nothing {A} (p : A → bool) l : (∀ x, x ∈ l → p x = false) → find p l = None.
Proof.
  induction l as [|a l IH]; intros Hl; simpl; [done|].
  rewrite (Hl a) by by left. apply IH. intros x Hx. apply Hl. by right.
Qed.

Lemma StronglySorted_indices l : StronglySorted le (indices l).
Proof. unfold indices. apply StronglySorted_merge_sort; apply _. Qed.

(** [_synchronize_unselected_volumes] gives every volume of a part the
    placement, in its instance, of the selected volume for that part with the
    lowest index (selected volumes for the same part included); a volume for
    whose part no volume of an object of the model is selected stays as it
    is; and nothing but the placement of volumes in their instances is
    written. *)
Theorem synchronize_volumes_lowest_index_wins (s : Selection) :
  indices_in_range s →
  (∀ i j,
     i ∈ m_list s → (object_idx (volume s i) < 1000)%Z →
     (∀ i', i' ∈ m_list s → same_part (volume s i') (volume s i) → i ≤ i') →
     j < length (volumes s) → same_part (volume s j) (volume s i) →
     get_volume_transformation (volume (_synchronize_unselected_volumes s) j)
     = get_volume_transformation (volume s i))
  ∧ (∀ j,
       j < length (volumes s) →
       (∀ i, i ∈ m_list s → same_part (volume s i) (volume s j) →
             (1000 ≤ object_idx (volume s i))%Z) →
       volume (_synchronize_unselected_volumes s) j = volume s j)
  ∧ (∀ j, outside_volume_placement (volume (_synchronize_unselected_volumes s) j)
          = outside_volume_placement (volume s j)).
Proof.
  intros Hr. destruct (sync_volumes_leader s Hr) as [Hf Hlead]. split_and!.
  - intros i j Hi Hobj Hmin Hj Hpart. rewrite (Hlead j Hj). unfold part_leader.
    rewrite (find_first_sorted _ _ i); [done|apply StronglySorted_indices|..].
    + by apply elem_of_indices.
    + apply andb_true_iff. split; [|by apply Z.ltb_lt].
      apply same_part_test_spec. destruct Hpart. by split.
    + intros i' Hi' [Hp _]%andb_true_iff. apply Hmin; [by apply elem_of_indices|].
      apply same_part_test_spec in Hp. destruct Hp, Hpart. split; congruence.
  - intros j Hj Hnone.
    pose proof (framed_view _ _ _ j Hf) as Hview.
    apply GLVolume_parts; [by apply placement_marks| |by apply (f_equal snd) in Hview].
    rewrite (Hlead j Hj). unfold part_leader. rewrite find_nothing; [done|].
    intros i Hi%elem_of_indices.
    destruct (same_part_test (volume s i) (volume s j)) eqn:Hp; [|done]. simpl.
    apply same_part_test_spec in Hp. apply Z.ltb_ge. by apply Hnone.
  - intros j. apply (framed_view _ _ _ j Hf).
Qed.

Lemma synchronize_volumes_lowest_index_wins_witness :
  (∀ i j,
     i ∈ m_list part_dragged → (object_idx (volume part_dragged i) < 1000)%Z →
     (∀ i', i' ∈ m_list part_dragged →
            same_part (volume part_dragged i') (volume part_dragged i) → i ≤ i') →
     j < length (volumes part_dragged) →
     same_part (volume part_dragged j) (volume part_dragged i) →
     get_volume_transformation (volume (_synchronize_unselected_volumes part_dragged) j)
     = get_volume_transformation (volume part_dragged i))
  ∧ (∀ j,
       j < length (volumes part_dragged) →
       (∀ i, i ∈ m_list part_dragged →
             same_part (volume part_dragged i) (volume part_dragged j) →
             (1000 ≤ object_idx (volume part_dragged i))%Z) →
       volume (_synchronize_unselected_volumes part_dragged) j = volume part_dragged j)
  ∧ (∀ j, outside_volume_placement
            (volume (_synchronize_unselected_volumes part_dragged) j)
          = outside_volume_placement (volume part_dragged j)).
Proof.
  apply synchronize_volumes_lowest_index_wins.
  apply indices_in_range_check. vm_compute. reflexivity.
Defined.

(** ** The translations of an object and of an instance *)

Lemma update_volume_read i (h : GLVolume → GLVolume → GLVolume) st :
  update_volume i (h (volume st i)) st = update_volume i (λ v, h v v) st.
Proof.
  destruct st as [[l|] ? ? ? ? ? ? ? ? ?]; [|done].
  unfold update_volume, update_volumes, with_m_volumes, volume, volumes. simpl.
  do 2 f_equal. apply list_eq. intros k.
  destruct (decide (i = k)) as [<-|Hne].
  - rewrite !list_lookup_alter_eq. destruct (l !! i) as [v|] eqn:E; [|done]. simpl.
    by rewrite (list_lookup_total_correct _ _ _ E).
  - by rewrite !list_lookup_alter_ne.
Qed.

Lemma all_done (done : gset nat) n :
  (∀ j, j ∈ done → j < n) → size done = n → ∀ j, j < n → j ∈ done.
Proof.
  intros Hsub Hsize j Hj.
  assert (done = set_seq 0 n) as Heq.
  { apply set_subseteq_size_eq.
    - intros k Hk. apply elem_of_set_seq. pose proof (Hsub k Hk). lia.
    - rewrite size_set_seq. lia. }
  rewrite Heq. apply elem_of_set_seq. lia.
Qed.

(** The second loop of the two translations: every volume that is not
    selected and that the test [skip] lets through for the object of a
    selected volume is written once. *)
Lemma unselected_pass (skip : Z → GLVolume → bool) (h : GLVolume → GLVolume → GLVolume) s :
  (∀ o v w, marks v = marks w → skip o v = skip o w) →
  (∀ v w, marks (h v w) = marks w) →
  indices_in_range s →
  let r :=
    fst (foldl (λ '(st, done) i,
      if bool_decide (size done = length (volumes st)) then (st, done)
      else
        let object_idx_ := object_idx (volume st i) in
        if (1000 <=? object_idx_)%Z then (st, done)
        else
          foldl (λ '(st, done) j,
            if bool_decide (size done = length (volumes st)) then (st, done)
            else if bool_decide (j ∈ done) then (st, done)
            else
              let v := volume st j in
              if skip object_idx_ v then (st, done)
              else (update_volume j (h v) st, done ∪ {[j]}))
            (st, done) (seq 0 (length (volumes st))))
      (s, m_list s) (indices (m_list s))) in
  framed marks s r
  ∧ ∀ j, volume r j
         = if decide ((j ∉ m_list s) ∧ j < length (volumes s)
                      ∧ Exists (λ i, (object_idx (volume s i) < 1000)%Z
                                     ∧ skip (object_idx (volume s i)) (volume s j) = false)
                               (indices (m_list s)))
           then h (volume s j) (volume s j) else volume s j.
Proof.
  intros Hskip Hh Hr. simpl.
  set (n := length (volumes s)).
  set (reached (pre : list nat) (j : nat) :=
         j < n ∧ Exists (λ i, (object_idx (volume s i) < 1000)%Z
                              ∧ skip (object_idx (volume s i)) (volume s j) = false) pre).
  set (I (done : gset nat) (st : Selection) :=
         framed marks s st
         ∧ (∀ j, j ∈ done → j < n)
         ∧ ∀ j, volume st j
                = if decide (j ∈ done ∧ j ∉ m_list s)
                  then h (volume s j) (volume s j) else volume s j).
  set (Q (pre : list nat) (p : Selection * gset nat) :=
         I p.2 p.1 ∧ ∀ j, j ∈ p.2 ↔ j ∈ m_list s ∨ reached pre j).
  match goal with |- context [foldl ?f ?b ?l] => assert (Q l (foldl f b l)) as HQ end.
  { apply (foldl_prefix_invariant Q).
    - split; [split; [done|split]|].
      + intros j Hj. by apply Hr.
      + intros j. by rewrite decide_False by (by intros [? ?]).
      + intros j. simpl. split; [by left|]. intros [?|[_ Hex]]; [done|].
        by apply Exists_nil in Hex.
    - intros pre x [st done] [post Hl] [(Hf & Hsub & Hvol) Hdone]. simpl in *.
      assert (length (volumes st) = n) as Hlen by apply (framed_length _ _ _ Hf).
      assert (∀ j, reached (pre ++ [x]) j
                   ↔ reached pre j
                     ∨ (j < n ∧ (object_idx (volume s x) < 1000)%Z
                        ∧ skip (object_idx (volume s x)) (volume s j) = false)) as Hreach.
      { intros j. unfold reached. rewrite Exists_app, Exists_cons, Exists_nil. tauto. }
      rewrite Hlen.
      case_bool_decide as Hfull.
      { split; [done|]. simpl. intros j. rewrite Hreach, (Hdone j).
        split; [tauto|]. intros [?|[?|(Hj & _)]]; [tauto..|].
        apply Hdone. by apply (all_done done n). }
      pose proof (framed_view _ _ _ x Hf) as (Hox & _)%marks_inv. rewrite Hox.
      destruct (1000 <=? object_idx (volume s x))%Z eqn:Hobj.
      { apply Z.leb_le in Hobj. split; [done|]. simpl. intros j.
        rewrite Hreach, (Hdone j). split; [tauto|].
        intros [?|[?|(_ & ? & _)]]; [tauto..|lia]. }
      apply Z.leb_gt in Hobj.
      set (o := object_idx (volume s x)) in *.
      set (Q' (pre' : list nat) (p : Selection * gset nat) :=
             I p.2 p.1
             ∧ ∀ j, j ∈ p.2
                    ↔ j ∈ done ∨ (j ∈ pre' ∧ skip o (volume s j) = false)).
      match goal with |- Q _ (foldl ?f ?b ?l) => assert (Q' l (foldl f b l)) as HQ' end.
      { apply (foldl_prefix_invariant Q').
        - split; [done|]. simpl. intros j. split; [by left|].
          intros [?|[Hj _]]; [done|]. by apply elem_of_nil in Hj.
        - intros pre' j [st' done'] [post' Hl'] [(Hf' & Hsub' & Hvol') Hdone']. simpl in *.
          assert (length (volumes st') = n) as Hlen' by apply (framed_length _ _ _ Hf').
          assert (j < n) as Hjn.
          { assert (j ∈ seq 0 n) as Hin by (rewrite Hl'; apply elem_of_app; right; by left).
            apply elem_of_seq in Hin. lia. }
          rewrite Hlen'.
          case_bool_decide as Hfull'.
          { split; [done|]. simpl. intros k. rewrite (Hdone' k), elem_of_app.
            split; [tauto|]. intros [?|[[?|Hk] ?]]; [tauto..|].
            apply list_elem_of_singleton in Hk as ->.
            apply Hdone'. by apply (all_done done' n). }
          case_bool_decide as Hjd.
          { split; [done|]. simpl. intros k. rewrite (Hdone' k), elem_of_app.
            split; [tauto|]. intros [?|[[?|Hk] ?]]; [tauto..|].
            apply list_elem_of_singleton in Hk as ->. by apply Hdone'. }
          rewrite (Hskip o _ _ (framed_view _ _ _ j Hf')).
          destruct (skip o (volume s j)) eqn:Hs.
          { split; [done|]. simpl. intros k. rewrite (Hdone' k), elem_of_app.
            split; [tauto|]. intros [?|[[?|Hk] ?]]; [tauto..|].
            apply list_elem_of_singleton in Hk as ->. congruence. }
          assert (j ∉ m_list s) as Hjl.
          { intros Hc. apply Hjd, Hdone'. left. apply Hdone. by left. }
          split; [split; [|split]|]; simpl.
          + by apply framed_update_volume.
          + intros k [Hk| ->%elem_of_singleton]%elem_of_union; [by apply Hsub'|done].
          + intros k. rewrite volume_update_volume, Hlen', (Hvol' k).
            destruct (decide (j = k)) as [<-|Hne].
            * rewrite decide_True by done.
              rewrite decide_False by (by intros [? _]).
              rewrite decide_True by (split; [set_solver|done]).
              rewrite (Hvol' j). by rewrite decide_False by (by intros [? _]).
            * rewrite decide_False by (by intros [? _]).
              destruct (decide (k ∈ done' ∧ k ∉ m_list s)) as [[H1 H2]|Hn].
              -- rewrite decide_True; [done|]. split; [set_solver|done].
              -- rewrite decide_False; [done|].
                 intros [[?| ->%elem_of_singleton]%elem_of_union ?]; [by apply Hn|done].
          + intros k. rewrite elem_of_union, (Hdone' k), elem_of_singleton, elem_of_app,
              list_elem_of_singleton.
            split; [intros [[?|[??]]| ->]; tauto|].
            intros [?|[[?| ->] ?]]; tauto. }
      destruct HQ' as [HI HQ']. split; [done|]. intros j.
      rewrite (HQ' j), Hreach, (Hdone j), elem_of_seq.
      split; [intros [[?|?]|[? ?]]; [tauto..|]|intros [?|[?|(?&?&?)]]; [tauto..|]].
      + right. right. split; [lia|done].
      + right. split; [lia|done]. }
  destruct HQ as [(Hf & _ & Hvol) Hdone]. split; [done|]. intros j.
  rewrite (Hvol j).
  destruct (decide ((j ∉ m_list s) ∧ j < n
                    ∧ Exists (λ i, (object_idx (volume s i) < 1000)%Z
                                   ∧ skip (object_idx (volume s i)) (volume s j) = false)
                             (indices (m_list s)))) as [(H1 & H2 & H3)|Hn].
  - rewrite decide_True; [done|]. split; [|done]. apply Hdone. right. by split.
  - rewrite decide_False; [done|]. intros [Hd Hl]. apply Hn.
    apply Hdone in Hd as [?|[? ?]]; [done|]. done.
Qed.

(** The two loops of the translations, for a test [sel] on the selected
    volumes and a test [skip] on the others. *)
Lemma translation_passes (sel : GLVolume → bool) (skip : Z → GLVolume → bool)
    (displacement : Vec3d) s :
  (∀ v w, marks v = marks w → sel v = sel w) →
  (∀ o v w, marks v = marks w → skip o v = skip o w) →
  indices_in_range s →
  let s1 :=
    for_each_selected (λ i st,
      let v := volume st i in
      if sel v
      then update_volume i (set_instance_offset (vadd (get_instance_offset v) displacement)) st
      else st) s in
  let r :=
    fst (foldl (λ '(st, done) i,
      if bool_decide (size done = length (volumes st)) then (st, done)
      else
        let object_idx_ := object_idx (volume st i) in
        if (1000 <=? object_idx_)%Z then (st, done)
        else
          foldl (λ '(st, done) j,
            if bool_decide (size done = length (volumes st)) then (st, done)
            else if bool_decide (j ∈ done) then (st, done)
            else
              let v := volume st j in
              if skip object_idx_ v then (st, done)
              else
                (update_volume j
                   (set_instance_offset (vadd (get_instance_offset v) displacement)) st,
                 done ∪ {[j]}))
            (st, done) (seq 0 (length (volumes st))))
      (s1, m_list s1) (indices (m_list s1))) in
  ∀ j,
    ((j ∈ m_list s ∧ sel (volume s j) = true)
     ∨ ((j ∉ m_list s) ∧ j < length (volumes s)
        ∧ ∃ i, i ∈ m_list s ∧ (object_idx (volume s i) < 1000)%Z
               ∧ skip (object_idx (volume s i)) (volume s j) = false) →
     volume r j = moved_by displacement (volume s j))
    ∧ (¬ ((j ∈ m_list s ∧ sel (volume s j) = true)
          ∨ ((j ∉ m_list s) ∧ j < length (volumes s)
             ∧ ∃ i, i ∈ m_list s ∧ (object_idx (volume s i) < 1000)%Z
                    ∧ skip (object_idx (volume s i)) (volume s j) = false)) →
       volume r j = volume s j).
Proof.
  intros Hsel Hskip Hr. cbv zeta.
  destruct (for_each_selected_update
              (λ i st,
                 let v := volume st i in
                 if sel v
                 then update_volume i
                        (set_instance_offset (vadd (get_instance_offset v) displacement)) st
                 else st)
              (λ i v, if sel (volume s i) then moved_by displacement v else v) s)
    as [Hf1 Hvol1]; [| done |..].
  { intros i v. by destruct (sel _). }
  { intros i st Hf. cbv zeta. rewrite (Hsel _ _ (framed_view _ _ _ i Hf)).
    destruct (sel (volume s i)); [|by rewrite update_volume_id].
    apply (update_volume_read i
             (λ v, set_instance_offset (vadd (get_instance_offset v) displacement))). }
  cbv zeta in Hf1, Hvol1.
  set (s1 := for_each_selected _ s) in *. clearbody s1.
  destruct (framed_members _ _ _ Hf1) as (Hl & _).
  pose proof (framed_length _ _ _ Hf1) as Hlen.
  destruct (unselected_pass skip
              (λ v, set_instance_offset (vadd (get_instance_offset v) displacement)) s1)
    as [Hf2 Hvol2]; [done|done| |].
  { intros i Hi. rewrite Hlen. apply Hr. by rewrite <-Hl. }
  cbv beta zeta in Hf2, Hvol2.
  set (r := fst (foldl _ _ _)) in *. clearbody r.
  assert (∀ j,
            Exists (λ i, (object_idx (volume s1 i) < 1000)%Z
                         ∧ skip (object_idx (volume s1 i)) (volume s1 j) = false)
                   (indices (m_list s1))
            ↔ ∃ i, i ∈ m_list s ∧ (object_idx (volume s i) < 1000)%Z
                   ∧ skip (object_idx (volume s i)) (volume s j) = false) as Hex.
  { intros j. rewrite Exists_exists. setoid_rewrite elem_of_indices. rewrite Hl.
    split; intros (i & Hi & Ho & Hs); exists i; (split; [done|]);
      pose proof (framed_view _ _ _ i Hf1) as (Hoi & _)%marks_inv;
      rewrite (Hskip _ _ _ (framed_view _ _ _ j Hf1)) in *; rewrite Hoi in *; done. }
  intros j. specialize (Hvol2 j). pose proof (Hex j) as Hexj.
  rewrite Hlen, Hl in Hvol2. rewrite Hl in Hexj.
  destruct (decide (j ∈ m_list s)) as [Hj|Hj].
  - rewrite decide_False in Hvol2 by (by intros [? _]).
    rewrite Hvol2, (Hvol1 j), decide_True by done.
    split.
    + intros [[_ Hs]|(? & _)]; [by rewrite Hs|done].
    + intros Hn. destruct (sel (volume s j)) eqn:Hs; [|done]. destruct Hn. by left.
  - assert (volume s1 j = volume s j) as Hj1
      by (rewrite (Hvol1 j); by rewrite decide_False).
    split.
    + intros [[? _]|(_ & Hjn & Hreach)]; [done|].
      rewrite decide_True in Hvol2
        by (split; [done|split; [done|by apply Hexj]]).
      by rewrite Hvol2, Hj1.
    + intros Hn. rewrite decide_False in Hvol2.
      * by rewrite Hvol2.
      * intros (_ & Hjn & Hreach). apply Hn. right.
        split; [done|split; [done|by apply Hexj]].
Qed.

(** The translations of an object and of an instance move the offset of the
    instance of every volume they reach by the displacement, once, and
    leave every other volume as it is.  The translation of an object reaches
    the selected volumes of that object and, of every object of the model
    that has a selected volume, the volumes that are not selected; the
    translation of an instance reaches the selected volumes of that instance
    and, of every such object, the volumes with the instance index given that
    are not selected. *)
Theorem translations_move_once (displacement : Vec3d) (s : Selection) :
  m_valid s = true →
  indices_in_range s →
  (∀ object_idx_ j,
     (translate_object_reaches object_idx_ s j →
      volume (translate_object object_idx_ displacement s) j
      = moved_by displacement (volume s j))
     ∧ (¬ translate_object_reaches object_idx_ s j →
        volume (translate_object object_idx_ displacement s) j = volume s j))
  ∧ (∀ object_idx_ instance_idx_ j,
       (translate_instance_reaches object_idx_ instance_idx_ s j →
        volume (translate_instance object_idx_ instance_idx_ displacement s) j
        = moved_by displacement (volume s j))
       ∧ (¬ translate_instance_reaches object_idx_ instance_idx_ s j →
          volume (translate_instance object_idx_ instance_idx_ displacement s) j
          = volume s j)).
Proof.
  intros Hv Hr. split.
  - intros o j. unfold translate_object. rewrite Hv. cbv beta zeta iota delta [negb].
    change (volume (with_m_bounding_box_dirty true ?x) j) with (volume x j).
    pose proof (translation_passes
                  (λ v, (u32 (object_idx v) =? o)%Z)
                  (λ o' v, negb (object_idx v =? o')%Z) displacement s) as Hp.
    cbv beta zeta iota delta [negb] in Hp.
    destruct (Hp ltac:(by intros v w (-> & _)%marks_inv)
                 ltac:(by intros o' v w (-> & _)%marks_inv) Hr j) as [Hyes Hno].
    assert (translate_object_reaches o s j
            ↔ (j ∈ m_list s ∧ (u32 (object_idx (volume s j)) =? o)%Z = true)
              ∨ ((j ∉ m_list s) ∧ j < length (volumes s)
                 ∧ ∃ i, i ∈ m_list s ∧ (object_idx (volume s i) < 1000)%Z
                        ∧ (if (object_idx (volume s j) =? object_idx (volume s i))%Z
                           then false else true) = false)) as Hiff.
    { unfold translate_object_reaches. rewrite Z.eqb_eq.
      assert (∀ a b : Z, (if (a =? b)%Z then false else true) = false ↔ a = b) as Hab.
      { intros a b. destruct (Z.eqb_spec a b); naive_solver. }
      by setoid_rewrite Hab. }
    rewrite Hiff. split; [exact Hyes|exact Hno].
  - intros o k j. unfold translate_instance. rewrite Hv.
    cbv beta zeta iota delta [negb orb].
    change (volume (with_m_bounding_box_dirty true ?x) j) with (volume x j).
    pose proof (translation_passes
                  (λ v, (u32 (object_idx v) =? o)%Z && (u32 (instance_idx v) =? k)%Z)
                  (λ o' v, negb (object_idx v =? o')%Z || negb (u32 (instance_idx v) =? k)%Z)
                  displacement s) as Hp.
    cbv beta zeta iota delta [negb orb] in Hp.
    destruct (Hp ltac:(by intros v w (-> & _ & -> & _)%marks_inv)
                 ltac:(by intros o' v w (-> & _ & -> & _)%marks_inv) Hr j) as [Hyes Hno].
    assert (translate_instance_reaches o k s j
            ↔ (j ∈ m_list s
               ∧ (u32 (object_idx (volume s j)) =? o)%Z
                 && (u32 (instance_idx (volume s j)) =? k)%Z = true)
              ∨ ((j ∉ m_list s) ∧ j < length (volumes s)
                 ∧ ∃ i, i ∈ m_list s ∧ (object_idx (volume s i) < 1000)%Z
                        ∧ (if (if (object_idx (volume s j) =? object_idx (volume s i))%Z
                               then false else true)
                           then true
                           else if (u32 (instance_idx (volume s j)) =? k)%Z
                                then false else true) = false)) as Hiff.
    { unfold translate_instance_reaches. rewrite andb_true_iff, !Z.eqb_eq.
      assert (∀ a b c d : Z,
                (if (if (a =? b)%Z then false else true) then true
                 else if (c =? d)%Z then false else true) = false ↔ a = b ∧ c = d) as Hab.
      { intros a b c d. destruct (Z.eqb_spec a b), (Z.eqb_spec c d); naive_solver. }
      by setoid_rewrite Hab. }
    rewrite Hiff. split; [exact Hyes|exact Hno].
Qed.

Lemma translations_move_once_witness :
  (∀ object_idx_ j,
     (translate_object_reaches object_idx_ part_selected j →
      volume (translate_object object_idx_ (mkVec3d 1 2 3) part_selected) j
      = moved_by (mkVec3d 1 2 3) (volume part_selected j))
     ∧ (¬ translate_object_reaches object_idx_ part_selected j →
        volume (translate_object object_idx_ (mkVec3d 1 2 3) part_selected) j
        = volume part_selected j))
  ∧ (∀ object_idx_ instance_idx_ j,
       (translate_instance_reaches object_idx_ instance_idx_ part_selected j →
        volume (translate_instance object_idx_ instance_idx_ (mkVec3d 1 2 3) part_selected) j
        = moved_by (mkVec3d 1 2 3) (volume part_selected j))
       ∧ (¬ translate_instance_reaches object_idx_ instance_idx_ part_selected j →
          volume (translate_instance object_idx_ instance_idx_ (mkVec3d 1 2 3) part_selected) j
          = volume part_selected j)).
Proof.
  apply translations_move_once.
  - vm_compute. reflexivity.
  - apply indices_in_range_check. vm_compute. reflexivity.
Defined.

(** ** The bounding box after a transform *)

(** After an operation that writes placements only, on a valid selection,
    [get_bounding_box] computes the box anew from the selected volumes as
    they are placed now, and a second request returns the same box from the
    cache and changes nothing. *)
Theorem bounding_box_after_transform `{Geometry} (op : Selection → Selection)
    (s : Selection) :
  writes_placements_only op →
  m_valid s = true →
  (get_bounding_box (op s)).1
  = foldl (λ b i, bb_merge b (transformed_convex_hull_bounding_box (volume (op s) i)))
          BoundingBoxf3_empty (indices (m_list s))
  ∧ (get_bounding_box (op s)).2
    = with_m_bounding_box_dirty false
        (with_m_bounding_box (get_bounding_box (op s)).1 (op s))
  ∧ get_bounding_box (get_bounding_box (op s)).2 = get_bounding_box (op s).
Proof.
  intros Hop Hv. specialize (Hop s). rewrite Hv in Hop.
  destruct Hop as (Hl & _ & _ & Hv' & _ & _ & _ & Hd & _).
  unfold get_bounding_box. rewrite Hd. simpl.
  unfold _calc_bounding_box. rewrite Hv', Hl. simpl. done.
Qed.

Lemma bounding_box_after_transform_witness :
  (@get_bounding_box plain_geometry
     (@translate plain_geometry (mkVec3d 1 2 3) false part_dragged)).1
  = foldl (λ b i,
             @bb_merge plain_geometry b
               (@transformed_convex_hull_bounding_box plain_geometry
                  (volume (@translate plain_geometry (mkVec3d 1 2 3) false part_dragged) i)))
          BoundingBoxf3_empty (indices (m_list part_dragged))
  ∧ (@get_bounding_box plain_geometry
       (@translate plain_geometry (mkVec3d 1 2 3) false part_dragged)).2
    = with_m_bounding_box_dirty false
        (with_m_bounding_box
           (@get_bounding_box plain_geometry
              (@translate plain_geometry (mkVec3d 1 2 3) false part_dragged)).1
           (@translate plain_geometry (mkVec3d 1 2 3) false part_dragged))
  ∧ @get_bounding_box plain_geometry
      (@get_bounding_box plain_geometry
         (@translate plain_geometry (mkVec3d 1 2 3) false part_dragged)).2
    = @get_bounding_box plain_geometry
        (@translate plain_geometry (mkVec3d 1 2 3) false part_dragged).
Proof.
  apply (@bounding_box_after_transform plain_geometry
           (@translate plain_geometry (mkVec3d 1 2 3) false) part_dragged).
  - apply writes_placements_only_intro.
    + intros s Hv. unfold translate. by rewrite Hv.
    + intros s Hv. by apply translate_framed.
  - vm_compute. reflexivity.
Defined.

(** ** What the synchronisation of instances copies *)

Lemma synchronize_instances_pass `{Geometry} t s :
  indices_in_range s →
  framed marks s (_synchronize_unselected_instances t s)
  ∧ ∀ j, j < length (volumes s) →
         volume (_synchronize_unselected_instances t s) j
         = if decide (j ∈ m_list s) then volume s j
           else match find (other_instance_of s j) (indices (m_list s)) with
                | Some i => synchronized_from t (m_cache s) i (volume s i) j (volume s j)
                | None => volume s j
                end.
Proof.
  intros Hr. unfold _synchronize_unselected_instances. cbv zeta.
  set (n := length (volumes s)).
  set (h := λ i j v, synchronized_from t (m_cache s) i (volume s i) j v).
  set (Q (pre : list nat) (p : Selection * gset nat) :=
         framed marks s p.1
         ∧ (∀ j, j ∈ p.2 ↔ j ∈ m_list s ∨ (j < n ∧ is_Some (find (other_instance_of s j) pre)))
         ∧ ∀ j, j < n →
                volume p.1 j
                = if decide (j ∈ m_list s) then volume s j
                  else match find (other_instance_of s j) pre with
                       | Some i => h i j (volume s j)
                       | None => volume s j
                       end).
  match goal with |- context [foldl ?f ?b ?l] => assert (Q l (foldl f b l)) as HQ end.
  { apply (foldl_prefix_invariant Q).
    - split; [done|]. split.
      + intros j. simpl. split; [by left|]. intros [?|[_ [? ?]]]; done.
      + intros j Hj. simpl. by destruct (decide _).
    - intros pre x [st done] [post Hl] (Hf & Hdone & Hvol). simpl in *.
      assert (x ∈ m_list s) as Hx.
      { apply elem_of_indices. rewrite Hl. apply elem_of_app. right. by left. }
      pose proof (Hr x Hx) as Hxn. fold n in Hxn.
      assert (length (volumes st) = n) as Hlen by apply (framed_length _ _ _ Hf).
      assert (∀ j, j ∈ done → j < n) as Hsub.
      { intros j [Hj|[Hj _]]%Hdone; [by apply Hr|done]. }
      assert (volume st x = volume s x) as Hvx.
      { rewrite (Hvol x Hxn). by rewrite decide_True. }
      rewrite Hlen.
      case_bool_decide as Hfull.
      { split; [done|]. simpl.
        assert (∀ j, j < n → j ∉ m_list s → is_Some (find (other_instance_of s j) pre))
          as Hall.
        { intros j Hj Hjl.
          destruct (proj1 (Hdone j) (all_done done n Hsub Hfull j Hj)) as [?|[_ ?]]; done. }
        split.
        - intros j. rewrite (Hdone j), find_snoc. split.
          + intros [?|[Hj [i Hi]]]; [by left|]. right. split; [done|]. by rewrite Hi.
          + intros [?|[Hj _]]; [by left|].
            destruct (decide (j ∈ m_list s)); [by left|]. right. split; [done|]. by apply Hall.
        - intros j Hj. rewrite (Hvol j Hj), find_snoc.
          destruct (decide (j ∈ m_list s)) as [|Hjl]; [done|].
          by destruct (Hall j Hj Hjl) as [i ->]. }
      rewrite Hvx.
      destruct (1000 <=? object_idx (volume s x))%Z eqn:Hobj.
      { apply Z.leb_le in Hobj.
        assert (∀ j, other_instance_of s j x = false) as Hno.
        { intros j. unfold other_instance_of.
          assert ((object_idx (volume s x) <? 1000)%Z = false) as -> by (apply Z.ltb_ge; lia).
          done. }
        split; [done|]. simpl. split.
        - intros j. rewrite (Hdone j), find_snoc, Hno. by destruct (find _ pre).
        - intros j Hj. rewrite (Hvol j Hj), find_snoc, Hno. by destruct (find _ pre). }
      apply Z.leb_gt in Hobj.
      assert ((object_idx (volume s x) <? 1000)%Z = true) as Hlt by by apply Z.ltb_lt.
      set (Q' (pre' : list nat) (p : Selection * gset nat) :=
             framed marks s p.1
             ∧ (∀ j, j ∈ p.2 ↔ j ∈ done ∨ (j ∈ pre' ∧ other_instance_of s j x = true))
             ∧ ∀ j, j < n →
                    volume p.1 j
                    = if decide ((j ∉ done) ∧ j ∈ pre' ∧ other_instance_of s j x = true)
                      then h x j (volume s j) else volume st j).
      match goal with |- Q _ (foldl ?f ?b ?l) => assert (Q' l (foldl f b l)) as HQ' end.
      { apply (foldl_prefix_invariant Q').
        - split; [done|]. simpl. split.
          + intros j. split; [by left|]. intros [?|[Hj _]]; [done|].
            by apply elem_of_nil in Hj.
          + intros j Hj. rewrite decide_False; [done|]. intros (_ & Hc & _).
            by apply elem_of_nil in Hc.
        - intros pre' j [st' done'] [post' Hl'] (Hf' & Hdone' & Hvol'). simpl in *.
          assert (length (volumes st') = n) as Hlen' by apply (framed_length _ _ _ Hf').
          assert (j < n) as Hjn.
          { assert (j ∈ seq 0 n) as Hin by (rewrite Hl'; apply elem_of_app; right; by left).
            apply elem_of_seq in Hin. lia. }
          assert (j ∉ pre') as Hfresh by (eapply NoDup_prefix_fresh; [apply NoDup_seq|done]).
          assert (∀ k, k ∈ done' → k < n) as Hsub'.
          { intros k [Hk|[Hk _]]%Hdone'; [by apply Hsub|].
            assert (k ∈ seq 0 n) as Hin by (rewrite Hl'; apply elem_of_app; by left).
            apply elem_of_seq in Hin. lia. }
          assert (∀ (b : bool) (y : Selection) (d : gset nat),
                    framed marks s y →
                    (∀ k, k ∈ d ↔ k ∈ done' ∨ (k = j ∧ b = true)) →
                    (∀ k, k < n →
                          volume y k = if decide (k = j ∧ b = true ∧ j ∉ done')
                                       then h x j (volume s j) else volume st' k) →
                    (b = true → (j ∉ done') ∧ other_instance_of s j x = true) →
                    (b = false → j ∈ done' ∨ other_instance_of s j x = false) →
                    Q' (pre' ++ [j]) (y, d)) as Hclose.
          { intros b y d Hfy Hd Hy Hb1 Hb0. split; [done|]. simpl. split.
            - intros k. rewrite (Hd k), (Hdone' k), elem_of_app, list_elem_of_singleton.
              split.
              + intros [[?|[? ?]]|[-> Hb]]; [tauto..|]. destruct (Hb1 Hb). tauto.
              + intros [?|[[?| ->] Ho]]; [tauto..|]. destruct b; [tauto|].
                destruct (Hb0 eq_refl) as [Hc|?]; [apply Hdone' in Hc; tauto|congruence].
            - intros k Hk. rewrite (Hy k Hk), (Hvol' k Hk).
              destruct (decide (k = j)) as [->|Hne].
              + destruct b.
                * destruct (Hb1 eq_refl) as [Hjd Ho].
                  rewrite decide_True by done.
                  rewrite decide_True; [done|]. split; [|split; [|done]].
                  -- intros Hc. apply Hjd, Hdone'. by left.
                  -- apply elem_of_app. right. by apply list_elem_of_singleton.
                * rewrite decide_False by (by intros (_ & ? & _)).
                  rewrite decide_False by (by intros (_ & ? & _)).
                  rewrite decide_False; [done|]. intros (Hjd & _ & Ho).
                  destruct (Hb0 eq_refl) as [Hc|Hc]; [|congruence].
                  apply Hdone' in Hc as [?|[? _]]; done.
              + rewrite decide_False by (by intros [? _]).
                destruct (decide ((k ∉ done) ∧ k ∈ pre' ∧ other_instance_of s k x = true))
                  as [(H1 & H2 & H3)|Hn].
                * rewrite decide_True; [done|]. split; [done|].
                  split; [apply elem_of_app; by left|done].
                * rewrite decide_False; [done|]. intros (H1 & H2 & H3). apply Hn.
                  split; [done|]. split; [|done].
                  apply elem_of_app in H2 as [?|H2]; [done|].
                  by apply list_elem_of_singleton in H2. }
          rewrite Hlen'.
          case_bool_decide as Hfull'.
          { apply (Hclose false); [done| | | done |].
            - intros k. naive_solver.
            - intros k Hk. by rewrite decide_False by (by intros (_ & ? & _)).
            - intros _. left. by apply (all_done done' n). }
          case_bool_decide as Hjd.
          { apply (Hclose false); [done| | | done |by left].
            - intros k. naive_solver.
            - intros k Hk. by rewrite decide_False by (by intros (_ & ? & _)). }
          pose proof (framed_view _ _ _ j Hf') as (Hoj & _ & Hkj & _)%marks_inv.
          rewrite Hoj, Hkj.
          destruct (negb _ || _) eqn:Hkey.
          { apply (Hclose false); [done| | | done |].
            - intros k. naive_solver.
            - intros k Hk. by rewrite decide_False by (by intros (_ & ? & _)).
            - intros _. right. unfold other_instance_of. rewrite Hlt. simpl.
              apply orb_true_iff in Hkey as [Hk|Hk].
              + apply negb_true_iff in Hk. by rewrite Hk.
              + rewrite Hk. simpl. by rewrite andb_false_r. }
          apply orb_false_elim in Hkey as [Ho Hk]. apply negb_false_iff in Ho.
          assert (other_instance_of s j x = true) as Hoth.
          { unfold other_instance_of. by rewrite Hlt, Ho, Hk. }
          assert (∀ y,
                    update_volume j (set_instance_mirror (get_instance_mirror (volume s x)))
                      (update_volume j
                         (set_instance_scaling_factor
                            (get_instance_scaling_factor (volume s x)))
                         match t with
                         | SYNC_ROTATION_NONE => y
                         | SYNC_ROTATION_FULL =>
                             update_volume j
                               (set_instance_rotation
                                  (mkVec3d (vx (get_instance_rotation (volume s x)))
                                     (vy (get_instance_rotation (volume s x)))
                                     (vz (get_instance_rotation (volume s x))))) y
                         | SYNC_ROTATION_GENERAL =>
                             update_volume j
                               (set_instance_rotation
                                  (mkVec3d (vx (get_instance_rotation (volume s x)))
                                     (vy (get_instance_rotation (volume s x)))
                                     (vz (get_instance_rotation (volume s x))
                                      + rotation_diff_z
                                          (get_instance_rotation_c
                                             (volume_data (m_cache s) x))
                                          (get_instance_rotation_c
                                             (volume_data (m_cache s) j))))) y
                         end)
                    = update_volume j (h x j) y) as Hupd.
          { intros y. unfold h, synchronized_from.
            destruct t; by rewrite !update_volume_twice. }
          rewrite Hupd.
          apply (Hclose true); [| | |done|done].
          + apply framed_update_volume; [|done]. intros v. unfold h, synchronized_from.
            by destruct t.
          + intros k. rewrite elem_of_union, elem_of_singleton. naive_solver.
          + intros k Hkn. rewrite volume_update_volume, Hlen'.
            destruct (decide (j = k)) as [<-|Hne].
            * rewrite decide_True by done. rewrite decide_True by done.
              rewrite (Hvol' j Hjn).
              rewrite decide_False by (by intros (_ & ? & _)).
              f_equal. rewrite (Hvol j Hjn).
              assert (j ∉ done) as Hjd0 by (intros Hc; apply Hjd, Hdone'; by left).
              assert (j ∉ m_list s) as Hjl by (intros Hc; apply Hjd0, Hdone; by left).
              rewrite decide_False by done.
              destruct (find (other_instance_of s j) pre) as [i|] eqn:Hfind; [|done].
              destruct Hjd0. apply Hdone. right. split; [done|]. by rewrite Hfind.
            * rewrite decide_False by (by intros [? _]).
              by rewrite decide_False by (intros [? _]; congruence). }
      destruct HQ' as (Hf' & Hdone' & Hvol'). split; [done|]. simpl. split.
      + intros j. rewrite (Hdone' j), (Hdone j), find_snoc, elem_of_seq.
        destruct (find (other_instance_of s j) pre) as [i|] eqn:Hfind.
        * split; [intros [[?|?]|[? ?]]; [tauto|tauto|]|intros [?|[? ?]]; tauto].
          right. split; [lia|done].
        * split.
          -- intros [[?|[_ [? ?]]]|[? Ho]]; [tauto|done|]. right. rewrite Ho.
             split; [lia|done].
          -- intros [?|[? Hs]]; [tauto|]. right. split; [lia|].
             destruct (other_instance_of s j x); [done|]. by destruct Hs.
      + intros j Hj. rewrite (Hvol' j Hj), (Hvol j Hj), find_snoc.
        destruct (decide (j ∈ m_list s)) as [Hjl|Hjl].
        { rewrite decide_False; [done|]. intros (Hc & _). apply Hc, Hdone. by left. }
        destruct (find (other_instance_of s j) pre) as [i|] eqn:Hfind.
        { rewrite decide_False; [done|]. intros (Hc & _). apply Hc, Hdone. right.
          split; [done|]. by rewrite Hfind. }
        destruct (other_instance_of s j x) eqn:Ho.
        * rewrite decide_True; [done|]. split; [|split; [apply elem_of_seq; lia|done]].
          intros [?|[_ [? ?]]]%Hdone; [done|]. congruence.
        * rewrite decide_False; [done|]. by intros (_ & _ & ?). }
  destruct HQ as (Hf & _ & Hvol). split; [done|]. intros j Hj. by rewrite (Hvol j Hj).
Qed.

(** [_synchronize_unselected_instances] leaves the selected volumes as they
    are and writes every other volume at most once: a volume that is another
    instance of the object of a selected volume is synchronised with the
    first such selected volume, in the order of the indices (it gets the
    scaling factor and the mirror of that instance, and a rotation by the
    kind of synchronisation); every other volume stays as it is.  The
    offsets of the instances and the placements of the volumes in them are
    never written. *)
Theorem synchronize_instances_copies `{Geometry} (t : SyncRotationType) (s : Selection) :
  indices_in_range s →
  (∀ j, j < length (volumes s) →
        volume (_synchronize_unselected_instances t s) j
        = if decide (j ∈ m_list s) then volume s j
          else match instance_leader s j with
               | Some i => synchronized_from t (m_cache s) i (volume s i) j (volume s j)
               | None => volume s j
               end)
  ∧ ∀ j, outside_instance_shape (volume (_synchronize_unselected_instances t s) j)
         = outside_instance_shape (volume s j).
Proof.
  intros Hr. destruct (synchronize_instances_pass t s Hr) as [_ Hvol]. split.
  - intros j Hj. unfold instance_leader. by apply Hvol.
  - intros j. destruct (_synchronize_unselected_instances_spec t s) as [Hf _].
    apply (framed_view _ _ _ j Hf).
Qed.

Lemma synchronize_instances_copies_witness :
  (∀ j, j < length (volumes instance_dragged) →
        volume (@_synchronize_unselected_instances plain_geometry SYNC_ROTATION_GENERAL
                  instance_dragged) j
        = if decide (j ∈ m_list instance_dragged) then volume instance_dragged j
          else match instance_leader instance_dragged j with
               | Some i =>
                   @synchronized_from plain_geometry SYNC_ROTATION_GENERAL
                     (m_cache instance_dragged) i (volume instance_dragged i) j
                     (volume instance_dragged j)
               | None => volume instance_dragged j
               end)
  ∧ ∀ j, outside_instance_shape
           (volume (@_synchronize_unselected_instances plain_geometry SYNC_ROTATION_GENERAL
                      instance_dragged) j)
         = outside_instance_shape (volume instance_dragged j).
Proof.
  apply (@synchronize_instances_copies plain_geometry).
  apply indices_in_range_check. vm_compute. reflexivity.
Defined.

(** ** A single selection taken back *)

Lemma classify_one_modifier s i :
  m_valid s = true → m_list s = {[i]} → is_modifier (volume s i) = true →
  is_full_type (classify s).1.1 = false.
Proof.
  intros Hv Hl Hm. unfold classify. rewrite Hv, Hl. cbn [negb].
  rewrite bool_decide_eq_false_2 by set_solver.
  rewrite bool_decide_eq_true_2 by apply size_singleton.
  rewrite indices_singleton. cbn [hd]. rewrite Hm. by destruct (is_wipe_tower _).
Qed.

Lemma m_mode__update_type_kept s :
  is_full_type (classify (with_m_type Mixed (with_content (build_content s) s))).1.1 = false →
  m_mode (_update_type s) = m_mode s.
Proof.
  intros Hfull. destruct (_update_type_unfold s) as (_ & -> & _).
  destruct (classify_flags (with_m_type Mixed (with_content (build_content s) s)))
    as [-> _].
  by rewrite Hfull.
Qed.

(** What a single-selection [add] leaves: the instance of the volume in
    [Instance] mode, or at most the volume itself in [Volume] mode. *)
Lemma add_single_outcome s i :
  m_valid s = true → i < length (volumes s) →
  is_wipe_tower_sel s && is_wipe_tower (volume s i) = false →
  same_scene s (add i true s)
  ∧ ((m_mode (add i true s) = Instance
      ∧ ∀ j, j ∈ m_list (add i true s) →
             j < length (volumes s) ∧ shares_instance (volume s j) (volume s i))
     ∨ (m_mode (add i true s) = Volume ∧ m_list (add i true s) ⊆ {[i]})).
Proof.
  intros Hv Hi Hearly. split.
  { destruct (add_cases s i true) as [->|(_ & _ & _ & x & -> & Hx)]; scene. }
  unfold add. rewrite Hv, bool_decide_eq_false_2, Hearly by lia. simpl.
  assert (same_scene s (clear s)) as Hc by scene.
  pose proof (same_scene_identity _ _ i Hc) as (_ & _ & _ & Hm & _)%identity_of_inv.
  pose proof (m_list_clear s Hv) as Hlc.
  assert (m_valid (clear s) = true) as Hvc by (by rewrite m_valid_clear).
  unfold add_resolve_mode, contains_volume. rewrite Hm.
  destruct (is_modifier (volume s i)) eqn:Hmod.
  - right.
    set (x := with_m_mode Volume (clear s)).
    assert (m_mode x = Volume) as Hmx by done.
    assert (same_scene s x) as Hsx by (subst x; scene).
    assert (m_list x = ∅) as Hlx by done.
    assert (m_valid x = true) as Hvx by done.
    clearbody x. rewrite Hmx. cbv iota.
    match goal with
    | |- context [if ?c then _add_volume i x else x] =>
        set (b := c); set (y := if b then _add_volume i x else x)
    end.
    assert (∀ c : bool,
              let y := if c then _add_volume i x else x in
              m_mode y = Volume ∧ same_scene s y ∧ m_valid y = true
              ∧ (m_list y = ∅ ∨ m_list y = {[i]})) as Hy.
    { intros []; cbv zeta; (split; [exact Hmx|]); (split; [scene|]);
        (split; [exact Hvx|]); [right|by left].
      unfold _add_volume. simpl. rewrite Hlx. set_solver. }
    destruct (Hy b) as (Hmy & Hsy & Hvy & Hly). fold y in Hmy, Hsy, Hvy, Hly.
    clearbody y. split.
    + change (m_mode (_update_type y) = Volume). rewrite <-Hmy.
      apply m_mode__update_type_kept.
      destruct Hly as [Hly|Hly].
      * assert ((classify (with_m_type Mixed (with_content (build_content y) y))).1.1 = Empty)
          as -> by (by apply classify_Empty).
        done.
      * apply (classify_one_modifier _ i); [done|done|].
        change (is_modifier (volume y i) = true).
        pose proof (same_scene_identity _ _ i Hsy) as (_ & _ & _ & -> & _)%identity_of_inv.
        done.
    + change (m_list (_update_type y) ⊆ {[i]}). rewrite m_list__update_type.
      destruct Hly as [->| ->]; set_solver.
  - left. rewrite Hlc, bool_decide_eq_false_2 by set_solver. cbn [negb].
    set (x := with_m_mode Instance (clear s)).
    assert (m_mode x = Instance) as Hmx by done.
    assert (same_scene s x) as Hsx by (subst x; scene).
    assert (m_list x = ∅) as Hlx by done.
    clearbody x. rewrite Hmx. cbv iota.
    destruct (m_list__add_instance x (u32 (object_idx (volume x i)))
                (u32 (instance_idx (volume x i)))) as (_ & Hmode & Hl).
    split; [apply m_mode_finish_Instance; by rewrite Hmode|].
    intros j. rewrite ?m_list_finish, ?m_list__update_type, (Hl j), Hlx,
      (same_scene_length _ _ Hsx).
    pose proof (same_scene_identity _ _ i Hsx) as (-> & _ & -> & _)%identity_of_inv.
    pose proof (same_scene_identity _ _ j Hsx) as (-> & _ & -> & _)%identity_of_inv.
    rewrite shares_instance_test. set_solver.
Qed.

(** Round trip: a volume selected on its own with [add] and taken out again
    with [remove] leaves nothing selected, whatever was selected before, and
    the type is [Empty]. *)
Theorem add_then_remove (s : Selection) (i : nat) :
  m_valid s = true →
  i < length (volumes s) →
  is_wipe_tower_sel s && is_wipe_tower (volume s i) = false →
  m_list (remove i (add i true s)) = ∅
  ∧ m_type (remove i (add i true s)) = Empty.
Proof.
  intros Hv Hi Hearly.
  destruct (add_single_outcome s i Hv Hi Hearly) as [Hsa Hout].
  set (a := add i true s) in *. clearbody a.
  assert (m_valid a = true) as Hva by (destruct Hsa as (-> & _); done).
  pose proof (same_scene_length _ _ Hsa) as Hlen.
  unfold remove. rewrite Hva, bool_decide_eq_false_2 by lia. simpl.
  assert (∀ y, m_valid y = true → m_list y = ∅ →
               m_list (with_m_bounding_box_dirty true (_update_type y)) = ∅
               ∧ m_type (with_m_bounding_box_dirty true (_update_type y)) = Empty) as Hfin.
  { intros y Hvy Hly. split; [by rewrite m_list_finish|].
    by apply m_type__update_type_Empty. }
  destruct Hout as [[Hm Hl]|[Hm Hl]]; rewrite Hm; apply Hfin.
  - by destruct (scene__remove_instance a a (u32 (object_idx (volume a i)))
                   (u32 (instance_idx (volume a i))) (same_scene_refl a)) as (-> & _).
  - destruct (m_list_remove_loop
                (λ _ v, (u32 (object_idx v) =? u32 (object_idx (volume a i)))%Z
                        && (u32 (instance_idx v) =? u32 (instance_idx (volume a i)))%Z) a)
      as (_ & _ & Hrem).
    { intros _ v w (Ho & _ & Hk & _)%identity_of_inv. by rewrite Ho, Hk. }
    apply set_eq. intros j. unfold _remove_instance. rewrite (Hrem j).
    split; [|set_solver]. intros [Hj Hn]. destruct Hn.
    destruct (Hl j Hj) as [Hjn Hshare]. split; [lia|].
    apply shares_instance_test. unfold shares_instance in *.
    pose proof (same_scene_identity _ _ i Hsa) as (-> & _ & -> & _)%identity_of_inv.
    pose proof (same_scene_identity _ _ j Hsa) as (-> & _ & -> & _)%identity_of_inv.
    done.
  - unfold _remove_volume. by case_bool_decide.
  - unfold _remove_volume. case_bool_decide; simpl; set_solver.
Qed.

Lemma add_then_remove_witness :
  m_list (remove 1 (add 1 true object_selected)) = ∅
  ∧ m_type (remove 1 (add 1 true object_selected)) = Empty.
Proof.
  apply add_then_remove.
  - vm_compute. reflexivity.
  - vm_compute. lia.
  - vm_compute. reflexivity.
Defined.

(** ** Instances put on the bed *)

(** The first loop of [_ensure_on_bed] computes the lowest point of every
    instance. *)
Lemma instances_min_z_lookup `{Geometry} (vs : list GLVolume) (o k : Z) :
  foldl (λ (m : gmap (Z * Z) float) v,
           if negb (is_wipe_tower v) && negb (is_modifier v) then
             let min_z := vz (bb_min (transformed_convex_hull_bounding_box v)) in
             let instance := (object_idx v, instance_idx v) in
             <[instance := std_min (default DBL_MAX (m !! instance)) min_z]> m
           else m)
        ∅ vs !! (o, k)
  = instance_min_z o k vs.
Proof.
  set (Q (pre : list GLVolume) (m : gmap (Z * Z) float) :=
         m !! (o, k) = instance_min_z o k pre).
  apply (foldl_prefix_invariant Q); [done|].
  intros pre v m _ Hm. unfold Q in *. unfold instance_min_z, solid_volumes_of in *.
  rewrite List.filter_app. simpl.
  destruct (negb (is_wipe_tower v) && negb (is_modifier v)) eqn:Hsolid; simpl.
  - destruct (decide ((object_idx v, instance_idx v) = (o, k))) as [[= -> ->]|Hne].
    + rewrite lookup_insert_eq, Hm, !Z.eqb_refl. simpl.
      destruct (List.filter _ pre) as [|w l]; simpl; [done|].
      by rewrite foldl_app.
    + rewrite lookup_insert_ne by done. rewrite Hm.
      assert ((object_idx v =? o)%Z && (instance_idx v =? k)%Z = false) as ->.
      { apply andb_false_iff.
        destruct (Z.eqb_spec (object_idx v) o), (Z.eqb_spec (instance_idx v) k); auto.
        destruct Hne. congruence. }
      by rewrite app_nil_r.
  - by rewrite Hm, app_nil_r.
Qed.

Lemma for_each_volume_update body (g : nat → GLVolume → GLVolume) s :
  (∀ i v, marks (g i v) = marks v) →
  (∀ i st, framed marks s st → body i (volume st i) st = update_volume i (g i) st) →
  framed marks s (for_each_volume body s)
  ∧ ∀ k, volume (for_each_volume body s) k
         = if decide (k < length (volumes s)) then g k (volume s k) else volume s k.
Proof.
  intros Hg Hbody. unfold for_each_volume.
  set (Q := λ (pre : list nat) st,
         framed marks s st
         ∧ ∀ k, volume st k = if decide (k ∈ pre) then g k (volume s k) else volume s k).
  match goal with |- context [foldl ?f s ?l] => assert (Q l (foldl f s l)) as [Hf Hv] end.
  { apply (foldl_prefix_invariant Q).
    - split; [done|]. intros k. case_decide as Hk; [by apply elem_of_nil in Hk|done].
    - intros pre x st [post Hl] [Hf Hv].
      assert (x < length (volumes s)) as Hx.
      { assert (x ∈ seq 0 (length (volumes s))) as Hin
          by (rewrite Hl; apply elem_of_app; right; by left).
        apply elem_of_seq in Hin. lia. }
      assert (x ∉ pre) as Hfresh by (eapply NoDup_prefix_fresh; [apply NoDup_seq|done]).
      rewrite (Hbody x st Hf).
      split; [by apply framed_update_volume|].
      intros k. rewrite volume_update_volume, (Hv k), (framed_length _ _ _ Hf).
      case_decide as Hc.
      + destruct Hc as [<- _]. rewrite decide_False by done.
        rewrite decide_True; [done|]. apply elem_of_app. right. by left.
      + destruct (decide (k ∈ pre)) as [Hk|Hk].
        * rewrite decide_True; [done|]. apply elem_of_app. by left.
        * rewrite decide_False; [done|].
          intros [?| ->%list_elem_of_singleton]%elem_of_app; [done|].
          apply Hc. by split. }
  split; [done|]. intros k. rewrite (Hv k).
  destruct (decide (k < length (volumes s))).
  - rewrite decide_True; [done|]. apply elem_of_seq. lia.
  - rewrite decide_False; [done|]. intros ?%elem_of_seq. lia.
Qed.

(** [_ensure_on_bed] lowers every instance as a whole: each volume of the
    list has the offset of its instance lowered, along Z, by the lowest point
    of its instance, the same amount for all volumes of the instance; the
    volumes of an instance without a solid volume stay as they are; and
    nothing else of a volume is written. *)
Theorem ensure_on_bed_lowers_instances `{Geometry} (s : Selection) :
  ∀ j, j < length (volumes s) →
       volume (_ensure_on_bed s) j
       = match instance_min_z (object_idx (volume s j)) (instance_idx (volume s j))
                 (volumes s) with
         | Some min_z =>
             set_instance_offset_axis AxisZ
               (coeff (get_instance_offset (volume s j)) AxisZ - min_z) (volume s j)
         | None => volume s j
         end.
Proof.
  intros j Hj. unfold _ensure_on_bed. cbv zeta.
  pose proof (instances_min_z_lookup (volumes s)) as Hlookup. cbv zeta in Hlookup.
  set (M := foldl _ ∅ (volumes s)) in *. clearbody M.
  destruct (for_each_volume_update
              (λ j v st,
                 match M !! (object_idx v, instance_idx v) with
                 | Some min_z =>
                     update_volume j
                       (set_instance_offset_axis AxisZ
                          (coeff (get_instance_offset v) AxisZ - min_z)) st
                 | None => st
                 end)
              (λ j v,
                 match M !! (object_idx (volume s j), instance_idx (volume s j)) with
                 | Some min_z =>
                     set_instance_offset_axis AxisZ
                       (coeff (get_instance_offset v) AxisZ - min_z) v
                 | None => v
                 end) s) as [_ Hvol].
  - intros i v. by destruct (M !! _).
  - intros i st Hf.
    pose proof (framed_view _ _ _ i Hf) as (-> & _ & -> & _)%marks_inv.
    destruct (M !! _) as [min_z|]; [|by rewrite update_volume_id].
    apply (update_volume_read i
             (λ v, set_instance_offset_axis AxisZ
                     (coeff (get_instance_offset v) AxisZ - min_z))).
  - rewrite (Hvol j), decide_True by done. by rewrite Hlookup.
Qed.

Lemma ensure_on_bed_lowers_instances_witness :
  volume (@_ensure_on_bed plain_geometry instance_dragged) 0
  = match @instance_min_z plain_geometry (object_idx (volume instance_dragged 0))
            (instance_idx (volume instance_dragged 0)) (volumes instance_dragged) with
    | Some min_z =>
        set_instance_offset_axis AxisZ
          (coeff (get_instance_offset (volume instance_dragged 0)) AxisZ - min_z)
          (volume instance_dragged 0)
    | None => volume instance_dragged 0
    end.
Proof.
  apply (@ensure_on_bed_lowers_instances plain_geometry). vm_compute. lia.
Defined.

(** ** Scaling a full instance *)

Lemma find_ext {A} (p q : A → bool) l : (∀ x, p x = q x) → find p l = find q l.
Proof. intros Hpq. induction l as [|a l IH]; simpl; [done|]. by rewrite Hpq, IH. Qed.

Lemma other_instance_of_framed s st j i :
  framed marks s st → other_instance_of st j i = other_instance_of s j i.
Proof.
  intros Hf. unfold other_instance_of.
  pose proof (framed_view _ _ _ i Hf) as (-> & _ & -> & _)%marks_inv.
  pose proof (framed_view _ _ _ j Hf) as (-> & _ & -> & _)%marks_inv.
  done.
Qed.

Lemma _ensure_on_bed_keeps_shape `{Geometry} s j :
  get_instance_scaling_factor (volume (_ensure_on_bed s) j)
  = get_instance_scaling_factor (volume s j).
Proof.
  assert (framed get_instance_scaling_factor s (_ensure_on_bed s)) as Hf.
  { unfold _ensure_on_bed. apply framed_for_each_volume; [done|].
    intros i v st Hst. destruct (_ !! _); [|done]. by apply framed_update_volume. }
  apply (framed_view _ _ _ j Hf).
Qed.

Lemma is_single_full_instance_framed s st :
  framed marks s st → is_single_full_instance st = is_single_full_instance s.
Proof.
  intros Hf.
  destruct (framed_members _ _ _ Hf) as (Hl & _ & Ht & Hv' & Hc & Hmod & _).
  unfold is_single_full_instance, get_instance_idx, get_object_idx, model.
  rewrite Hl, Ht, Hv', Hc, Hmod.
  assert (volumes st = [] ↔ volumes s = []) as Hnil.
  { pose proof (framed_length _ _ _ Hf) as Hlen.
    split; intros E; rewrite E in Hlen; simpl in Hlen.
    - by destruct (volumes s).
    - by destruct (volumes st). }
  assert (bool_decide (volumes st = []) = bool_decide (volumes s = [])) as ->
    by by apply bool_decide_ext.
  assert (∀ k, object_idx (volume st k) = object_idx (volume s k)
               ∧ instance_idx (volume st k) = instance_idx (volume s k)
               ∧ volume_idx (volume st k) = volume_idx (volume s k)) as Hid.
  { intros k. pose proof (framed_view _ _ _ k Hf) as (? & ? & ? & _)%marks_inv. done. }
  assert (∀ o k0 l,
            forallb (λ i0, (object_idx (volume st i0) =? o)%Z
                           && (instance_idx (volume st i0) =? k0)%Z) l
            = forallb (λ i0, (object_idx (volume s i0) =? o)%Z
                             && (instance_idx (volume s i0) =? k0)%Z) l) as Hall.
  { intros o k0 l. induction l as [|a l IH]; simpl; [done|].
    destruct (Hid a) as (-> & -> & _). by rewrite IH. }
  assert (∀ l, map (λ i0, volume_idx (volume st i0)) l
               = map (λ i0, volume_idx (volume s i0)) l) as Hmap.
  { intros l. induction l as [|a l IH]; simpl; [done|].
    destruct (Hid a) as (_ & _ & ->). by rewrite IH. }
  destruct (Hid (hd 0 (indices (m_list s)))) as (_ & -> & _).
  by rewrite Hall, Hmap.
Qed.

(** [scale] of a selection that is a single full instance, in [Instance]
    mode, gives the scaling factor to the instance of every selected volume
    and, through the synchronisation, to every volume that is another
    instance of the object of a selected volume. *)
Theorem scale_full_instance `{Geometry} (factors : Vec3d) (local : bool) (s : Selection) :
  m_valid s = true →
  indices_in_range s →
  is_single_full_instance s = true →
  m_mode s = Instance →
  ∀ j, j < length (volumes s) →
       j ∈ m_list s ∨ is_Some (instance_leader s j) →
       get_instance_scaling_factor (volume (scale factors local s) j) = factors.
Proof.
  intros Hv Hr Hfull Hm j Hj Hreach. unfold scale. rewrite Hv. cbv zeta. cbn [negb].
  change (volume (with_m_bounding_box_dirty true ?x) j) with (volume x j).
  rewrite _ensure_on_bed_keeps_shape.
  match goal with |- context [for_each_selected ?b s] =>
    destruct (for_each_selected_update b
                (λ _ v, set_instance_scaling_factor factors v) s) as [Hf Hloop] end.
  { done. }
  { done. }
  { intros i st Hf. by rewrite (is_single_full_instance_framed s st Hf), Hfull. }
  set (s1 := for_each_selected _ s) in *. clearbody s1.
  destruct (framed_members _ _ _ Hf) as (Hl & Hm1 & _ & _ & Hc & _).
  pose proof (framed_length _ _ _ Hf) as Hlen.
  unfold synchronize. cbn [DISABLE_INSTANCES_SYNCH]. rewrite Hm1, Hm.
  destruct (synchronize_instances_pass SYNC_ROTATION_NONE s1) as [_ Hsync].
  { intros i Hi. rewrite Hlen. apply Hr. by rewrite <-Hl. }
  rewrite (Hsync j) by lia. rewrite Hl.
  assert (∀ i, i ∈ m_list s → get_instance_scaling_factor (volume s1 i) = factors) as Hsel.
  { intros i Hi. by rewrite (Hloop i), decide_True. }
  destruct (decide (j ∈ m_list s)) as [Hjl|Hjl]; [by apply Hsel|].
  destruct Hreach as [?|[i Hi]]; [done|]. unfold instance_leader in Hi.
  rewrite (find_ext _ (other_instance_of s j)) by (intros x; by apply other_instance_of_framed).
  rewrite Hi. unfold synchronized_from. simpl.
  apply Hsel. apply find_some in Hi as [Hin _]. by apply elem_of_indices, list_elem_of_In.
Qed.

Lemma scale_full_instance_witness :
  get_instance_scaling_factor
    (volume (@scale plain_geometry (mkVec3d 2 2 2) false instance_dragged) 2)
  = mkVec3d 2 2 2.
Proof.
  apply (@scale_full_instance plain_geometry).
  - vm_compute. reflexivity.
  - apply indices_in_range_check. vm_compute. reflexivity.
  - vm_compute. reflexivity.
  - vm_compute. reflexivity.
  - vm_compute. lia.
  - right. vm_compute. eexists. reflexivity.
Defined.

(** ** Laying an object on a face *)

Lemma rotation_components (r : Vec3d) : mkVec3d (vx r) (vy r) (vz r) = r.
Proof. by destruct r. Qed.

(** [flattening_rotate] in [Instance] mode lays all instances alike: a
    volume that is not selected and is another instance of the object of a
    selected volume ends with the rotation of the first such selected
    volume, in the order of the indices. *)
Theorem flattening_rotate_lays_instances_alike `{Geometry} (normal : Vec3d) (s : Selection) :
  m_valid s = true →
  indices_in_range s →
  m_mode s = Instance →
  ∀ j i, j < length (volumes s) → j ∉ m_list s → instance_leader s j = Some i →
         get_instance_rotation (volume (flattening_rotate normal s) j)
         = get_instance_rotation (volume (flattening_rotate normal s) i).
Proof.
  intros Hv Hr Hm j i Hj Hjl Hi. unfold flattening_rotate. rewrite Hv. cbv zeta. cbn [negb].
  change (volume (with_m_bounding_box_dirty true ?x) ?k) with (volume x k).
  match goal with
  | |- context [for_each_selected (λ i st, update_volume i (@?f i) st) s] =>
      destruct (for_each_selected_update (λ i st, update_volume i (f i) st) f s)
        as [Hf Hloop]; [done|done|done|]
  end.
  cbv beta in Hf, Hloop.
  set (s1 := for_each_selected _ s) in *. clearbody s1.
  destruct (framed_members _ _ _ Hf) as (Hl & Hm1 & _).
  pose proof (framed_length _ _ _ Hf) as Hlen.
  cbn [DISABLE_INSTANCES_SYNCH]. rewrite Hm1, Hm.
  rewrite bool_decide_eq_true_2 by done.
  destruct (synchronize_instances_pass SYNC_ROTATION_FULL s1) as [_ Hsync].
  { intros k Hk. rewrite Hlen. apply Hr. by rewrite <-Hl. }
  assert (i ∈ m_list s) as Hil.
  { unfold instance_leader in Hi. apply find_some in Hi as [Hin _].
    by apply elem_of_indices, list_elem_of_In. }
  rewrite (Hsync j), (Hsync i), Hl by (rewrite Hlen; auto).
  rewrite decide_False, decide_True by done.
  rewrite (find_ext _ (other_instance_of s j)) by (intros x; by apply other_instance_of_framed).
  unfold instance_leader in Hi. rewrite Hi.
  unfold synchronized_from. simpl. apply rotation_components.
Qed.

Lemma flattening_rotate_lays_instances_alike_witness :
  get_instance_rotation
    (volume (@flattening_rotate plain_geometry (mkVec3d 0 0 1) instance_dragged) 2)
  = get_instance_rotation
      (volume (@flattening_rotate plain_geometry (mkVec3d 0 0 1) instance_dragged) 0).
Proof.
  apply (@flattening_rotate_lays_instances_alike plain_geometry).
  - vm_compute. reflexivity.
  - apply indices_in_range_check. vm_compute. reflexivity.
  - vm_compute. reflexivity.
  - vm_compute. lia.
  - intros Hc%elem_of_indices. vm_compute in Hc.
    apply elem_of_cons in Hc as [Hc|Hc]; [discriminate Hc|].
    apply elem_of_cons in Hc as [Hc|Hc]; [discriminate Hc|]. by apply elem_of_nil in Hc.
  - vm_compute. reflexivity.
Defined.

(** ** Rotations in [Instance] mode keep the instances of an object in step *)

Lemma vector_get_replicate n (x : Z) o :
  (0 ≤ o < Z.of_nat n)%Z → vector_get (replicate n x) o = x.
Proof.
  intros Ho. unfold vector_get.
  assert ((o <? 0)%Z = false) as -> by (apply Z.ltb_ge; lia).
  apply list_lookup_total_correct, lookup_replicate_2. lia.
Qed.

Lemma vector_get_set_eq l o x :
  (0 ≤ o < Z.of_nat (length l))%Z → vector_get (vector_set l o x) o = x.
Proof.
  intros Ho. unfold vector_get, vector_set.
  assert ((o <? 0)%Z = false) as -> by (apply Z.ltb_ge; lia).
  apply list_lookup_total_correct, list_lookup_insert_eq. lia.
Qed.

Lemma vector_get_set_ne l o o' x :
  (0 ≤ o)%Z → (0 ≤ o')%Z → o ≠ o' → vector_get (vector_set l o x) o' = vector_get l o'.
Proof.
  intros Ho Ho' Hne. unfold vector_get, vector_set.
  assert ((o <? 0)%Z = false) as -> by (apply Z.ltb_ge; lia).
  destruct (o' <? 0)%Z; [done|].
  apply list_lookup_total_insert_ne. lia.
Qed.

Lemma length_vector_set l o x : length (vector_set l o x) = length l.
Proof. unfold vector_set. destruct (o <? 0)%Z; [done|]. apply length_insert. Qed.

Lemma find_is_Some {A} (p : A → bool) l x : x ∈ l → p x = true → is_Some (find p l).
Proof.
  intros Hx Hp. destruct (find p l) eqn:E; [done|].
  apply list_elem_of_In in Hx. by rewrite (find_none _ _ E x Hx) in Hp.
Qed.

Lemma find_elem_of {A} (p : A → bool) l x : find p l = Some x → x ∈ l ∧ p x = true.
Proof. intros [? ?]%find_some. split; [by apply list_elem_of_In|done]. Qed.

Lemma objects_in_model_check s : objects_in_model_test s = true → objects_in_model s.
Proof.
  intros Htest i Hi. unfold objects_in_model_test in Htest.
  rewrite forallb_forall in Htest. specialize (Htest i).
  rewrite <-list_elem_of_In, elem_of_indices in Htest.
  apply Htest in Hi. apply andb_true_iff in Hi as [?%Z.leb_le ?%Z.ltb_lt]. lia.
Qed.

(** The loop of [rotate] for a rotation that is not zero and not mainly
    about Z, when every round goes through [rotate_instance]: the selected
    volumes of an object get the X and Y rotation of the first of them. *)
Lemma rotate_instances_loop `{Geometry} (r : Vec3d) (a : nat) (t : TransformationType)
    (body : Selection * list Z → nat → Selection * list Z) (s : Selection) :
  a ≠ 2 →
  indices_in_range s →
  objects_in_model s →
  (∀ st oif i, framed marks s st → body (st, oif) i = rotate_instance r a t i (st, oif)) →
  let s1 := (foldl body (s, replicate (length (objects (model s))) (-1)%Z)
               (indices (m_list s))).1 in
  framed marks s s1
  ∧ ∀ i f,
      i ∈ m_list s →
      find (λ k, (object_idx (volume s k) =? object_idx (volume s i))%Z)
           (indices (m_list s)) = Some f →
      vx (get_instance_rotation (volume s1 i)) = vx (get_instance_rotation (volume s1 f))
      ∧ vy (get_instance_rotation (volume s1 i)) = vy (get_instance_rotation (volume s1 f)).
Proof.
  intros Ha Hr Hobj Hbody. cbv zeta.
  set (N := length (objects (model s))).
  set (first (pre : list nat) (o : Z) :=
         find (λ k, (object_idx (volume s k) =? o)%Z) pre).
  set (Q (pre : list nat) (p : Selection * list Z) :=
         framed marks s p.1
         ∧ length p.2 = N
         ∧ (∀ o, (0 ≤ o < Z.of_nat N)%Z →
                 vector_get p.2 o = match first pre o with
                                    | Some f => Z.of_nat f
                                    | None => (-1)%Z
                                    end)
         ∧ ∀ i f, i ∈ pre → first pre (object_idx (volume s i)) = Some f →
                  vx (get_instance_rotation (volume p.1 i))
                  = vx (get_instance_rotation (volume p.1 f))
                  ∧ vy (get_instance_rotation (volume p.1 i))
                    = vy (get_instance_rotation (volume p.1 f))).
  match goal with |- context [foldl ?f ?b ?l] => assert (Q l (foldl f b l)) as HQ end.
  { apply (foldl_prefix_invariant Q).
    - split; [done|]. split; [apply length_replicate|]. split.
      + intros o Ho. simpl. by apply vector_get_replicate.
      + intros i f Hi. by apply elem_of_nil in Hi.
    - intros pre x [st oif] [post Hl] (Hf & Hlen & Htab & Hxy).
      simpl in Hf, Hlen, Htab, Hxy.
      assert (∀ g0 k, k ≠ x → volume (update_volume x g0 st) k = volume st k) as Hother.
      { intros g0 k Hk. rewrite volume_update_volume.
        by rewrite decide_False by (intros [? _]; congruence). }
      assert (x ∈ m_list s) as Hx.
      { apply elem_of_indices. rewrite Hl. apply elem_of_app. right. by left. }
      assert (x ∉ pre) as Hfresh by (eapply NoDup_prefix_fresh; [apply NoDup_indices|done]).
      pose proof (Hobj x Hx) as Hox. fold N in Hox.
      pose proof (framed_view _ _ _ x Hf) as (Hmx & _)%marks_inv.
      rewrite (Hbody st oif x Hf). unfold rotate_instance. rewrite Hmx.
      assert ((a =? 2) = false) as -> by by apply Nat.eqb_neq.
      cbn [negb andb].
      assert (∀ o, first (pre ++ [x]) o
                   = match first pre o with
                     | Some f => Some f
                     | None => if (object_idx (volume s x) =? o)%Z then Some x else None
                     end) as Hfirst by (intros o; unfold first; by rewrite find_snoc).
      assert (∀ st' : Selection,
                (∀ k, k ≠ x → volume st' k = volume st k) →
                ∀ i f, i ∈ pre → first (pre ++ [x]) (object_idx (volume s i)) = Some f →
                       vx (get_instance_rotation (volume st' i))
                       = vx (get_instance_rotation (volume st' f))
                       ∧ vy (get_instance_rotation (volume st' i))
                         = vy (get_instance_rotation (volume st' f))) as Hold.
      { intros st' Hst' i f Hi Hif. rewrite Hfirst in Hif.
        destruct (find_is_Some (λ k, (object_idx (volume s k) =? object_idx (volume s i))%Z)
                    pre i Hi (Z.eqb_refl _)) as [g Hg].
        fold (first pre (object_idx (volume s i))) in Hg. rewrite Hg in Hif.
        injection Hif as <-.
        destruct (find_elem_of _ _ _ Hg) as [Hgin _].
        rewrite !Hst' by (intros ->; done). by apply Hxy. }
      rewrite (Htab _ Hox).
      destruct (first pre (object_idx (volume s x))) as [f|] eqn:Hf0.
      + assert ((Z.of_nat f =? -1)%Z = false) as -> by (apply Z.eqb_neq; lia).
        cbn [negb]. rewrite Nat2Z.id.
        destruct (find_elem_of _ _ _ Hf0) as [Hfin _].
        assert (f ≠ x) as Hfx by (intros ->; done).
        split; [by apply framed_update_volume|]. split; [done|]. simpl. split.
        * intros o Ho. rewrite (Htab o Ho), Hfirst.
          destruct (first pre o) eqn:Ho'; [done|].
          destruct (Z.eqb_spec (object_idx (volume s x)) o) as [<-|]; [congruence|done].
        * intros i g [Hi| ->%list_elem_of_singleton]%elem_of_app Hig.
          -- by apply (Hold _ (Hother _)).
          -- rewrite Hfirst, Hf0 in Hig. injection Hig as <-.
             rewrite !volume_update_volume.
             rewrite decide_True by (split; [done|rewrite (framed_length _ _ _ Hf); by apply Hr]).
             rewrite decide_False by (by intros [? _]). done.
      + rewrite Z.eqb_refl. cbn [negb].
        split; [by apply framed_update_volume|]. split.
        { simpl. by rewrite length_vector_set. }
        simpl. split.
        * intros o Ho. rewrite Hfirst.
          destruct (Z.eqb_spec (object_idx (volume s x)) o) as [<-|Hne].
          -- rewrite Hf0, vector_get_set_eq; [done|]. by rewrite Hlen.
          -- rewrite vector_get_set_ne by lia. rewrite (Htab o Ho).
             by destruct (first pre o).
        * intros i g [Hi| ->%list_elem_of_singleton]%elem_of_app Hig.
          -- by apply (Hold _ (Hother _)).
          -- rewrite Hfirst, Hf0, Z.eqb_refl in Hig. by injection Hig as <-. }
  destruct HQ as (Hf & _ & _ & Hxy). split; [done|].
  intros i f Hi Hif. apply Hxy; [by apply elem_of_indices|done].
Qed.

(** After [rotate] in [Instance] mode with a rotation that is not zero and
    not mainly about Z, the rotations of the instances of an object agree in
    their X and Y components: any two volumes of one object that are selected
    or are other instances of the object of a selected volume end with the
    same X and the same Y rotation of their instances; only Z may differ.
    (The selected volumes are volumes of objects of the model, and the
    selection is a single full instance or neither a single volume nor a
    single modifier, so that every selected volume is rotated as an
    instance.) *)
Theorem rotate_keeps_instances_in_step `{Geometry} (rotation : Vec3d)
    (transformation_type : TransformationType) (s : Selection) :
  m_valid s = true →
  isApprox rotation Vec3d_Zero = false →
  cwiseAbs_maxCoeff_index rotation ≠ 2 →
  indices_in_range s →
  objects_in_model s →
  m_mode s = Instance →
  is_single_full_instance s = true ∨ is_single_volume s || is_single_modifier s = false →
  ∀ j k,
    j < length (volumes s) → k < length (volumes s) →
    reached_in_instance_mode s j → reached_in_instance_mode s k →
    object_idx (volume s j) = object_idx (volume s k) →
    vx (get_instance_rotation (volume (rotate rotation transformation_type s) j))
    = vx (get_instance_rotation (volume (rotate rotation transformation_type s) k))
    ∧ vy (get_instance_rotation (volume (rotate rotation transformation_type s) j))
      = vy (get_instance_rotation (volume (rotate rotation transformation_type s) k)).
Proof.
  intros Hv Hzero Ha Hr Hobj Hm Hkind j k Hj Hk Hrj Hrk Hjk.
  unfold rotate. rewrite Hv, Hzero. cbv beta iota zeta. cbn [negb].
  change (volume (with_m_bounding_box_dirty true ?x) ?i) with (volume x i).
  match goal with
  | |- context [foldl ?b (s, ?init) (indices (m_list s))] =>
      destruct (rotate_instances_loop rotation (cwiseAbs_maxCoeff_index rotation)
                  transformation_type b s Ha Hr Hobj) as [Hf Hxy]
  end.
  { intros st oif i Hf. cbv beta iota.
    rewrite (is_single_full_instance_framed s st Hf).
    destruct (framed_members _ _ _ Hf) as (_ & Hm' & Ht & _).
    unfold is_single_volume, is_single_modifier in *. rewrite Ht, Hm', Hm.
    destruct Hkind as [-> | ->]; [done|]. by destruct (is_single_full_instance s). }
  cbv zeta in Hf, Hxy.
  set (s1 := (foldl _ _ _).1) in *. clearbody s1.
  destruct (framed_members _ _ _ Hf) as (Hl & Hm1 & _ & _ & Hc & _).
  pose proof (framed_length _ _ _ Hf) as Hlen.
  unfold synchronize. cbn [DISABLE_INSTANCES_SYNCH]. rewrite Hm1, Hm.
  assert ((cwiseAbs_maxCoeff_index rotation =? 2) = false) as -> by by apply Nat.eqb_neq.
  destruct (synchronize_instances_pass SYNC_ROTATION_GENERAL s1) as [_ Hsync].
  { intros i Hi. rewrite Hlen. apply Hr. by rewrite <-Hl. }
  set (s2 := _synchronize_unselected_instances SYNC_ROTATION_GENERAL s1) in *. clearbody s2.
  assert (∀ x f,
            x < length (volumes s) → reached_in_instance_mode s x →
            find (λ i, (object_idx (volume s i) =? object_idx (volume s x))%Z)
                 (indices (m_list s)) = Some f →
            vx (get_instance_rotation (volume s2 x))
            = vx (get_instance_rotation (volume s1 f))
            ∧ vy (get_instance_rotation (volume s2 x))
              = vy (get_instance_rotation (volume s1 f))) as Hfirst.
  { intros x f Hx Hreach Hfind. rewrite (Hsync x) by lia. rewrite Hl.
    destruct (decide (x ∈ m_list s)) as [Hxl|Hxl]; [by apply Hxy|].
    destruct Hreach as [?|[i Hi]]; [done|]. unfold instance_leader in Hi.
    rewrite (find_ext _ (other_instance_of s x))
      by (intros y; by apply other_instance_of_framed).
    rewrite Hi. unfold synchronized_from. simpl.
    destruct (find_elem_of _ _ _ Hi) as [Hil Htest]. apply elem_of_indices in Hil.
    apply Hxy; [done|].
    unfold other_instance_of in Htest.
    apply andb_true_iff in Htest as [[_ Ho%Z.eqb_eq]%andb_true_iff _].
    by rewrite <-Ho. }
  assert (∃ f, find (λ i, (object_idx (volume s i) =? object_idx (volume s j))%Z)
                    (indices (m_list s)) = Some f) as [f Hfj].
  { destruct Hrj as [Hjl|[i Hi]].
    - apply (find_is_Some _ _ j); [by apply elem_of_indices|apply Z.eqb_refl].
    - destruct (find_elem_of _ _ _ Hi) as [Hil Htest].
      apply (find_is_Some _ _ i); [done|].
      unfold other_instance_of in Htest.
      apply andb_true_iff in Htest as [[_ Ho%Z.eqb_eq]%andb_true_iff _].
      apply Z.eqb_eq. done. }
  destruct (Hfirst j f Hj Hrj Hfj) as [-> ->].
  rewrite Hjk in Hfj.
  destruct (Hfirst k f Hk Hrk Hfj) as [-> ->]. done.
Qed.

Lemma rotate_keeps_instances_in_step_witness :
  vx (get_instance_rotation
        (volume (@rotate plain_geometry (mkVec3d 1 0 0)
                   (mkTransformationType false true false) instance_dragged) 0))
  = vx (get_instance_rotation
          (volume (@rotate plain_geometry (mkVec3d 1 0 0)
                     (mkTransformationType false true false) instance_dragged) 2))
  ∧ vy (get_instance_rotation
          (volume (@rotate plain_geometry (mkVec3d 1 0 0)
                     (mkTransformationType false true false) instance_dragged) 0))
    = vy (get_instance_rotation
            (volume (@rotate plain_geometry (mkVec3d 1 0 0)
                       (mkTransformationType false true false) instance_dragged) 2)).
Proof.
  apply (@rotate_keeps_instances_in_step plain_geometry).
  - vm_compute. reflexivity.
  - vm_compute. reflexivity.
  - vm_compute. lia.
  - apply indices_in_range_check. vm_compute. reflexivity.
  - apply objects_in_model_check. vm_compute. reflexivity.
  - vm_compute. reflexivity.
  - left. vm_compute. reflexivity.
  - vm_compute. lia.
  - vm_compute. lia.
  - left. apply elem_of_indices. vm_compute. by left.
  - right. vm_compute. eexists. reflexivity.
  - vm_compute. reflexivity.
Defined.
